(** * ascanvas2d: seeded random numbers, simplex noise and curl noise

    A shallow embedding of the utility module of ascanvas2d
    ([_createRandom], [createRandom], [createNoise3D],
    [buildPermutationTable], [curlNoise3], [curlNoise3D]) and the
    properties its specification states about it; then of the number and
    colour helpers of its drawing module ([snapValue], [mapValue],
    [distance], [color]) and of its animation loop ([ascanvas2d]), with
    further properties that the code shows.

    JavaScript numbers are IEEE 754 binary64 values: they are modelled by
    Rocq's primitive [float]s, whose operations are the same binary64
    operations with round-to-nearest-even.  Numbers that the program keeps
    integral (hash lanes, 32-bit intermediate results, array indices) are
    carried as [Z], with the 32-bit wrap-around of the JavaScript operators
    written out.

    The file has two parts: the model of the program, then the lemmas and
    theorems about it. *)

From Stdlib Require Import String Ascii.
From Stdlib Require Import ZArith List Bool Lia Permutation.
From Stdlib Require Import Floats.
From Stdlib Require Import Reals Lra.
Import ListNotations.

#[local] Set Warnings "-inexact-float".

Local Open Scope Z_scope.

(** * Part I: the model *)

(** ** JavaScript number conversions and 32-bit operators *)

Module JS.

(** [ToUint32] and [ToInt32] on an integral number. *)
Definition toUint32 (z : Z) : Z := z mod 2 ^ 32.
Definition toInt32 (z : Z) : Z := (z + 2 ^ 31) mod 2 ^ 32 - 2 ^ 31.

(** [a ^ b], [a | b], [a & b]: both operands go through [ToInt32]. *)
Definition xor (a b : Z) : Z := Z.lxor (toInt32 a) (toInt32 b).
Definition or (a b : Z) : Z := Z.lor (toInt32 a) (toInt32 b).
Definition and (a b : Z) : Z := Z.land (toInt32 a) (toInt32 b).

(** [a >>> n]: the left operand goes through [ToUint32], the shift count
    is taken modulo 32. *)
Definition ushr (a n : Z) : Z := Z.shiftr (toUint32 a) (n mod 32).

(** [Math.imul(a, b)]: the low 32 bits of the product, signed. *)
Definition imul (a b : Z) : Z := toInt32 (toInt32 a * toInt32 b).

(** The number whose value is the integer [z]; exact for |z| < 2^53,
    which covers every use below. *)
Definition ofZ (z : Z) : float :=
  if z <? 0 then (- of_uint63 (Uint63.of_Z (- z)))%float
  else of_uint63 (Uint63.of_Z z).

(** The integer part of a number, rounded toward zero; NaN and the
    infinities give 0, as in the first steps of [ToInt32]. *)
Definition truncate (x : float) : Z :=
  match Prim2SF x with
  | S754_finite s m e => cond_Zopp s (Z.shiftl (Zpos m) e)
  | _ => 0
  end.

(** [Math.floor] as an integer; [None] when the number is NaN or
    infinite ([Math.floor] returns those unchanged). *)
Definition floor (x : float) : option Z :=
  match Prim2SF x with
  | S754_finite s m e => Some (Z.shiftl (cond_Zopp s (Zpos m)) e)
  | S754_zero _ => Some 0
  | _ => None
  end.

(** [ToInt32] of an arbitrary number: [x | 0], [~~x]. *)
Definition int32 (x : float) : Z := toInt32 (truncate x).

(** Strings are sequences of UTF-16 code units; [charCodeAt] reads one. *)
Definition jsstring := list Z.

Definition utf16 (s : string) : jsstring :=
  List.map (fun c => Z.of_nat (nat_of_ascii c)) (list_ascii_of_string s).

(** Argument values of a call: [undefined] or a number.  [ToNumber]
    turns [undefined] into NaN. *)
Inductive value := Undefined | Num (x : float).

Definition toNumber (v : value) : float :=
  match v with Undefined => nan | Num x => x end.

(** [for (let i = lo; i < lo + n; i++) body]: the loop state after the
    [n] turns. *)
Definition for_range {St : Type} (lo : Z) (n : nat) (body : Z -> St -> St)
  (st : St) : St :=
  fold_left (fun st k => body (lo + Z.of_nat k) st) (seq 0 n) st.

(** Typed arrays as lists.  A read at an index that is no element yields
    [undefined]; a write there is ignored; a [Uint8Array] stores its
    value modulo 256, and [undefined] as 0. *)
Definition get {A : Type} (t : list A) (i : Z) : option A :=
  if (0 <=? i) && (i <? Z.of_nat (length t)) then nth_error t (Z.to_nat i)
  else None.

Fixpoint update {A : Type} (t : list A) (n : nat) (v : A) : list A :=
  match t, n with
  | [], _ => []
  | _ :: t', O => v :: t'
  | a :: t', S n' => a :: update t' n' v
  end.

Definition toUint8 (v : option Z) : Z :=
  match v with Some z => z mod 256 | None => 0 end.

Definition set_u8 (t : list Z) (i : Z) (v : option Z) : list Z :=
  if (0 <=? i) && (i <? Z.of_nat (length t))
  then update t (Z.to_nat i) (toUint8 v)
  else t.

End JS.

(** ** Arithmetic on numbers

    The arithmetic formulas of the program are written once, over the
    operations of a [Number].  The program runs them on binary64 numbers;
    the real numbers give the same formulas their exact meaning. *)

Class Number (num : Type) := {
  nadd : num -> num -> num;
  nsub : num -> num -> num;
  nmul : num -> num -> num;
  ndiv : num -> num -> num;
  nopp : num -> num;
  nofZ : Z -> num;
  (** [Math.hypot] of three arguments *)
  nhypot : num -> num -> num -> num;
  (** [ToBoolean]: zero and NaN are false *)
  ntruthy : num -> bool
}.

Declare Scope num_scope.
Delimit Scope num_scope with num.
Infix "+" := nadd : num_scope.
Infix "-" := nsub : num_scope.
Infix "*" := nmul : num_scope.
Infix "/" := ndiv : num_scope.
Notation "- x" := (nopp x) : num_scope.

(** [Math.hypot] on binary64 numbers.  ECMAScript fixes the result when
    an argument is infinite (+Infinity, even beside a NaN), when one is
    NaN, and when all are zero; otherwise it asks for an approximation of
    the square root of the sum of the squares, for which the model takes
    the plain binary64 evaluation. *)
Definition Math_hypot (x y z : float) : float :=
  if is_infinity x || is_infinity y || is_infinity z then infinity
  else if is_nan x || is_nan y || is_nan z then nan
  else PrimFloat.sqrt (x * x + y * y + z * z)%float.

#[export] Instance binary64 : Number float := {
  nadd := PrimFloat.add;
  nsub := PrimFloat.sub;
  nmul := PrimFloat.mul;
  ndiv := PrimFloat.div;
  nopp := PrimFloat.opp;
  nofZ := JS.ofZ;
  nhypot := Math_hypot;
  ntruthy x := negb (PrimFloat.eqb x 0 || is_nan x)
}.

#[export] Instance exact : Number R := {
  nadd := Rplus;
  nsub := Rminus;
  nmul := Rmult;
  ndiv := Rdiv;
  nopp := Ropp;
  nofZ := IZR;
  nhypot x y z := R_sqrt.sqrt (x * x + y * y + z * z)%R;
  ntruthy x := if Req_dec_T x 0 then false else true
}.

(** The exact value of a finite binary64 number (0 for NaN and the
    infinities, which have none). *)
Definition toR (x : float) : R :=
  match Prim2SF x with
  | S754_finite s m e => (IZR (cond_Zopp s (Zpos m)) * powerRZ 2 e)%R
  | _ => 0%R
  end.

(** ** The seeded generator: cyrb128 and mulberry32 *)

(** [Math.random] is a source outside the program: a run is given the
    stream of numbers it will return. *)
Definition world := nat -> float.

Definition Math_random (w : world) : float * world :=
  (w O, fun n => w (S n)).

Record lanes := Lanes { h1 : Z; h2 : Z; h3 : Z; h4 : Z }.

(** One turn of the loop of [cyrb128] on the code unit [k].  The fourth
    assignment reads the lane [h1] that the first one has just written. *)
Definition cyrb128_step (h : lanes) (k : Z) : lanes :=
  let h1' := JS.xor (h2 h) (JS.imul (JS.xor (h1 h) k) 597399067) in
  let h2' := JS.xor (h3 h) (JS.imul (JS.xor (h2 h) k) 2869860233) in
  let h3' := JS.xor (h4 h) (JS.imul (JS.xor (h3 h) k) 951274213) in
  let h4' := JS.xor h1' (JS.imul (JS.xor (h4 h) k) 2716044179) in
  Lanes h1' h2' h3' h4'.

Definition cyrb128 (str : JS.jsstring) : list Z :=
  let h := fold_left cyrb128_step str
             (Lanes 1779033703 3144134277 1013904242 2773480762) in
  let h1 := JS.imul (JS.xor (h3 h) (JS.ushr (h1 h) 18)) 597399067 in
  let h2 := JS.imul (JS.xor (h4 h) (JS.ushr (h2 h) 22)) 2869860233 in
  let h3 := JS.imul (JS.xor h1 (JS.ushr (h3 h) 17)) 951274213 in
  let h4 := JS.imul (JS.xor h2 (JS.ushr (h4 h) 19)) 2716044179 in
  [ JS.ushr (JS.xor (JS.xor (JS.xor h1 h2) h3) h4) 0;
    JS.ushr (JS.xor h2 h1) 0;
    JS.ushr (JS.xor h3 h1) 0;
    JS.ushr (JS.xor h4 h1) 0 ].

(** The 32-bit word that a draw of [mulberry32] turns into a fraction,
    from the captured variable [a] after its increment.  [a] is a number,
    so the increment is a binary64 addition; the bit operators then read
    it through [ToInt32] and [ToUint32]. *)
Definition mulberry32_word (a : float) : Z :=
  let t := JS.truncate a in
  let t := JS.imul (JS.xor t (JS.ushr t 15)) (JS.or t 1) in
  let t := JS.xor t (t + JS.imul (JS.xor t (JS.ushr t 7)) (JS.or t 61)) in
  JS.ushr (JS.xor t (JS.ushr t 14)) 0.

(** One call of the closure returned by [mulberry32(a)]: the value
    returned and the new content of the captured [a]. *)
Definition mulberry32 (a : float) : float * float :=
  let a' := (a + 1831565813)%float in
  ((JS.ofZ (mulberry32_word a') / 4294967296)%float, a').

(** What [_createRandom] returns: the [mulberry32] closure with its
    captured accumulator, or [Math.random] itself. *)
Inductive rng :=
| Seeded (a : float)
| Platform.

Definition _createRandom (seed : JS.jsstring) : rng :=
  match seed with
  | [] => Platform
  | _ => Seeded (JS.ofZ (nth 0 (cyrb128 seed) 0))
  end.

(** A call [r()]. *)
Definition draw (r : rng) (w : world) : float * rng * world :=
  match r with
  | Seeded a => let '(x, a') := mulberry32 a in (x, Seeded a', w)
  | Platform => let '(x, w') := Math_random w in (x, Platform, w')
  end.

(** [x * (b - a) + a], the range mapping of the two-argument call. *)
Definition scale {num : Type} `{Number num} (x a b : num) : num :=
  (x * (b - a) + a)%num.

(** [createRandom(seed)] keeps [r] in a closure; [next args] is a call of
    the function it returns with the argument list [args]. *)
Definition createRandom (seed : JS.jsstring) : rng := _createRandom seed.

Definition next (args : list JS.value) (r : rng) (w : world)
  : float * rng * world :=
  let a := JS.toNumber (nth 0 args JS.Undefined) in
  let b := JS.toNumber (nth 1 args JS.Undefined) in
  match args with
  | [] => draw r w
  | _ => let '(x, r', w') := draw r w in (scale x a b, r', w')
  end.

(** The values of [n] successive zero-argument calls. *)
Fixpoint draws (n : nat) (r : rng) (w : world) : list float :=
  match n with
  | O => []
  | S n' => let '(x, r', w') := next [] r w in x :: draws n' r' w'
  end.

(** A number of the half-open unit interval. *)
Definition unit_interval (x : float) : Prop :=
  (0 <=? x)%float = true /\ (x <? 1)%float = true.

(** ** The permutation table *)

Section PermutationTable.

(** The draw function handed to [createNoise3D]: a function with a state
    of its own, called with no argument. *)
Context {St : Type} (random : St -> float * St).

(** One turn of the shuffling loop, on the table and the state of
    [random]. *)
Definition shuffle_step (i : Z) (st : list Z * St) : list Z * St :=
  let '(p, s) := st in
  let '(x, s') := random s in
  let r := i + JS.int32 (x * JS.ofZ (256 - i)) in
  let aux := JS.get p i in
  let p := JS.set_u8 p i (JS.get p r) in
  let p := JS.set_u8 p r aux in
  (p, s').

Definition buildPermutationTable (s : St) : list Z * St :=
  let tableSize := 512 in
  let p := repeat 0 (Z.to_nat tableSize) in
  let p := JS.for_range 0 (Z.to_nat (tableSize / 2))
             (fun i p => JS.set_u8 p i (Some i)) p in
  let '(p, s) := JS.for_range 0 (Z.to_nat (tableSize / 2 - 1))
                   shuffle_step (p, s) in
  let p := JS.for_range 256 (Z.to_nat (tableSize - 256))
             (fun i p => JS.set_u8 p i (JS.get p (i - 256))) p in
  (p, s).

(** The algorithm in the words of the specification: the identity on
    256 entries; for [i] from 0 to 254 the entries [i] and
    [i + floor(random() * (256 - i))] are swapped; the 256 entries are
    then copied behind themselves.  The specification says nothing of a
    swap with an index outside the table: the table is left as it is. *)
Definition swap_entries (p : list Z) (i r : Z) : list Z :=
  match JS.get p i, JS.get p r with
  | Some a, Some b => JS.update (JS.update p (Z.to_nat i) b) (Z.to_nat r) a
  | _, _ => p
  end.

Definition spec_shuffle_step (i : Z) (st : list Z * St) : list Z * St :=
  let '(p, s) := st in
  let '(x, s') := random s in
  match JS.floor (x * JS.ofZ (256 - i)) with
  | Some f => (swap_entries p i (i + f), s')
  | None => (p, s')
  end.

Definition permutation_table_spec (s : St) : list Z * St :=
  let identity := List.map Z.of_nat (seq 0 256) in
  let '(p, s') := JS.for_range 0 255 spec_shuffle_step (identity, s) in
  (p ++ p, s').

End PermutationTable.

(** The values that a draw function returns from the state [s]: the
    state before its call number [n] (from 0), and the value of that
    call. *)
Definition state_before {St : Type} (random : St -> float * St) (s : St)
  (n : nat) : St :=
  Nat.iter n (fun s => snd (random s)) s.

Definition output {St : Type} (random : St -> float * St) (s : St) (n : nat)
  : float :=
  fst (random (state_before random s n)).

(** The invariant of a permutation table: 512 entries, the first 256 a
    permutation of 0..255, the last 256 a copy of the first. *)
Definition permutation_table (p : list Z) : Prop :=
  List.length p = 512%nat
  /\ Permutation (firstn 256 p) (List.map Z.of_nat (seq 0 256))
  /\ forall i, 256 <= i < 512 -> JS.get p i = JS.get p (i - 256).

(** A generator returned by [createRandom], as the draw function of a
    table: its state is the closure and the world. *)
Definition draw_function (st : rng * world) : float * (rng * world) :=
  let '(r, w) := st in
  let '(x, r', w') := next [] r w in (x, (r', w')).

(** ** Simplex noise *)

Definition F3 : float := (1 / 3)%float.
Definition G3 : float := (1 / 6)%float.

(** [Math.floor(x) | 0] *)
Definition fastFloor (x : float) : Z :=
  JS.toInt32 (match JS.floor x with Some z => z | None => 0 end).

Definition grad3 : list float :=
  [ 1; 1; 0; -1; 1; 0; 1; -1; 0; -1; -1; 0; 1; 0; 1; -1; 0; 1; 1; 0; -1; -1; 0;
    -1; 0; 1; 1; 0; -1; 1; 0; 1; -1; 0; -1; -1 ]%float.

Record tables := Tables {
  perm : list Z;
  permGrad3x : list float;
  permGrad3y : list float;
  permGrad3z : list float
}.

(** [new Float64Array(perm).map((v) => grad3[(v % 12) * 3 + c])] *)
Definition gradient_table (perm : list Z) (c : Z) : list float :=
  List.map (fun v => nth (Z.to_nat ((v mod 12) * 3 + c)) grad3 nan) perm.

Definition tables_of (perm : list Z) : tables :=
  Tables perm (gradient_table perm 0) (gradient_table perm 1)
    (gradient_table perm 2).

(** [createNoise3D(random)]: the tables its closure keeps. *)
Definition createNoise3D {St : Type} (random : St -> float * St) (s : St)
  : tables * St :=
  let '(perm, s') := buildPermutationTable random s in (tables_of perm, s').

(** Array reads of [noise3D] are traced: a computation carries the
    indices it has read at, and stops with [None] at a read outside the
    array (where JavaScript would go on with [undefined]). *)
Definition traced (A : Type) : Type := (list Z * option A)%type.

Definition ret {A : Type} (a : A) : traced A := ([], Some a).

Definition bind {A B : Type} (m : traced A) (k : A -> traced B) : traced B :=
  match m with
  | (l, Some a) => let '(l', b) := k a in (l ++ l', b)
  | (l, None) => (l, None)
  end.

Definition read {A : Type} (t : list A) (i : Z) : traced A :=
  ([i], JS.get t i).

Notation "x <- m ;; k" := (bind m (fun x => k))
  (at level 61, m at next level, right associativity).

(** The cell of a point: the skewed lattice coordinates and the offsets
    of the point from the cell origin. *)
Record cell := Cell {
  ci : Z; cj : Z; ck : Z;
  x0 : float; y0 : float; z0 : float
}.

Definition cellOf (x y z : float) : cell :=
  let s := ((x + y + z) * F3)%float in
  let i := fastFloor (x + s) in
  let j := fastFloor (y + s) in
  let k := fastFloor (z + s) in
  let t := ((JS.ofZ i + JS.ofZ j + JS.ofZ k) * G3)%float in
  let X0 := (JS.ofZ i - t)%float in
  let Y0 := (JS.ofZ j - t)%float in
  let Z0 := (JS.ofZ k - t)%float in
  Cell i j k (x - X0) (y - Y0) (z - Z0).

(** The offsets [(i1, j1, k1)] and [(i2, j2, k2)] of the second and third
    corner.  [a >= b] is [b <=? a]. *)
Definition simplexOrder (x0 y0 z0 : float) : (Z * Z * Z) * (Z * Z * Z) :=
  if (y0 <=? x0)%float then
    if (z0 <=? y0)%float then ((1, 0, 0), (1, 1, 0))
    else if (z0 <=? x0)%float then ((1, 0, 0), (1, 0, 1))
    else ((0, 0, 1), (1, 0, 1))
  else
    if (y0 <? z0)%float then ((0, 0, 1), (0, 1, 1))
    else if (x0 <? z0)%float then ((0, 1, 0), (0, 1, 1))
    else ((0, 1, 0), (1, 1, 0)).

(** [noise3D(x, y, z)], the function that [createNoise3D] returns, on the
    tables [T] that it keeps. *)
Definition noise3D (T : tables) (x y z : float) : traced float :=
  let c := cellOf x y z in
  let '(i, j, k) := (ci c, cj c, ck c) in
  let '(x0, y0, z0) := (x0 c, y0 c, z0 c) in
  let '((i1, j1, k1), (i2, j2, k2)) := simplexOrder x0 y0 z0 in
  let x1 := (x0 - JS.ofZ i1 + G3)%float in
  let y1 := (y0 - JS.ofZ j1 + G3)%float in
  let z1 := (z0 - JS.ofZ k1 + G3)%float in
  let x2 := (x0 - JS.ofZ i2 + 2 * G3)%float in
  let y2 := (y0 - JS.ofZ j2 + 2 * G3)%float in
  let z2 := (z0 - JS.ofZ k2 + 2 * G3)%float in
  let x3 := (x0 - 1 + 3 * G3)%float in
  let y3 := (y0 - 1 + 3 * G3)%float in
  let z3 := (z0 - 1 + 3 * G3)%float in
  let ii := JS.and i 255 in
  let jj := JS.and j 255 in
  let kk := JS.and k 255 in
  let t0 := (0.6 - x0 * x0 - y0 * y0 - z0 * z0)%float in
  n0 <- (if (t0 <? 0)%float then ret 0%float
         else
           pk <- read (perm T) kk ;;
           pj <- read (perm T) (jj + pk) ;;
           let gi0 := ii + pj in
           let t0 := (t0 * t0)%float in
           gx <- read (permGrad3x T) gi0 ;;
           gy <- read (permGrad3y T) gi0 ;;
           gz <- read (permGrad3z T) gi0 ;;
           ret (t0 * t0 * (gx * x0 + gy * y0 + gz * z0))%float) ;;
  let t1 := (0.6 - x1 * x1 - y1 * y1 - z1 * z1)%float in
  n1 <- (if (t1 <? 0)%float then ret 0%float
         else
           pk <- read (perm T) (kk + k1) ;;
           pj <- read (perm T) (jj + j1 + pk) ;;
           let gi1 := ii + i1 + pj in
           let t1 := (t1 * t1)%float in
           gx <- read (permGrad3x T) gi1 ;;
           gy <- read (permGrad3y T) gi1 ;;
           gz <- read (permGrad3z T) gi1 ;;
           ret (t1 * t1 * (gx * x1 + gy * y1 + gz * z1))%float) ;;
  let t2 := (0.6 - x2 * x2 - y2 * y2 - z2 * z2)%float in
  n2 <- (if (t2 <? 0)%float then ret 0%float
         else
           pk <- read (perm T) (kk + k2) ;;
           pj <- read (perm T) (jj + j2 + pk) ;;
           let gi2 := ii + i2 + pj in
           let t2 := (t2 * t2)%float in
           gx <- read (permGrad3x T) gi2 ;;
           gy <- read (permGrad3y T) gi2 ;;
           gz <- read (permGrad3z T) gi2 ;;
           ret (t2 * t2 * (gx * x2 + gy * y2 + gz * z2))%float) ;;
  let t3 := (0.6 - x3 * x3 - y3 * y3 - z3 * z3)%float in
  n3 <- (if (t3 <? 0)%float then ret 0%float
         else
           pk <- read (perm T) (kk + 1) ;;
           pj <- read (perm T) (jj + 1 + pk) ;;
           let gi3 := ii + 1 + pj in
           let t3 := (t3 * t3)%float in
           gx <- read (permGrad3x T) gi3 ;;
           gy <- read (permGrad3y T) gi3 ;;
           gz <- read (permGrad3z T) gi3 ;;
           ret (t3 * t3 * (gx * x3 + gy * y3 + gz * z3))%float) ;;
  ret (32 * (n0 + n1 + n2 + n3))%float.

(** The entry [i] of a table, [d] where there is none. *)
Definition entry {A : Type} (t : list A) (d : A) (i : Z) : A :=
  nth (Z.to_nat i) t d.

(** The contribution of one corner in the words of the specification:
    the falloff [t = 0.6 - dx^2 - dy^2 - dz^2], nothing when [t < 0], else
    [t^4] times the dot product of the gradient with the offset.  The
    gradient of the corner [(ii, jj, kk)] is found by the nested lookup
    [ii + perm[jj + perm[kk]]]. *)
Definition gradient (T : tables) (ii jj kk : Z) : float * float * float :=
  let gi := ii + entry (perm T) 0 (jj + entry (perm T) 0 kk) in
  (entry (permGrad3x T) nan gi, entry (permGrad3y T) nan gi,
   entry (permGrad3z T) nan gi).

Definition contribution (g : float * float * float) (dx dy dz : float)
  : float :=
  let '(gx, gy, gz) := g in
  let t := (0.6 - dx * dx - dy * dy - dz * dz)%float in
  if (t <? 0)%float then 0%float
  else ((t * t) * (t * t) * (gx * dx + gy * dy + gz * dz))%float.

(** The four corners of the simplex of a cell: the lattice offset of
    each corner and the offset of the point from it (the in-cell offset,
    less the lattice offset, plus one more [G3] per corner). *)
Definition corners (c : cell) : list ((Z * Z * Z) * (float * float * float)) :=
  let '((i1, j1, k1), (i2, j2, k2)) := simplexOrder (x0 c) (y0 c) (z0 c) in
  [ ((0, 0, 0), (x0 c, y0 c, z0 c));
    ((i1, j1, k1),
     (x0 c - JS.ofZ i1 + G3, y0 c - JS.ofZ j1 + G3, z0 c - JS.ofZ k1 + G3)%float);
    ((i2, j2, k2),
     (x0 c - JS.ofZ i2 + 2 * G3, y0 c - JS.ofZ j2 + 2 * G3,
      z0 c - JS.ofZ k2 + 2 * G3)%float);
    ((1, 1, 1),
     (x0 c - 1 + 3 * G3, y0 c - 1 + 3 * G3, z0 c - 1 + 3 * G3)%float) ].

Definition corner_value (T : tables) (c : cell)
  (corner : (Z * Z * Z) * (float * float * float)) : float :=
  let '((di, dj, dk), (dx, dy, dz)) := corner in
  contribution
    (gradient T (JS.and (ci c) 255 + di) (JS.and (cj c) 255 + dj)
       (JS.and (ck c) 255 + dk))
    dx dy dz.

(** The value of the noise in the words of the specification: 32 times
    the sum of the contributions of the four corners. *)
Definition noise3D_spec (T : tables) (x y z : float) : float :=
  let c := cellOf x y z in
  match List.map (corner_value T c) (corners c) with
  | [n0; n1; n2; n3] => (32 * (n0 + n1 + n2 + n3))%float
  | _ => nan
  end.

(** ** Curl noise *)

Section Curl.

Context {num : Type} `{Number num}.

Definition vec3 : Type := (num * num * num)%type.

Definition vx (v : vec3) : num := fst (fst v).
Definition vy (v : vec3) : num := snd (fst v).
Definition vz (v : vec3) : num := snd v.

(** The curl by central differences, before normalisation and scaling. *)
Definition rawCurl (p : vec3) (noiseVec3 : vec3 -> vec3) (eps : num) : vec3 :=
  let '(x, y, z) := p in
  let F_yPlus := noiseVec3 (x, y + eps, z)%num in
  let F_yMinus := noiseVec3 (x, y - eps, z)%num in
  let F_zPlus := noiseVec3 (x, y, z + eps)%num in
  let F_zMinus := noiseVec3 (x, y, z - eps)%num in
  let F_xPlus := noiseVec3 (x + eps, y, z)%num in
  let F_xMinus := noiseVec3 (x - eps, y, z)%num in
  let inv2e := (nofZ 1 / (nofZ 2 * eps))%num in
  let dFz_dy := ((vz F_yPlus - vz F_yMinus) * inv2e)%num in
  let dFy_dz := ((vy F_zPlus - vy F_zMinus) * inv2e)%num in
  let dFx_dz := ((vx F_zPlus - vx F_zMinus) * inv2e)%num in
  let dFz_dx := ((vz F_xPlus - vz F_xMinus) * inv2e)%num in
  let dFy_dx := ((vy F_xPlus - vy F_xMinus) * inv2e)%num in
  let dFx_dy := ((vx F_yPlus - vx F_yMinus) * inv2e)%num in
  (dFz_dy - dFy_dz, dFx_dz - dFz_dx, dFy_dx - dFx_dy)%num.

(** [curlNoise3(p, noiseVec3, eps, outScale, normalize)].  A call that
    leaves arguments out takes [eps = 0.0005], [outScale = 1.0] and
    [normalize = false]. *)
Definition curlNoise3 (p : vec3) (noiseVec3 : vec3 -> vec3)
  (eps outScale : num) (normalize : bool) : vec3 :=
  let '(cx, cy, cz) := rawCurl p noiseVec3 eps in
  let '(cx, cy, cz) :=
    if normalize then
      let h := nhypot cx cy cz in
      let len := if ntruthy h then h else nofZ 1 in
      (cx / len, cy / len, cz / len)%num
    else (cx, cy, cz) in
  (cx * outScale, cy * outScale, cz * outScale)%num.

(** [curlNoise3D(noise3D, eps, outScale, normalize)]: the curl of the
    field made of three shifted copies of a scalar noise. *)
Definition noiseVec3_of (noise : num -> num -> num -> num) (p : vec3) : vec3 :=
  let '(x, y, z) := p in
  (noise x y z,
   noise (x + nofZ 17) (y + nofZ 23) (z + nofZ 31),
   noise (x + nofZ 53) (y + nofZ 79) (z + nofZ 97))%num.

Definition curlNoise3D (noise : num -> num -> num -> num)
  (eps outScale : num) (normalize : bool) (p : vec3) : vec3 :=
  curlNoise3 p (noiseVec3_of noise) eps outScale normalize.


(** The Euclidean norm, for the exact reading of a result. *)
Definition norm (v : vec3) : num :=
  nhypot (vx v) (vy v) (vz v).

End Curl.

(** ** The number helpers of the drawing module

    [ascanvas2d.func.js] holds, beside the functions that draw on a
    canvas, three functions on numbers and the functions that build a
    CSS colour. *)

(** [Math.round]: the integer nearest to [x], the upper one of the two
    at a tie.  An infinite number, NaN, a zero or a number that has no
    fraction bits is returned as it is; a result that is zero keeps the
    sign of [x].  For a number [M * 2^e] with [e < 0] the integer is
    [floor ((2 * M + 2^-e) / 2^(1-e))]. *)
Definition Math_round (x : float) : float :=
  match Prim2SF x with
  | S754_finite s m e =>
      if 0 <=? e then x
      else
        let n := Z.shiftr (2 * cond_Zopp s (Zpos m) + 2 ^ (- e)) (1 - e) in
        if n =? 0 then (if s then neg_zero else zero) else JS.ofZ n
  | _ => x
  end.

Definition snapValue (v s : float) : float :=
  (Math_round (v / s) * s)%float.

Definition mapValue (v f1 f2 t1 t2 : float) : float :=
  (t1 + ((t2 - t1) * (v - f1)) / (f2 - f1))%float.

Definition distance (x1 y1 x2 y2 : float) : float :=
  let dx := (x2 - x1)%float in
  let dy := (y2 - y1)%float in
  PrimFloat.sqrt (dx * dx + dy * dy)%float.

(** ** Colours

    The arguments of [color] are any values: here [undefined], [null],
    numbers and strings. *)
Inductive jsvalue :=
| JSUndefined
| JSNull
| JSNumber (x : float)
| JSString (s : string).

(** [v ?? d] *)
Definition nullish (v d : jsvalue) : jsvalue :=
  match v with
  | JSUndefined | JSNull => d
  | _ => v
  end.

(** The value of a parameter declared with the default [d]. *)
Definition defaulted (v d : jsvalue) : jsvalue :=
  match v with
  | JSUndefined => d
  | _ => v
  end.

(** [v === s] for a string literal [s]. *)
Definition is_string (v : jsvalue) (s : string) : bool :=
  match v with
  | JSString t => String.eqb t s
  | _ => false
  end.

Section Color.

(** The decimal form that [Number::toString] gives a number is left to
    the platform. *)
Variable numberToString : float -> string.

Definition toString (v : jsvalue) : string :=
  match v with
  | JSUndefined => "undefined"
  | JSNull => "null"
  | JSNumber x => numberToString x
  | JSString s => s
  end.

(** [s + v] and [v + s] for a string [s]: the concatenation with the
    string form of [v]. *)
Definition plus (s : string) (v : jsvalue) : string :=
  (s ++ toString v)%string.

Definition plus_string (v : jsvalue) (s : string) : string :=
  (toString v ++ s)%string.

Definition colorRGB (r g b a : jsvalue) : string :=
  let r := defaulted r (JSNumber 255) in
  let g := defaulted g (JSNumber 255) in
  let b := defaulted b (JSNumber 255) in
  let a := defaulted a (JSNumber 1) in
  (plus (plus (plus (plus "rgba(" r ++ ",") g ++ ",") b ++ ",") a
   ++ ")")%string.

Definition colorBW (c a : jsvalue) : string :=
  let c := defaulted c (JSNumber 255) in
  let a := defaulted a (JSNumber 1) in
  (plus (plus (plus (plus "rgba(" c ++ ",") c ++ ",") c ++ ",") a
   ++ ")")%string.

Definition colorHSB (h s l a : jsvalue) : string :=
  let h := defaulted h (JSNumber 0) in
  let s := defaulted s (JSNumber 100) in
  let l := defaulted l (JSNumber 50) in
  let a := defaulted a (JSNumber 1) in
  let _s := JSString (plus_string s "%") in
  let _l := JSString (plus_string l "%") in
  (plus (plus (plus (plus "hsla(" h ++ ",") _s ++ ",") _l ++ ",") a
   ++ ")")%string.

(** [color(...c)]: [c] is the list of the arguments; an argument that
    was not passed reads as [undefined].  The function ends without a
    [return] when no mode matches. *)
Definition color (c : list jsvalue) : jsvalue :=
  let arg i := nth i c JSUndefined in
  if is_string (arg 0%nat) "RGB" then
    let r := nullish (arg 1%nat) (JSNumber 255) in
    let g := nullish (arg 2%nat) (JSNumber 255) in
    let b := nullish (arg 3%nat) (JSNumber 255) in
    let a := nullish (arg 4%nat) (JSNumber 1) in
    JSString (colorRGB r g b a)
  else if is_string (arg 0%nat) "BW" then
    let t := nullish (arg 1%nat) (JSNumber 255) in
    let a := nullish (arg 2%nat) (JSNumber 1) in
    JSString (colorBW t a)
  else if is_string (arg 0%nat) "HSLA" then
    let h := nullish (arg 1%nat) (JSNumber 0) in
    let s := nullish (arg 2%nat) (JSNumber 100) in
    let l := nullish (arg 3%nat) (JSNumber 50) in
    let a := nullish (arg 4%nat) (JSNumber 1) in
    JSString (colorHSB h s l a)
  else JSUndefined.

End Color.

(** ** The animation loop

    [ascanvas2d(setup, draw)] of [ascanvas2d.js] keeps two variables,
    [lastTime] and [frameCount], and calls its frame function [_] once
    at once, without argument, and then from every
    [requestAnimationFrame] callback, with the time stamp of the frame.
    The model follows the numbers: the arguments [time], [deltaRatio] and
    [frameCount] that each call hands to [draw] (the canvas and the mouse
    object are the same objects at every call), for a [draw] that
    returns. *)
Record draw_args := DrawArgs {
  arg_time : JS.value;
  arg_deltaRatio : float;
  arg_frameCount : float
}.

Record loop_state := LoopState {
  lastTime : JS.value;
  frameCount : float
}.

(** One call [_(time)]: what [draw] receives, and the variables after
    the call. *)
Definition frame (time : JS.value) (st : loop_state)
  : draw_args * loop_state :=
  let deltaTime := (JS.toNumber time - JS.toNumber (lastTime st))%float in
  let constantTime := (1000 / 60)%float in
  let deltaRatio := (constantTime / deltaTime)%float in
  (DrawArgs time deltaRatio (frameCount st),
   LoopState time (frameCount st + 1)%float).

Fixpoint frames (times : list JS.value) (st : loop_state) : list draw_args :=
  match times with
  | [] => []
  | time :: rest => let '(a, st') := frame time st in a :: frames rest st'
  end.

(** The calls of [draw] in a run where [Date.now()] returned [now] and
    the frames came with the time stamps [stamps]. *)
Definition ascanvas2d (now : float) (stamps : list float) : list draw_args :=
  frames (JS.Undefined :: List.map JS.Num stamps) (LoopState (JS.Num now) 0).

(** ** Predicates used by the proofs *)

(** The binary64 form of a small integer: a full 53-bit mantissa and a
    non-positive exponent. *)
Definition small_int_ok (m : Z) : bool :=
  match Prim2SF (JS.ofZ m) with
  | S754_finite false my ey =>
      (2 ^ 52 <=? Zpos my) && (-52 <=? ey) && (ey <=? 0)
      && (Zpos my =? m * 2 ^ (- ey))
  | _ => false
  end.

(** What a [Uint8Array] of 512 entries is, whatever was written to it. *)
Definition byte_table (p : list Z) : Prop :=
  List.length p = 512%nat /\ Forall (fun v => 0 <= v < 256) p.

Definition in_table (i : Z) : Prop := 0 <= i <= 511.

(** [returns Q m]: every read of [m] is at an index of [0..511], and [m]
    ends with a value that satisfies [Q]. *)
Definition returns {A : Type} (Q : A -> Prop) (m : traced A) : Prop :=
  Forall in_table (fst m) /\ exists a, snd m = Some a /\ Q a.

(** The corner block of [noise3D], for the corner at the lattice indices
    [(I, J, K)] and the offsets [(dx, dy, dz)]. *)
Definition corner_block (T : tables) (I J K : Z) (dx dy dz : float)
  : traced float :=
  let t := (0.6 - dx * dx - dy * dy - dz * dz)%float in
  if (t <? 0)%float then ret 0%float
  else
    pk <- read (perm T) K ;;
    pj <- read (perm T) (J + pk) ;;
    let gi := I + pj in
    let t := (t * t)%float in
    gx <- read (permGrad3x T) gi ;;
    gy <- read (permGrad3y T) gi ;;
    gz <- read (permGrad3z T) gi ;;
    ret (t * t * (gx * dx + gy * dy + gz * dz))%float.

(** ** Inputs of examples *)

(** A draw function outside the contract of [random]: 0 at its first
    call, then always [-2^-10]. *)
Definition falling_draws (n : nat) : float * nat :=
  ((if (n =? 0)%nat then 0 else -0.0009765625)%float, S n).


(** The kinds of a binary64 number, read off its sign, mantissa and
    exponent: finite (a zero included), a zero, the negative zero, and a
    number that is NaN or has the sign of a positive number. *)
Definition finite_form (X : spec_float) : bool :=
  match X with
  | S754_zero _ | S754_finite _ _ _ => true
  | _ => false
  end.

Definition zero_form (X : spec_float) : bool :=
  match X with
  | S754_zero _ => true
  | _ => false
  end.

Definition positive_form (X : spec_float) : bool :=
  match X with
  | S754_zero s | S754_infinity s | S754_finite s _ _ => negb s
  | S754_nan => true
  end.

(** [Object.is(x, -0)] *)
Definition is_negative_zero (x : float) : bool :=
  match Prim2SF x with
  | S754_zero true => true
  | _ => false
  end.

(** The binary64 form of a positive integer below [2^53]: its bits,
    moved to the top of the mantissa. *)
Definition integer_form (z : Z) : spec_float :=
  let d := Zdigits2 z in
  S754_finite false (Z.to_pos (z * 2 ^ (53 - d))) (d - 53).

(** The vectors that a flat array of coordinates holds. *)
Fixpoint triples (l : list float) : list (float * float * float) :=
  match l with
  | a :: b :: c :: rest => (a, b, c) :: triples rest
  | _ => []
  end.

(** * Part II: lemmas and theorems *)

(** ** Facts about binary64 rounding

  The primitive operations are specified by [SpecFloat]: a finite
  number is a sign, a mantissa [m] and an exponent [e] with value
  [m * 2^e], and every operation ends in [binary_round_aux], which
  shifts the exact result to the target exponent and rounds to nearest
  even.  The lemmas below bound what that rounding can do. *)

Module Binary64.

Lemma digits_bounds (p : positive) :
  2 ^ (Zpos (digits2_pos p) - 1) <= Zpos p < 2 ^ Zpos (digits2_pos p).
Proof.
  induction p as [p IH | p IH |]; cbn [digits2_pos].
  - rewrite Pos2Z.inj_succ.
    replace (Z.succ (Zpos (digits2_pos p)) - 1) with (Z.succ (Zpos (digits2_pos p) - 1)) by lia.
    rewrite !Z.pow_succ_r by lia. lia.
  - rewrite Pos2Z.inj_succ.
    replace (Z.succ (Zpos (digits2_pos p)) - 1) with (Z.succ (Zpos (digits2_pos p) - 1)) by lia.
    rewrite !Z.pow_succ_r by lia. lia.
  - cbn. lia.
Qed.

Lemma digits_unique (p : positive) (k : Z) :
  2 ^ (k - 1) <= Zpos p < 2 ^ k -> Zpos (digits2_pos p) = k.
Proof.
  intros [Hlo Hhi]. pose proof (digits_bounds p) as [Dlo Dhi].
  set (d := Zpos (digits2_pos p)) in *.
  assert (0 < d) by (subst d; lia).
  assert (0 < k).
  { destruct (Z.lt_ge_cases 0 k) as [|Hk]; [assumption|].
    rewrite (Z.pow_neg_r 2 (k - 1)) in Hlo by lia.
    assert (2 ^ k <= 2 ^ 0) by (apply Z.pow_le_mono_r; lia).
    change (2 ^ 0) with 1 in *. lia. }
  destruct (Z.lt_trichotomy d k) as [Hlt | [Heq | Hgt]]; [| assumption |].
  - assert (2 ^ d <= 2 ^ (k - 1)) by (apply Z.pow_le_mono_r; lia). lia.
  - assert (2 ^ k <= 2 ^ (d - 1)) by (apply Z.pow_le_mono_r; lia). lia.
Qed.

Lemma digits_le (p : positive) (k : Z) :
  0 <= k -> Zpos p < 2 ^ k -> Zpos (digits2_pos p) <= k.
Proof.
  intros Hk Hp. pose proof (digits_bounds p) as [Dlo _].
  destruct (Z.le_gt_cases (Zpos (digits2_pos p)) k) as [| Hgt]; [assumption |].
  assert (2 ^ k <= 2 ^ (Zpos (digits2_pos p) - 1))
    by (apply Z.pow_le_mono_r; lia).
  lia.
Qed.

Lemma digits_shift (p : positive) (k : positive) :
  Zpos (digits2_pos (Pos.iter xO p k)) = Zpos (digits2_pos p) + Zpos k
  /\ Zpos (Pos.iter xO p k) = Zpos p * 2 ^ Zpos k.
Proof.
  assert (Hv : Zpos (Pos.iter xO p k) = Zpos p * 2 ^ Zpos k).
  { revert p. induction k using Pos.peano_ind; intros p.
    - cbn [Pos.iter]. change (2 ^ 1) with 2. lia.
    - rewrite Pos.iter_succ, Pos2Z.inj_succ, Z.pow_succ_r by lia.
      rewrite Pos2Z.inj_xO, IHk. lia. }
  split; [| exact Hv].
  apply digits_unique. rewrite Hv.
  pose proof (digits_bounds p) as [Dlo Dhi].
  replace (Zpos (digits2_pos p) + Zpos k - 1)
    with ((Zpos (digits2_pos p) - 1) + Zpos k) by lia.
  rewrite !Z.pow_add_r by lia.
  assert (0 < 2 ^ Zpos k) by (apply Z.pow_pos_nonneg; lia).
  nia.
Qed.

(** *** Right shifts *)

Lemma iter_pos_nat {A} (f : A -> A) (p : positive) (x : A) :
  SpecFloat.iter_pos f p x = Nat.iter (Pos.to_nat p) f x.
Proof.
  revert x. induction p as [p IH | p IH |]; intros x; cbn [SpecFloat.iter_pos].
  - rewrite !IH, Pos2Nat.inj_xI.
    replace (S (2 * Pos.to_nat p))%nat with (Pos.to_nat p + S (Pos.to_nat p))%nat by lia.
    rewrite Nat.iter_add, Nat.iter_succ_r. reflexivity.
  - rewrite !IH, Pos2Nat.inj_xO.
    replace (2 * Pos.to_nat p)%nat with (Pos.to_nat p + Pos.to_nat p)%nat by lia.
    rewrite Nat.iter_add. reflexivity.
  - reflexivity.
Qed.

Lemma shr_1_spec (r : shr_record) :
  0 <= shr_m r ->
  shr_m (shr_1 r) = shr_m r / 2 /\ shr_r (shr_1 r) = Z.odd (shr_m r).
Proof.
  destruct r as [m b s]. cbn [shr_m]. intros Hm.
  destruct m as [| [q | q |] |]; cbn [shr_1 shr_m shr_r]; try lia.
  - split; [reflexivity | reflexivity].
  - split; [| reflexivity]. rewrite Pos2Z.inj_xI.
    apply Z.div_unique with (r := 1); lia.
  - split; [| reflexivity]. rewrite Pos2Z.inj_xO.
    apply Z.div_unique with (r := 0); lia.
  - split; reflexivity.
Qed.

Lemma shr_iter_spec (M : Z) (b s : bool) (k : nat) :
  0 <= M ->
  shr_m (Nat.iter (S k) shr_1 (Build_shr_record M b s)) = M / 2 ^ Z.of_nat (S k)
  /\ shr_r (Nat.iter (S k) shr_1 (Build_shr_record M b s))
     = Z.odd (M / 2 ^ Z.of_nat k).
Proof.
  intros HM. induction k as [| k [IHm IHr]].
  - change (Nat.iter 1 shr_1 (Build_shr_record M b s))
      with (shr_1 (Build_shr_record M b s)).
    destruct (shr_1_spec (Build_shr_record M b s) HM) as [E1 E2].
    cbn [shr_m] in E1, E2. rewrite E1, E2.
    change (2 ^ Z.of_nat 1) with 2. change (2 ^ Z.of_nat 0) with 1.
    rewrite Z.div_1_r. split; reflexivity.
  - remember (Nat.iter (S k) shr_1 (Build_shr_record M b s)) as r0 eqn:Er0.
    rewrite Nat.iter_succ, <- Er0.
    assert (Hr0 : 0 <= shr_m r0).
    { rewrite IHm. apply Z.div_pos; [lia | apply Z.pow_pos_nonneg; lia]. }
    destruct (shr_1_spec r0 Hr0) as [E1 E2]. rewrite E1, E2, IHm.
    split; [| reflexivity].
    rewrite (Nat2Z.inj_succ (S k)), Z.pow_succ_r by lia.
    rewrite Z.div_div by (try apply Z.pow_pos_nonneg; lia).
    f_equal. lia.
Qed.

Abbreviation fexp := (SpecFloat.fexp prec emax).

(** [shr_fexp] on an exact non-negative mantissa: nothing happens when
    the mantissa already fits, otherwise it is divided by [2^n] and the
    record keeps the last bit shifted out. *)
Lemma shr_fexp_exact (m e : Z) :
  0 <= m ->
  let n := fexp (Zdigits2 m + e) - e in
  let r := fst (shr_fexp prec emax m e loc_Exact) in
  let e' := snd (shr_fexp prec emax m e loc_Exact) in
  (n <= 0 -> r = Build_shr_record m false false /\ e' = e)
  /\ (0 < n -> e' = e + n /\ shr_m r = m / 2 ^ n
               /\ shr_r r = Z.odd (m / 2 ^ (n - 1))).
Proof.
  intros Hm n r e'. subst r e'. unfold shr_fexp. fold n.
  cbn [shr_record_of_loc]. unfold shr.
  destruct n as [| p | p] eqn:En; cbn [fst snd].
  - split; [intros _; split; reflexivity | lia].
  - split; [lia | intros _].
    rewrite iter_pos_nat.
    destruct (Pos2Nat.is_succ p) as [k Hk]. rewrite Hk.
    destruct (shr_iter_spec m false false k Hm) as [E1 E2].
    rewrite E1, E2.
    assert (Z.of_nat (S k) = Zpos p) by lia.
    assert (Z.of_nat k = Zpos p - 1) by lia.
    repeat split; congruence.
  - split; [intros _; split; reflexivity | lia].
Qed.

(** Rounding to nearest even after a shift by [n] adds at most half a
    unit of the last place kept. *)
Lemma round_shift_upper (M n : Z) (r : shr_record) :
  0 <= M -> 0 < n ->
  shr_m r = M / 2 ^ n -> shr_r r = Z.odd (M / 2 ^ (n - 1)) ->
  let mr := round_nearest_even (shr_m r) (loc_of_shr_record r) in
  M / 2 ^ n <= mr /\ 2 * (mr * 2 ^ n) <= 2 * M + 2 ^ n.
Proof.
  intros HM Hn Em Er mr.
  assert (P1 : 0 < 2 ^ (n - 1)) by (apply Z.pow_pos_nonneg; lia).
  assert (P2 : 2 ^ n = 2 * 2 ^ (n - 1)).
  { replace n with (Z.succ (n - 1)) at 1 by lia. apply Z.pow_succ_r. lia. }
  set (h := M / 2 ^ (n - 1)) in *.
  assert (Hh : 2 ^ (n - 1) * h <= M) by (apply Z.mul_div_le; lia).
  assert (Hq : M / 2 ^ n = h / 2).
  { rewrite P2, Z.mul_comm, <- Z.div_div by lia. reflexivity. }
  assert (Hq2 : 2 ^ n * (M / 2 ^ n) <= M) by (apply Z.mul_div_le; lia).
  pose proof (Zdiv2_odd_eqn h) as Hodd. rewrite Z.div2_div in Hodd.
  assert (Hup : mr = M / 2 ^ n
                \/ (mr = M / 2 ^ n + 1 /\ Z.odd h = true)).
  { subst mr. destruct r as [m b s]. cbn [shr_m shr_r] in *.
    rewrite Em, Er.
    destruct (Z.odd h), s; cbn [loc_of_shr_record round_nearest_even];
      try (left; reflexivity); try (right; split; reflexivity).
    destruct (Z.even (M / 2 ^ n));
      [left; reflexivity | right; split; reflexivity]. }
  destruct Hup as [-> | [-> Ho]].
  - split; [lia | nia].
  - rewrite Ho in Hodd. split; [lia |]. rewrite Hq. nia.
Qed.

(** The result of rounding an exact product or sum: the sign is kept,
    the exponent does not decrease, and the value grows by at most half
    of the last place that the first shift kept. *)
Lemma binary_round_aux_upper (s : bool) (M : positive) (E : Z)
      (s' : bool) (mf : positive) (ef : Z) :
  binary_round_aux prec emax s (Zpos M) E loc_Exact = S754_finite s' mf ef ->
  let n := fexp (Zpos (digits2_pos M) + E) - E in
  s' = s /\ E <= ef
  /\ ((n <= 0 /\ Zpos mf * 2 ^ (ef - E) = Zpos M)
      \/ (0 < n /\ 2 * (Zpos mf * 2 ^ (ef - E)) <= 2 * Zpos M + 2 ^ n)).
Proof.
  intros H n. unfold binary_round_aux in H.
  assert (HM : 0 <= Zpos M) by lia.
  pose proof (shr_fexp_exact (Zpos M) E HM) as S1.
  cbn zeta in S1. cbn [Zdigits2] in S1. fold n in S1.
  destruct (shr_fexp prec emax (Zpos M) E loc_Exact) as [r1 e1].
  cbn [fst snd] in S1. destruct S1 as [S1a S1b].
  destruct (Z.le_gt_cases n 0) as [Hn | Hn].
  - (* the mantissa fits: both passes leave it alone *)
    destruct (S1a Hn) as [-> ->].
    cbn [shr_m loc_of_shr_record round_nearest_even] in H.
    pose proof (shr_fexp_exact (Zpos M) E HM) as S2.
    cbn zeta in S2. cbn [Zdigits2] in S2. fold n in S2.
    destruct (shr_fexp prec emax (Zpos M) E loc_Exact) as [r2 e2].
    cbn [fst snd] in S2. destruct S2 as [S2a _].
    destruct (S2a Hn) as [-> ->]. cbn [shr_m] in H.
    destruct (E <=? emax - prec); [| discriminate].
    injection H as <- <- <-.
    rewrite Z.sub_diag. change (2 ^ 0) with 1.
    split; [reflexivity | split; [lia | left; lia]].
  - destruct (S1b Hn) as [-> [Em Er]].
    destruct (round_shift_upper (Zpos M) n r1 HM Hn Em Er) as [R1 R2].
    set (mr := round_nearest_even (shr_m r1) (loc_of_shr_record r1)) in *.
    assert (Hmr : 0 <= mr).
    { assert (0 <= Zpos M / 2 ^ n)
        by (apply Z.div_pos; [lia | apply Z.pow_pos_nonneg; lia]). lia. }
    pose proof (shr_fexp_exact mr (E + n) Hmr) as S2. cbn zeta in S2.
    set (n2 := fexp (Zdigits2 mr + (E + n)) - (E + n)) in *.
    destruct (shr_fexp prec emax mr (E + n) loc_Exact) as [r2 e2].
    cbn [fst snd] in S2. destruct S2 as [S2a S2b].
    assert (Pn : 0 < 2 ^ n) by (apply Z.pow_pos_nonneg; lia).
    destruct (Z.le_gt_cases n2 0) as [Hn2 | Hn2].
    + destruct (S2a Hn2) as [-> ->]. cbn [shr_m] in H.
      destruct mr as [| q | q]; try discriminate.
      destruct (E + n <=? emax - prec); [| discriminate].
      injection H as <- <- <-.
      replace (E + n - E) with n by lia.
      split; [reflexivity | split; [lia | right; split; [lia | exact R2]]].
    + destruct (S2b Hn2) as [-> [Em2 _]].
      destruct (shr_m r2) as [| q | q] eqn:Eq2; try discriminate.
      destruct (E + n + n2 <=? emax - prec); [| discriminate].
      injection H as <- <- <-.
      replace (E + n + n2 - E) with (n + n2) by lia.
      rewrite Z.pow_add_r by lia.
      assert (Pn2 : 0 < 2 ^ n2) by (apply Z.pow_pos_nonneg; lia).
      assert (Hq : 2 ^ n2 * (mr / 2 ^ n2) <= mr) by (apply Z.mul_div_le; lia).
      rewrite <- Em2 in Hq.
      split; [reflexivity | split; [lia | right; split; [lia | nia]]].
Qed.

(** *** Valid numbers, and the comparison with 1 *)

Lemma valid_finite (x : float) (s : bool) (m : positive) (e : Z) :
  Prim2SF x = S754_finite s m e ->
  Zpos m < 2 ^ 53 /\ -1074 <= e <= 971
  /\ (-1074 < e -> 2 ^ 52 <= Zpos m).
Proof.
  intros Hx. pose proof (Prim2SF_valid x) as Hv. rewrite Hx in Hv.
  cbn [SpecFloat.valid_binary] in Hv. unfold bounded, canonical_mantissa in Hv.
  apply andb_prop in Hv. destruct Hv as [Hc He].
  apply Z.eqb_eq in Hc. apply Z.leb_le in He.
  unfold SpecFloat.fexp, SpecFloat.emin, prec, emax in *.
  pose proof (digits_bounds m) as [Dlo Dhi].
  set (d := Zpos (digits2_pos m)) in *.
  assert (Hd : d <= 53) by lia.
  assert (2 ^ d <= 2 ^ 53) by (apply Z.pow_le_mono_r; lia).
  repeat split; try lia.
  intros Hgt. assert (Hd53 : d = 53) by lia.
  assert (H52 : 2 ^ (d - 1) = 2 ^ 52) by (rewrite Hd53; reflexivity).
  rewrite <- H52. exact Dlo.
Qed.

Lemma one_spec : Prim2SF 1 = S754_finite false 4503599627370496 (-52).
Proof. reflexivity. Qed.

Lemma zero_spec : Prim2SF 0 = S754_zero false.
Proof. reflexivity. Qed.

Lemma lt_one_finite (x : float) (m : positive) (e : Z) :
  Prim2SF x = S754_finite false m e ->
  (x <? 1)%float = true ->
  e < 0 /\ Zpos m < 2 ^ (- e).
Proof.
  intros Hx Hlt. rewrite ltb_spec, Hx, one_spec in Hlt.
  unfold SFltb, SFcompare in Hlt.
  destruct (valid_finite x false m e Hx) as [Hm [He _]].
  destruct (Z.compare_spec e (-52)) as [-> | Hc | Hc]; try discriminate.
  - split; [lia |]. change (- -52) with 52.
    rewrite Pos.compare_cont_spec in Hlt. cbn [Pos.switch_Eq] in Hlt.
    destruct (Pos.compare_spec m 4503599627370496) as [? | Hlt' | ?];
      try discriminate.
    assert (E52 : 2 ^ 52 = Zpos 4503599627370496) by reflexivity.
    rewrite E52. apply Pos2Z.pos_lt_pos. exact Hlt'.
  - split; [lia |].
    assert (2 ^ 53 <= 2 ^ (- e)) by (apply Z.pow_le_mono_r; lia). lia.
Qed.

Lemma nonneg_cases (x : float) :
  (0 <=? x)%float = true -> (x <? 1)%float = true ->
  (exists s, Prim2SF x = S754_zero s)
  \/ (exists m e, Prim2SF x = S754_finite false m e).
Proof.
  intros Hle Hlt. rewrite leb_spec, zero_spec in Hle.
  rewrite ltb_spec, one_spec in Hlt.
  unfold SFleb, SFltb, SFcompare in Hle, Hlt.
  destruct (Prim2SF x) as [s | s | | s m e].
  - left. exists s. reflexivity.
  - destruct s; discriminate.
  - discriminate.
  - destruct s; [discriminate |]. right. exists m, e. reflexivity.
Qed.

(** *** Small integers as numbers *)

Lemma small_int_table :
  forallb small_int_ok (List.map Z.of_nat (seq 1 256)) = true.
Proof. vm_compute. reflexivity. Qed.

Lemma small_int_spec (m : Z) :
  1 <= m <= 256 ->
  exists my ey, Prim2SF (JS.ofZ m) = S754_finite false my ey
                /\ 2 ^ 52 <= Zpos my /\ -52 <= ey <= 0
                /\ Zpos my = m * 2 ^ (- ey).
Proof.
  intros Hm. pose proof small_int_table as Ht.
  rewrite forallb_forall in Ht.
  assert (Hin : In m (List.map Z.of_nat (seq 1 256))).
  { replace m with (Z.of_nat (Z.to_nat m)) by lia.
    apply in_map, in_seq. lia. }
  specialize (Ht m Hin). unfold small_int_ok in Ht.
  destruct (Prim2SF (JS.ofZ m)) as [| | | [|] my ey]; try discriminate.
  apply andb_prop in Ht. destruct Ht as [Ht H4].
  apply andb_prop in Ht. destruct Ht as [Ht H3].
  apply andb_prop in Ht. destruct Ht as [H1 H2].
  apply Z.leb_le in H1, H2, H3. apply Z.eqb_eq in H4.
  exists my, ey. repeat split; assumption.
Qed.

(** A number in [0,1) times an integer [m] of [1..256], truncated,
    is an integer of [0..m-1]: the product is rounded, but never up to
    [m]. *)
Lemma scaled_fraction_bound (x : float) (m : Z) :
  1 <= m <= 256 ->
  (0 <=? x)%float = true -> (x <? 1)%float = true ->
  0 <= JS.truncate (x * JS.ofZ m) < m.
Proof.
  intros Hm Hle Hlt.
  destruct (small_int_spec m Hm) as (my & ey & Hy & Hy52 & Hey & Hmy).
  destruct (valid_finite _ _ _ _ Hy) as [Hy53 _].
  unfold JS.truncate. rewrite mul_spec, Hy. unfold SF64mul.
  destruct (nonneg_cases x Hle Hlt) as [[s Hx] | (mx & ex & Hx)]; rewrite Hx.
  - cbn [SFmul]. lia.
  - destruct (lt_one_finite x mx ex Hx Hlt) as [Hex Hmx].
    destruct (valid_finite x false mx ex Hx) as [Hmx53 [Hexr _]].
    cbn [SFmul xorb].
    destruct (binary_round_aux prec emax false (Zpos (mx * my)) (ex + ey) loc_Exact)
      as [ | | | s' mf ef] eqn:HR; try lia.
    apply binary_round_aux_upper in HR. cbn zeta in HR.
    destruct HR as [-> [HE HV]]. cbn [cond_Zopp].
    rewrite Pos2Z.inj_mul in HV.
    pose proof (digits_bounds (mx * my)) as [Dlo Dhi].
    rewrite Pos2Z.inj_mul in Dlo, Dhi.
    set (dM := Zpos (digits2_pos (mx * my))) in *.
    set (E := ex + ey) in *.
    set (V := Zpos mf * 2 ^ (ef - E)) in *.
    set (P := 2 ^ (- ex)) in *.
    assert (HVT : V < Zpos my * P).
    { destruct HV as [[_ HV] | [Hn HV]]; [nia |].
      set (n := fexp (dM + E) - E) in *.
      assert (E52 : 2 ^ 52 = 4503599627370496) by reflexivity.
      assert (E53 : 2 ^ 53 = 9007199254740992) by reflexivity.
      assert (Hgap : Zpos my <= Zpos my * P - Zpos mx * Zpos my) by nia.
      assert (HM106 : Zpos mx * Zpos my < 2 ^ 106).
      { change (2 ^ 106) with (2 ^ 53 * 2 ^ 53). nia. }
      assert (HdM : dM <= 106).
      { destruct (Z.le_gt_cases dM 106) as [|Hgt]; [assumption |].
        assert (2 ^ 106 <= 2 ^ (dM - 1)) by (apply Z.pow_le_mono_r; lia).
        lia. }
      assert (Hn53 : n <= 53).
      { subst n. unfold SpecFloat.fexp, SpecFloat.emin, prec, emax. subst E. lia. }
      destruct (Z.le_gt_cases n 52) as [Hn52 | Hn52].
      - assert (2 ^ n <= 2 ^ 52) by (apply Z.pow_le_mono_r; lia). lia.
      - assert (Hn' : n = 53) by lia.
        assert (HdM' : dM = 106).
        { subst n. unfold SpecFloat.fexp, SpecFloat.emin, prec, emax in Hn'.
          subst E. lia. }
        rewrite Hn' in HV. rewrite HdM' in Dlo. change (2 ^ (106 - 1)) with (2 ^ 53 * 2 ^ 52) in Dlo.
        assert (2 ^ 52 < Zpos my) by nia. lia. }
    assert (HT : Zpos my * P = m * 2 ^ (- E)).
    { subst P E. rewrite Hmy. replace (- (ex + ey)) with (- ey + - ex) by lia.
      rewrite Z.pow_add_r by lia. ring. }
    rewrite HT in HVT. subst V.
    assert (PE : 0 < 2 ^ (- E)) by (apply Z.pow_pos_nonneg; subst E; lia).
    destruct (Z.le_gt_cases 0 ef) as [Hef | Hef].
    + rewrite Z.shiftl_mul_pow2 by assumption.
      assert (Pef : 0 < 2 ^ ef) by (apply Z.pow_pos_nonneg; lia).
      replace (ef - E) with (ef + - E) in HVT by lia.
      rewrite Z.pow_add_r in HVT by (subst E; lia).
      split; [lia | nia].
    + rewrite Z.shiftl_div_pow2 by lia.
      assert (Pef : 0 < 2 ^ (- ef)) by (apply Z.pow_pos_nonneg; lia).
      assert (PD : 0 < 2 ^ (ef - E)) by (apply Z.pow_pos_nonneg; lia).
      replace (- E) with ((ef - E) + - ef) in HVT by lia.
      rewrite Z.pow_add_r in HVT by lia.
      split; [apply Z.div_pos; lia |].
      apply Z.div_lt_upper_bound; [lia | nia].
Qed.


(** On such a product [Math.floor] and the truncation of [~~] agree
    (the product is not negative); on an infinite product [Math.floor]
    has no integer value and the truncation is 0. *)
Lemma scaled_fraction_floor (x : float) (m : Z) :
  1 <= m <= 256 ->
  (0 <=? x)%float = true -> (x <? 1)%float = true ->
  JS.floor (x * JS.ofZ m) = Some (JS.truncate (x * JS.ofZ m))
  \/ (JS.floor (x * JS.ofZ m) = None /\ JS.truncate (x * JS.ofZ m) = 0).
Proof.
  intros Hm Hle Hlt.
  destruct (small_int_spec m Hm) as (my & ey & Hy & _).
  unfold JS.floor, JS.truncate. rewrite mul_spec, Hy. unfold SF64mul.
  destruct (nonneg_cases x Hle Hlt) as [[s Hx] | (mx & ex & Hx)]; rewrite Hx.
  - cbn [SFmul]. left. reflexivity.
  - cbn [SFmul xorb].
    destruct (binary_round_aux prec emax false (Zpos (mx * my)) (ex + ey) loc_Exact)
      as [ | | | s' mf ef] eqn:HR.
    + left. reflexivity.
    + right. split; reflexivity.
    + right. split; reflexivity.
    + apply binary_round_aux_upper in HR. destruct HR as [-> _].
      left. reflexivity.
Qed.

(** *** The fraction [u / 2^32] *)

Lemma binary_round_aux_canonical (s : bool) (m : positive) (e : Z) :
  fexp (Zpos (digits2_pos m) + e) = e -> e <= 971 ->
  binary_round_aux prec emax s (Zpos m) e loc_Exact = S754_finite s m e.
Proof.
  intros Hc He. unfold binary_round_aux, shr_fexp. cbn [Zdigits2].
  rewrite Hc, Z.sub_diag. cbn [shr shr_record_of_loc shr_m loc_of_shr_record
    round_nearest_even Zdigits2].
  rewrite Hc, Z.sub_diag. cbn [shr shr_record_of_loc shr_m].
  replace (e <=? emax - prec) with true; [reflexivity |].
  symmetry. apply Z.leb_le. unfold emax, prec. lia.
Qed.

Lemma ofZ_pos_spec (p : positive) :
  Zpos p < 2 ^ 32 ->
  exists k : positive,
    Zpos k = 53 - Zpos (digits2_pos p)
    /\ Prim2SF (JS.ofZ (Zpos p))
       = S754_finite false (Pos.iter xO p k) (Zpos (digits2_pos p) - 53).
Proof.
  intros Hp. pose proof (digits_bounds p) as [Dlo Dhi].
  set (d := Zpos (digits2_pos p)) in *.
  assert (Hd0 : 0 < d) by (subst d; lia).
  assert (Hd : d <= 32).
  { destruct (Z.le_gt_cases d 32) as [|Hgt]; [assumption |].
    assert (2 ^ 32 <= 2 ^ (d - 1)) by (apply Z.pow_le_mono_r; lia). lia. }
  exists (Z.to_pos (53 - d)).
  assert (Hk : Zpos (Z.to_pos (53 - d)) = 53 - d) by lia.
  split; [exact Hk |].
  unfold JS.ofZ. cbn [Z.ltb Z.compare].
  rewrite of_uint63_spec, Uint63.of_Z_spec.
  assert (HwB : Uint63Axioms.wB = 2 ^ 63) by reflexivity.
  rewrite Z.mod_small
    by (rewrite HwB; assert (2 ^ 32 < 2 ^ 63) by reflexivity; lia).
  cbn [binary_normalize]. unfold binary_round. fold d.
  assert (Hf : fexp (d + 0) = d - 53).
  { unfold SpecFloat.fexp, SpecFloat.emin, prec, emax. lia. }
  rewrite Hf. unfold shl_align.
  destruct (d - 53 - 0) as [| q | q] eqn:Eq; try lia.
  assert (Hq : q = Z.to_pos (53 - d)) by lia. subst q.
  destruct (digits_shift p (Z.to_pos (53 - d))) as [Dg _].
  apply binary_round_aux_canonical; [| lia].
  rewrite Dg. fold d. unfold SpecFloat.fexp, SpecFloat.emin, prec, emax. lia.
Qed.

Lemma two32_spec :
  Prim2SF 4294967296 = S754_finite false 4503599627370496 (-20).
Proof. reflexivity. Qed.

(** The division of a 32-bit word by [2^32] is exact: the mantissa is
    kept and the exponent drops by 32. *)
Lemma fraction_spec (p : positive) :
  Zpos p < 2 ^ 32 ->
  exists k : positive,
    Zpos k = 53 - Zpos (digits2_pos p)
    /\ Prim2SF (JS.ofZ (Zpos p) / 4294967296)
       = S754_finite false (Pos.iter xO p k) (Zpos (digits2_pos p) - 85).
Proof.
  intros Hp. destruct (ofZ_pos_spec p Hp) as (k & Hk & Hx).
  exists k. split; [exact Hk |].
  rewrite div_spec, Hx, two32_spec. unfold SF64div, SFdiv, SFdiv_core_binary.
  destruct (digits_shift p k) as [Dg Dv].
  set (d := Zpos (digits2_pos p)) in *. set (m := Pos.iter xO p k) in *.
  cbn [Zdigits2 xorb]. rewrite Dg.
  change (Zpos (digits2_pos 4503599627370496)) with 53.
  assert (Hd0 : 0 < d) by (subst d; lia).
  assert (He : Z.min (fexp (d + Zpos k + (d - 53) - (53 + -20))) (d - 53 - -20)
               = d - 86).
  { unfold SpecFloat.fexp, SpecFloat.emin, prec, emax. lia. }
  rewrite He.
  replace (d - 53 - -20 - (d - 86)) with 53 by lia.
  rewrite Z.shiftl_mul_pow2 by lia.
  assert (Hdiv : Z.div_eucl (Zpos m * 2 ^ 53) (Zpos 4503599627370496)
                 = (Zpos m~0, 0)).
  { pose proof (Z.div_eucl_eq (Zpos m * 2 ^ 53) (Zpos 4503599627370496)) as Hq.
    pose proof (Z.mod_pos_bound (Zpos m * 2 ^ 53) (Zpos 4503599627370496)) as Hr.
    unfold Z.modulo in Hr.
    destruct (Z.div_eucl (Zpos m * 2 ^ 53) (Zpos 4503599627370496)) as [q r].
    assert (E52 : Zpos 4503599627370496 = 2 ^ 52) by reflexivity.
    rewrite E52 in *.
    assert (E53 : 2 ^ 53 = 2 * 2 ^ 52) by reflexivity.
    assert (P52 : 0 < 2 ^ 52) by reflexivity.
    specialize (Hq ltac:(lia)). specialize (Hr P52).
    rewrite E53 in Hq. rewrite Pos2Z.inj_xO.
    assert (q = 2 * Zpos m) by nia. f_equal; nia. }
  rewrite Hdiv.
  change (new_location (Zpos 4503599627370496) 0) with loc_Exact.
  (* one bit too many: a single exact shift *)
  unfold binary_round_aux, shr_fexp. cbn [Zdigits2 digits2_pos].
  rewrite Pos2Z.inj_succ, Dg.
  replace (fexp (Z.succ (d + Zpos k) + (d - 86)) - (d - 86)) with 1
    by (unfold SpecFloat.fexp, SpecFloat.emin, prec, emax; lia).
  cbn [shr shr_record_of_loc SpecFloat.iter_pos shr_1 shr_m loc_of_shr_record
       round_nearest_even Zdigits2 orb].
  rewrite Dg.
  replace (fexp (d + Zpos k + (d - 86 + 1)) - (d - 86 + 1)) with 0
    by (unfold SpecFloat.fexp, SpecFloat.emin, prec, emax; lia).
  cbn [shr shr_m].
  replace (d - 86 + 1 <=? emax - prec) with true.
  - f_equal. lia.
  - symmetry. apply Z.leb_le. unfold emax, prec.
    pose proof (digits_bounds p) as [Dlo _]. fold d in Dlo. lia.
Qed.

End Binary64.

(** ** The seeded generator *)

Lemma ushr_range (a n : Z) : 0 <= JS.ushr a n < 2 ^ 32.
Proof.
  unfold JS.ushr, JS.toUint32.
  assert (P32 : 0 < 2 ^ 32) by reflexivity.
  pose proof (Z.mod_pos_bound a (2 ^ 32) P32) as Ha.
  pose proof (Z.mod_pos_bound n 32 ltac:(lia)) as Hn.
  rewrite Z.shiftr_div_pow2 by lia.
  assert (Pn : 0 < 2 ^ (n mod 32)) by (apply Z.pow_pos_nonneg; lia).
  split.
  - apply Z.div_pos; lia.
  - apply Z.div_lt_upper_bound; [lia | nia].
Qed.

Lemma mulberry32_word_range (a : float) : 0 <= mulberry32_word a < 2 ^ 32.
Proof. unfold mulberry32_word. apply ushr_range. Qed.

(** A 32-bit word divided by [2^32] is a number of [0, 1). *)
Lemma fraction_unit (u : Z) :
  0 <= u < 2 ^ 32 -> unit_interval (JS.ofZ u / 4294967296)%float.
Proof.
  intros [Hlo Hhi]. destruct u as [| p | p]; [| | lia].
  - split; reflexivity.
  - destruct (Binary64.fraction_spec p Hhi) as (k & Hk & Hx).
    unfold unit_interval.
    rewrite leb_spec, ltb_spec, Hx, Binary64.zero_spec, Binary64.one_spec.
    split; [reflexivity |].
    unfold SFltb, SFcompare.
    pose proof (Binary64.digits_le p 32 ltac:(lia) Hhi) as Hd32.
    assert (Hd : Zpos (digits2_pos p) - 85 < -52) by lia.
    apply Z.compare_lt_iff in Hd. rewrite Hd. reflexivity.
Qed.

Lemma mulberry32_unit (a : float) : unit_interval (fst (mulberry32 a)).
Proof.
  unfold mulberry32. cbn [fst]. apply fraction_unit, mulberry32_word_range.
Qed.

(** Draws of a seeded generator never read the world. *)
Lemma draws_seeded (n : nat) (a : float) (w1 w2 : world) :
  draws n (Seeded a) w1 = draws n (Seeded a) w2.
Proof.
  revert a. induction n as [| n IH]; intros a; [reflexivity |].
  cbn [draws next draw]. destruct (mulberry32 a) as [x a'].
  f_equal. apply IH.
Qed.

Lemma draws_seeded_unit (n : nat) (a : float) (w : world) :
  Forall unit_interval (draws n (Seeded a) w).
Proof.
  revert a. induction n as [| n IH]; intros a; [constructor |].
  cbn [draws next draw]. pose proof (mulberry32_unit a) as Hu.
  destruct (mulberry32 a) as [x a']. constructor; [exact Hu | apply IH].
Qed.

Lemma createRandom_seeded (seed : JS.jsstring) :
  seed <> [] -> exists a, createRandom seed = Seeded a.
Proof.
  intros Hs. destruct seed as [| k seed]; [contradiction |].
  eexists. reflexivity.
Qed.

(** *** Commutativity of the binary64 addition *)



(** *** The exact value of a number of the unit interval *)

Lemma powerRZ_2_pos (e : Z) : (0 < powerRZ 2 e)%R.
Proof. apply powerRZ_lt. lra. Qed.

Lemma toR_unit (x : float) :
  unit_interval x -> (0 <= toR x < 1)%R.
Proof.
  intros [Hle Hlt]. unfold toR.
  destruct (Binary64.nonneg_cases x Hle Hlt) as [[s Hx] | (m & e & Hx)];
    rewrite Hx; [lra |].
  destruct (Binary64.lt_one_finite x m e Hx Hlt) as [He Hm].
  cbn [cond_Zopp]. pose proof (powerRZ_2_pos e) as Pe.
  split.
  - apply Rmult_le_pos; [apply IZR_le; lia | lra].
  - assert (Hp : powerRZ 2 (- e) = IZR (2 ^ (- e))).
    { rewrite <- (Z2Nat.id (- e)) by lia.
      rewrite <- pow_powerRZ, pow_IZR. reflexivity. }
    assert (Hinv : (powerRZ 2 (- e) * powerRZ 2 e = 1)%R).
    { rewrite <- powerRZ_add by lra. replace (- e + e) with 0 by lia.
      reflexivity. }
    apply IZR_lt in Hm. rewrite <- Hp in Hm.
    apply Rmult_lt_compat_r with (r := powerRZ 2 e) in Hm; [| exact Pe].
    lra.
Qed.

(** In exact arithmetic the range mapping of a value of [0, 1) stays
    in [a, b). *)
Lemma scale_exact_range (x a b : R) :
  (0 <= x < 1)%R -> (a < b)%R -> (a <= scale x a b < b)%R.
Proof.
  intros Hx Hab. unfold scale. cbn [nadd nsub nmul exact]. nra.
Qed.

(** *** Claims about the generator *)

(** C1.  Two generators built from the same non-empty seed give the same
    values, draw for draw, whatever the two runs' [Math.random] would
    have returned. *)
Theorem createRandom_deterministic (s1 s2 : JS.jsstring) (w1 w2 : world)
    (n : nat) :
  s1 <> [] -> s1 = s2 ->
  draws n (createRandom s1) w1 = draws n (createRandom s2) w2.
Proof.
  intros Hne <-. destruct (createRandom_seeded s1 Hne) as [a ->].
  apply draws_seeded.
Qed.

Lemma createRandom_deterministic_witness :
  draws 3 (createRandom (JS.utf16 "abc")) (fun _ => 0%float)
  = draws 3 (createRandom (JS.utf16 "abc")) (fun _ => 0.5%float).
Proof.
  apply (createRandom_deterministic (JS.utf16 "abc") (JS.utf16 "abc")).
  - discriminate.
  - reflexivity.
Defined.

(** With the empty seed the draws are those of [Math.random], and two
    runs need not agree. *)
Example empty_seed_follows_the_platform :
  draws 2 (createRandom []) (fun _ => 0.25%float) = [0.25; 0.25]%float
  /\ draws 2 (createRandom []) (fun _ => 0.75%float) = [0.75; 0.75]%float.
Proof. split; reflexivity. Qed.

(** What does hold of the ranges.  For a non-empty seed every value of a
    zero-argument call is a number of [0, 1).  The two-argument call
    returns [x * (b - a) + a] for such a draw [x]: evaluated exactly, on
    the exact value of the draw, that lies in [a, b) when [a < b]; the
    binary64 evaluation rounds. *)
Lemma createRandom_range (seed : JS.jsstring) (n : nat) (w : world) :
  seed <> [] ->
  Forall (fun x => unit_interval x
                   /\ forall a b : R, (a < b)%R ->
                        (a <= scale (toR x) a b < b)%R)
         (draws n (createRandom seed) w).
Proof.
  intros Hne. destruct (createRandom_seeded seed Hne) as [acc ->].
  pose proof (draws_seeded_unit n acc w) as Hu.
  induction Hu as [| x l Hx _ IH]; constructor; [| exact IH].
  split; [exact Hx |].
  intros a b Hab. apply scale_exact_range; [apply toR_unit, Hx | exact Hab].
Qed.

(** C6.  The code at an input on which it leaves the range that the
    claim, and the comment of [createRandom], promise: with the seed
    "seed6410" the first call [next(1000000000000, 1000000000001)]
    returns its upper bound.  The first draw is 0.99995106..., a number
    of [0, 1), and [0.99995106... * 1 + 1000000000000] rounds up to
    [1000000000001], the numbers of that size being [2^-13] apart. *)
Theorem next_reaches_upper_bound :
  let a := 1000000000000%float in
  let b := 1000000000001%float in
  let r := createRandom (JS.utf16 "seed6410") in
  let w := fun _ : nat => 0%float in
  (a <? b)%float = true
  /\ fst (fst (next [] r w)) = 0.99995106272399426%float
  /\ fst (fst (next [JS.Num a; JS.Num b] r w)) = b
  /\ (fst (fst (next [JS.Num a; JS.Num b] r w)) <? b)%float = false.
Proof. vm_compute. repeat split. Qed.


(** ** Typed arrays and loops *)

Lemma update_length {A : Type} (t : list A) (n : nat) (v : A) :
  List.length (JS.update t n v) = List.length t.
Proof.
  revert n. induction t as [| a t IH]; intros [| n]; cbn; congruence.
Qed.

Lemma update_app_l {A : Type} (t u : list A) (n : nat) (v : A) :
  (n < List.length t)%nat ->
  JS.update (t ++ u) n v = JS.update t n v ++ u.
Proof.
  revert n. induction t as [| a t IH]; intros [| n] Hn; cbn in *; try lia.
  - reflexivity.
  - rewrite IH by lia. reflexivity.
Qed.

Lemma update_app_r {A : Type} (t u : list A) (n : nat) (v : A) :
  JS.update (t ++ u) (List.length t + n) v = t ++ JS.update u n v.
Proof.
  induction t as [| a t IH]; cbn.
  - reflexivity.
  - destruct u; cbn in *; rewrite IH; reflexivity.
Qed.

Lemma get_nth_error {A : Type} (t : list A) (n : nat) :
  JS.get t (Z.of_nat n) = nth_error t n.
Proof.
  unfold JS.get. rewrite Nat2Z.id.
  destruct (Nat.lt_ge_cases n (List.length t)) as [Hlt | Hge].
  - replace ((0 <=? Z.of_nat n) && (Z.of_nat n <? Z.of_nat (List.length t)))
      with true; [reflexivity |].
    symmetry. apply andb_true_intro. split; [apply Z.leb_le | apply Z.ltb_lt]; lia.
  - replace (Z.of_nat n <? Z.of_nat (List.length t)) with false
      by (symmetry; apply Z.ltb_ge; lia).
    rewrite andb_false_r. symmetry. apply nth_error_None. exact Hge.
Qed.

Lemma get_in_range {A : Type} (t : list A) (i : Z) :
  0 <= i < Z.of_nat (List.length t) -> JS.get t i = nth_error t (Z.to_nat i).
Proof.
  intros Hi. rewrite <- (Z2Nat.id i) at 1 by lia. apply get_nth_error.
Qed.

Lemma get_app_l {A : Type} (t u : list A) (i : Z) :
  0 <= i < Z.of_nat (List.length t) -> JS.get (t ++ u) i = JS.get t i.
Proof.
  intros Hi. rewrite <- (Z2Nat.id i) by lia. rewrite !get_nth_error.
  apply nth_error_app1. lia.
Qed.

Lemma set_u8_in (t : list Z) (i v : Z) :
  0 <= i < Z.of_nat (List.length t) -> 0 <= v < 256 ->
  JS.set_u8 t i (Some v) = JS.update t (Z.to_nat i) v.
Proof.
  intros Hi Hv. unfold JS.set_u8, JS.toUint8.
  replace ((0 <=? i) && (i <? Z.of_nat (List.length t))) with true.
  - rewrite Z.mod_small by exact Hv. reflexivity.
  - symmetry. apply andb_true_intro.
    split; [apply Z.leb_le | apply Z.ltb_lt]; lia.
Qed.

Lemma for_range_succ {St : Type} (lo : Z) (n : nat) (body : Z -> St -> St)
    (st : St) :
  JS.for_range lo (S n) body st
  = body (lo + Z.of_nat n) (JS.for_range lo n body st).
Proof.
  unfold JS.for_range. rewrite seq_S, fold_left_app. reflexivity.
Qed.

(** Two loops over the same range that keep a relation between their
    states, turn after turn, end in related states. *)
Lemma for_range_related {St1 St2 : Type} (Rel : nat -> St1 -> St2 -> Prop)
    (lo : Z) (n : nat) (body1 : Z -> St1 -> St1) (body2 : Z -> St2 -> St2)
    (st1 : St1) (st2 : St2) :
  Rel O st1 st2 ->
  (forall k a b, (k < n)%nat -> Rel k a b ->
     Rel (S k) (body1 (lo + Z.of_nat k) a) (body2 (lo + Z.of_nat k) b)) ->
  Rel n (JS.for_range lo n body1 st1) (JS.for_range lo n body2 st2).
Proof.
  intros H0 Hstep. induction n as [| n IH]; [exact H0 |].
  rewrite !for_range_succ. apply Hstep; [lia |].
  apply IH. intros k a b Hk. apply Hstep. lia.
Qed.

(** *** Swapping two entries *)

Lemma replace_permutation (t : list Z) (n : nat) (a b : Z) :
  nth_error t n = Some b ->
  Permutation (b :: JS.update t n a) (a :: t).
Proof.
  revert n. induction t as [| c t IH]; intros [| n] Hn; cbn in *;
    try discriminate.
  - injection Hn as ->. apply perm_swap.
  - specialize (IH n Hn).
    apply perm_trans with (c :: b :: JS.update t n a); [apply perm_swap |].
    apply perm_trans with (c :: a :: t); [| apply perm_swap].
    apply perm_skip. exact IH.
Qed.

Lemma swap_permutation (t : list Z) (i r : nat) (a b : Z) :
  nth_error t i = Some a -> nth_error t r = Some b ->
  Permutation (JS.update (JS.update t i b) r a) t.
Proof.
  revert i r. induction t as [| c t IH]; intros [| i] [| r] Hi Hr; cbn in *;
    try discriminate.
  - injection Hi as ->. injection Hr as ->. apply Permutation_refl.
  - injection Hi as ->. apply replace_permutation. exact Hr.
  - injection Hr as ->. apply replace_permutation. exact Hi.
  - apply perm_skip. apply IH; assumption.
Qed.

Lemma swap_entries_permutation (t : list Z) (i r : Z) :
  Permutation (swap_entries t i r) t.
Proof.
  unfold swap_entries.
  destruct (JS.get t i) as [a |] eqn:Hi; [| apply Permutation_refl].
  destruct (JS.get t r) as [b |] eqn:Hr; [| apply Permutation_refl].
  unfold JS.get in Hi, Hr.
  destruct ((0 <=? i) && (i <? Z.of_nat (List.length t))); [| discriminate].
  destruct ((0 <=? r) && (r <? Z.of_nat (List.length t))); [| discriminate].
  apply swap_permutation; assumption.
Qed.

Lemma swap_entries_length (t : list Z) (i r : Z) :
  List.length (swap_entries t i r) = List.length t.
Proof. apply Permutation_length, swap_entries_permutation. Qed.

(** ** The permutation table *)

Lemma update_same {A : Type} (t : list A) (n : nat) (a : A) :
  nth_error t n = Some a -> JS.update t n a = t.
Proof.
  revert n. induction t as [| c t IH]; intros [| n] Hn; cbn in *;
    try discriminate.
  - injection Hn as ->. reflexivity.
  - rewrite IH by exact Hn. reflexivity.
Qed.

Lemma firstn_succ_nth_error {A : Type} (t : list A) (n : nat) (a : A) :
  nth_error t n = Some a -> firstn (S n) t = firstn n t ++ [a].
Proof.
  revert n. induction t as [| c t IH]; intros [| n] Hn; cbn in *;
    try discriminate.
  - injection Hn as ->. reflexivity.
  - rewrite <- IH by exact Hn. reflexivity.
Qed.

Lemma int32_small (z : Z) : 0 <= z < 2 ^ 31 -> JS.toInt32 z = z.
Proof.
  intros Hz. unfold JS.toInt32.
  assert (E31 : 2 ^ 31 = 2147483648) by reflexivity.
  assert (E32 : 2 ^ 32 = 4294967296) by reflexivity.
  rewrite E31, E32 in *. rewrite Z.mod_small by lia. lia.
Qed.

Lemma initial_table :
  JS.for_range 0 (Z.to_nat (512 / 2)) (fun i p => JS.set_u8 p i (Some i))
    (repeat 0 (Z.to_nat 512))
  = List.map Z.of_nat (seq 0 256) ++ repeat 0 256.
Proof. vm_compute. reflexivity. Qed.

Lemma identity_bytes :
  Forall (fun v => 0 <= v < 256) (List.map Z.of_nat (seq 0 256)).
Proof.
  apply Forall_forall. intros v Hv. apply in_map_iff in Hv.
  destruct Hv as (k & <- & Hk). apply in_seq in Hk. lia.
Qed.

(** The loop that copies the first half behind itself. *)
Lemma mirror_loop (q : list Z) :
  List.length q = 256%nat -> Forall (fun v => 0 <= v < 256) q ->
  JS.for_range 256 256 (fun i p => JS.set_u8 p i (JS.get p (i - 256)))
    (q ++ repeat 0 256)
  = q ++ q.
Proof.
  intros Hlen Hbytes.
  assert (Hk : forall k, (k <= 256)%nat ->
            JS.for_range 256 k (fun i p => JS.set_u8 p i (JS.get p (i - 256)))
              (q ++ repeat 0 256)
            = q ++ firstn k q ++ repeat 0 (256 - k)).
  { induction k as [| k IH]; intros Hle; [reflexivity |].
    rewrite for_range_succ, IH by lia.
    replace (256 + Z.of_nat k - 256) with (Z.of_nat k) by lia.
    rewrite get_app_l by lia. rewrite get_nth_error.
    destruct (nth_error q k) as [v |] eqn:Hv;
      [| apply nth_error_None in Hv; lia].
    assert (Hvb : 0 <= v < 256).
    { rewrite Forall_forall in Hbytes. apply Hbytes.
      apply nth_error_In with k. exact Hv. }
    rewrite set_u8_in; [| | exact Hvb].
    - replace (Z.to_nat (256 + Z.of_nat k)) with (List.length q + k)%nat by lia.
      rewrite update_app_r.
      pose proof (update_app_r (firstn k q) (repeat 0 (256 - k)) 0 v) as Hu.
      rewrite length_firstn in Hu.
      replace (Nat.min k (List.length q) + 0)%nat with k in Hu by lia.
      rewrite Hu.
      replace (256 - k)%nat with (S (256 - S k)) by lia.
      cbn [repeat JS.update].
      rewrite (firstn_succ_nth_error q k v Hv), <- app_assoc. reflexivity.
    - rewrite !length_app, length_firstn, repeat_length. lia. }
  rewrite (Hk 256%nat) by lia.
  rewrite <- Hlen, firstn_all, Nat.sub_diag. cbn [repeat].
  rewrite app_nil_r. reflexivity.
Qed.

Section TableProofs.

Context {St : Type} (random : St -> float * St).

(** One turn of the shuffle, on a table whose first half [q] holds bytes
    and whose second half is still zero, is the swap of the
    specification on [q], when the value drawn lies in [0, 1). *)
Lemma shuffle_step_refines (i : Z) (q : list Z) (s : St) :
  unit_interval (fst (random s)) ->
  0 <= i <= 254 ->
  List.length q = 256%nat -> Forall (fun v => 0 <= v < 256) q ->
  shuffle_step random i (q ++ repeat 0 256, s)
  = (fst (spec_shuffle_step random i (q, s)) ++ repeat 0 256,
     snd (spec_shuffle_step random i (q, s))).
Proof.
  intros [Hle Hlt] Hi Hlen Hbytes. unfold shuffle_step, spec_shuffle_step.
  destruct (random s) as [x s']. cbn [fst] in Hle, Hlt.
  assert (Hm : 1 <= 256 - i <= 256) by lia.
  pose proof (Binary64.scaled_fraction_bound x (256 - i) Hm Hle Hlt) as Ht.
  pose proof (Binary64.scaled_fraction_floor x (256 - i) Hm Hle Hlt) as Hf.
  set (t := JS.truncate (x * JS.ofZ (256 - i))) in *.
  unfold JS.int32. fold t.
  rewrite int32_small
    by (assert (E31 : 2 ^ 31 = 2147483648) by reflexivity; lia).
  assert (Hr : 0 <= i + t < Z.of_nat (List.length q)) by lia.
  assert (Hi' : 0 <= i < Z.of_nat (List.length q)) by lia.
  rewrite !get_app_l by assumption.
  rewrite !get_in_range by assumption.
  destruct (nth_error q (Z.to_nat i)) as [a |] eqn:Ha;
    [| apply nth_error_None in Ha; lia].
  destruct (nth_error q (Z.to_nat (i + t))) as [b |] eqn:Hb;
    [| apply nth_error_None in Hb; lia].
  rewrite Forall_forall in Hbytes.
  assert (Hab : 0 <= a < 256) by (apply Hbytes, nth_error_In with (Z.to_nat i), Ha).
  assert (Hbb : 0 <= b < 256)
    by (apply Hbytes, nth_error_In with (Z.to_nat (i + t)), Hb).
  rewrite (set_u8_in (q ++ repeat 0 256) i b);
    [| rewrite length_app; lia | exact Hbb].
  rewrite update_app_l by lia.
  rewrite set_u8_in;
    [| rewrite length_app, update_length; lia | exact Hab].
  rewrite update_app_l by (rewrite update_length; lia).
  destruct Hf as [Hf | [Hf Ht0]]; rewrite Hf; cbn [fst snd].
  - unfold swap_entries.
    rewrite !get_in_range by assumption. rewrite Ha, Hb. reflexivity.
  - rewrite Ht0, Z.add_0_r in Hb |- *.
    assert (b = a) by congruence. subst b.
    rewrite (update_same q _ a Ha), (update_same q _ a Ha). reflexivity.
Qed.

Lemma spec_shuffle_step_keeps (i : Z) (q : list Z) (s : St) :
  Permutation (fst (spec_shuffle_step random i (q, s))) q.
Proof.
  unfold spec_shuffle_step. destruct (random s) as [x s'].
  destruct (JS.floor (x * JS.ofZ (256 - i))); cbn [fst].
  - apply swap_entries_permutation.
  - apply Permutation_refl.
Qed.

Lemma spec_shuffle_step_state (i : Z) (q : list Z) (s : St) :
  snd (spec_shuffle_step random i (q, s)) = snd (random s).
Proof.
  unfold spec_shuffle_step. destruct (random s) as [x s'].
  destruct (JS.floor (x * JS.ofZ (256 - i))); reflexivity.
Qed.

Variable s0 : St.
Hypothesis outputs_unit : forall n, unit_interval (output random s0 n).

(** The table that the code builds is the one that the specification
    describes: a permutation [q] of [0..255] followed by itself. *)
Lemma buildPermutationTable_refines :
  buildPermutationTable random s0 = permutation_table_spec random s0
  /\ exists q, fst (buildPermutationTable random s0) = q ++ q
               /\ Permutation q (List.map Z.of_nat (seq 0 256)).
Proof.
  unfold buildPermutationTable, permutation_table_spec.
  cbv zeta. rewrite initial_table.
  change (Z.to_nat (512 / 2 - 1)) with 255%nat.
  change (Z.to_nat (512 - 256)) with 256%nat.
  set (id256 := List.map Z.of_nat (seq 0 256)).
  pose proof (for_range_related
    (fun k a b => a = (fst b ++ repeat 0 256, snd b)
                  /\ Permutation (fst b) id256
                  /\ snd b = state_before random s0 k)
    0 255 (shuffle_step random) (spec_shuffle_step random)
    (id256 ++ repeat 0 256, s0) (id256, s0)) as Hloop.
  destruct Hloop as [Heq [Hperm _]].
  - split; [reflexivity | split; [apply Permutation_refl | reflexivity]].
  - intros k a [q s] Hk (-> & Hp & Hs). cbn [fst snd] in *.
    assert (Hlen : List.length q = 256%nat)
      by (rewrite (Permutation_length Hp); reflexivity).
    assert (Hb : Forall (fun v => 0 <= v < 256) q)
      by (apply Permutation_Forall with id256;
          [apply Permutation_sym, Hp | apply identity_bytes]).
    assert (Hu : unit_interval (fst (random s)))
      by (rewrite Hs; apply outputs_unit).
    split; [| split].
    + apply shuffle_step_refines; [exact Hu | lia | exact Hlen | exact Hb].
    + apply perm_trans with q; [apply spec_shuffle_step_keeps | exact Hp].
    + rewrite spec_shuffle_step_state, Hs. reflexivity.
  - rewrite Heq.
    destruct (JS.for_range 0 255 (spec_shuffle_step random) (id256, s0))
      as [q s'].
    cbn [fst snd] in *.
    assert (Hlen : List.length q = 256%nat)
      by (rewrite (Permutation_length Hperm); reflexivity).
    assert (Hb : Forall (fun v => 0 <= v < 256) q)
      by (apply Permutation_Forall with id256;
          [apply Permutation_sym, Hperm | apply identity_bytes]).
    rewrite (mirror_loop q Hlen Hb).
    split; [reflexivity |]. exists q. split; [reflexivity | exact Hperm].
Qed.

End TableProofs.

(** The generator of [createRandom] as a draw function: with a non-empty
    seed all its values lie in [0, 1). *)
Lemma draw_function_seeded (a : float) (w : world) (n : nat) :
  exists a', state_before draw_function (Seeded a, w) n = (Seeded a', w).
Proof.
  induction n as [| n [a' IH]]; [exists a; reflexivity |].
  change (state_before draw_function (Seeded a, w) (S n))
    with (snd (draw_function (state_before draw_function (Seeded a, w) n))).
  rewrite IH. cbn [draw_function next draw].
  destruct (mulberry32 a') as [x a'']. exists a''. reflexivity.
Qed.

Lemma draw_function_unit (seed : JS.jsstring) (w : world) (n : nat) :
  seed <> [] ->
  unit_interval (output draw_function (createRandom seed, w) n).
Proof.
  intros Hne. destruct (createRandom_seeded seed Hne) as [a ->].
  unfold output. destruct (draw_function_seeded a w n) as [a' ->].
  cbn [draw_function next draw]. pose proof (mulberry32_unit a') as Hu.
  destruct (mulberry32 a') as [x a'']. exact Hu.
Qed.

Lemma identity_count (v : Z) :
  0 <= v < 256 ->
  count_occ Z.eq_dec (List.map Z.of_nat (seq 0 256)) v = 1%nat.
Proof.
  intros Hv. apply NoDup_count_occ'.
  - apply Finite.Injective_map_NoDup; [| apply seq_NoDup].
    intros a b Hab. apply Nat2Z.inj. exact Hab.
  - apply in_map_iff. exists (Z.to_nat v). split; [lia |].
    apply in_seq. lia.
Qed.

Lemma doubled_table (q : list Z) :
  Permutation q (List.map Z.of_nat (seq 0 256)) ->
  permutation_table (q ++ q).
Proof.
  intros Hp.
  assert (Hlen : List.length q = 256%nat)
    by (rewrite (Permutation_length Hp); reflexivity).
  unfold permutation_table. repeat split.
  - rewrite length_app. lia.
  - rewrite firstn_app, Hlen, Nat.sub_diag, firstn_all2 by lia.
    cbn [firstn]. rewrite app_nil_r. exact Hp.
  - intros i Hi.
    rewrite (get_app_l q q (i - 256)) by lia.
    rewrite get_in_range by (rewrite length_app; lia).
    rewrite get_in_range by lia.
    rewrite nth_error_app2 by lia. f_equal. lia.
Qed.

(** *** Claims about the permutation table *)

(** C2.  For a draw function whose values all lie in [0, 1), the first
    256 entries of the table are a permutation of 0..255, each value
    occurring exactly once, and the entry [i] of 256..511 is the entry
    [i - 256]. *)
Theorem buildPermutationTable_permutation {St : Type}
    (random : St -> float * St) (s : St) :
  (forall n, unit_interval (output random s n)) ->
  let p := fst (buildPermutationTable random s) in
  permutation_table p
  /\ forall v, 0 <= v < 256 -> count_occ Z.eq_dec (firstn 256 p) v = 1%nat.
Proof.
  intros Hunit p. subst p.
  destruct (buildPermutationTable_refines random s Hunit)
    as [_ (q & -> & Hp)].
  pose proof (doubled_table q Hp) as Ht. split; [exact Ht |].
  intros v Hv. destruct Ht as [_ [Hperm _]].
  rewrite (Permutation_count_occ Z.eq_dec) in Hperm.
  rewrite Hperm. apply identity_count. exact Hv.
Qed.

Lemma buildPermutationTable_permutation_witness :
  let p := fst (buildPermutationTable draw_function
                  (createRandom (JS.utf16 "test"), fun _ => 0%float)) in
  permutation_table p
  /\ forall v, 0 <= v < 256 -> count_occ Z.eq_dec (firstn 256 p) v = 1%nat.
Proof.
  apply (buildPermutationTable_permutation draw_function
           (createRandom (JS.utf16 "test"), fun _ => 0%float)).
  intros n. apply draw_function_unit. discriminate.
Defined.

(** C3, as the code has it.  On a draw function whose values all lie in
    [0, 1), [buildPermutationTable] computes the table that the
    description gives: the identity on 0..255, then for [i] from 0 to
    254 the swap of the entries [i] and [i + floor(random() * (256 - i))],
    then the 256 entries copied behind themselves, the draw function
    being called once per turn, 255 times. *)
Theorem buildPermutationTable_algorithm {St : Type}
    (random : St -> float * St) (s : St) :
  (forall n, unit_interval (output random s n)) ->
  buildPermutationTable random s = permutation_table_spec random s.
Proof.
  intros Hunit. apply (buildPermutationTable_refines random s Hunit).
Qed.

Lemma buildPermutationTable_algorithm_witness :
  buildPermutationTable draw_function
    (createRandom (JS.utf16 "test"), fun _ => 0%float)
  = permutation_table_spec draw_function
      (createRandom (JS.utf16 "test"), fun _ => 0%float).
Proof.
  apply (buildPermutationTable_algorithm draw_function
           (createRandom (JS.utf16 "test"), fun _ => 0%float)).
  intros n. apply draw_function_unit. discriminate.
Defined.

(** C3 as stated, on any draw function, fails: the code takes [~~], which
    rounds toward zero, where the description takes the floor.  On draws
    of [-2^-10] the code leaves the table as it is and the description
    moves the entries. *)
Lemma truncation_is_not_floor :
  firstn 4 (fst (buildPermutationTable falling_draws 0%nat)) = [0; 1; 2; 3]
  /\ firstn 4 (fst (permutation_table_spec falling_draws 0%nat))
     = [1; 2; 3; 4].
Proof. vm_compute. split; reflexivity. Qed.

(** ** Simplex noise *)

Lemma returns_ret {A : Type} (Q : A -> Prop) (a : A) :
  Q a -> returns Q (ret a).
Proof. intros Ha. split; [constructor | exists a; split; [reflexivity | exact Ha]]. Qed.

Lemma returns_bind {A B : Type} (P : A -> Prop) (Q : B -> Prop)
    (m : traced A) (k : A -> traced B) :
  returns P m -> (forall a, P a -> returns Q (k a)) -> returns Q (bind m k).
Proof.
  intros [Hm (a & Ha & Pa)] Hk. destruct m as [l r]. cbn [fst snd] in *.
  subst r. unfold bind. destruct (Hk a Pa) as [Hl (b & Hb & Qb)].
  destruct (k a) as [l' r']. cbn [fst snd] in *. split.
  - apply Forall_app. split; assumption.
  - exists b. split; assumption.
Qed.

Lemma returns_read {A : Type} (t : list A) (d : A) (i : Z) :
  List.length t = 512%nat -> 0 <= i <= 511 ->
  returns (fun v => v = entry t d i) (read t i).
Proof.
  intros Hlen Hi. unfold read, returns. cbn [fst snd]. split.
  - constructor; [exact Hi | constructor].
  - rewrite get_in_range by lia.
    destruct (nth_error t (Z.to_nat i)) as [v |] eqn:Hv;
      [| apply nth_error_None in Hv; lia].
    exists v. split; [reflexivity |].
    unfold entry. symmetry. apply nth_error_nth. exact Hv.
Qed.

(** *** What the invariant of the table gives *)

Lemma permutation_table_entry (p : list Z) (i : Z) :
  permutation_table p -> 0 <= i <= 511 -> 0 <= entry p 0 i <= 255.
Proof.
  intros (Hlen & Hperm & Hmirror) Hi.
  assert (Hlow : forall j, 0 <= j <= 255 -> 0 <= entry p 0 j <= 255).
  { intros j Hj.
    assert (Hin : In (entry p 0 j) (firstn 256 p)).
    { unfold entry. rewrite <- (firstn_skipn 256 p) at 1.
      rewrite app_nth1 by (rewrite length_firstn; lia).
      apply nth_In. rewrite length_firstn. lia. }
    apply (Permutation_in _ Hperm) in Hin.
    apply in_map_iff in Hin. destruct Hin as (k & <- & Hk).
    apply in_seq in Hk. lia. }
  destruct (Z.le_gt_cases i 255) as [Hle | Hgt]; [apply Hlow; lia |].
  specialize (Hmirror i ltac:(lia)).
  rewrite !get_in_range in Hmirror by lia.
  assert (He : entry p 0 i = entry p 0 (i - 256)).
  { unfold entry.
    destruct (nth_error p (Z.to_nat i)) as [v |] eqn:Hv;
      [| apply nth_error_None in Hv; lia].
    rewrite (nth_error_nth _ _ _ Hv).
    symmetry in Hmirror. rewrite (nth_error_nth _ _ _ Hmirror). reflexivity. }
  rewrite He. apply Hlow. lia.
Qed.

Lemma permutation_table_bytes (p : list Z) :
  permutation_table p -> byte_table p.
Proof.
  intros Hp. pose proof Hp as (Hlen & _). split; [exact Hlen |].
  apply Forall_forall. intros v Hv.
  destruct (In_nth p v 0 Hv) as (n & Hn & <-).
  pose proof (permutation_table_entry p (Z.of_nat n) Hp ltac:(lia)) as H.
  unfold entry in H. rewrite Nat2Z.id in H. lia.
Qed.

Lemma table_entry_byte (p : list Z) (i : Z) :
  byte_table p -> 0 <= i <= 511 -> 0 <= entry p 0 i <= 255.
Proof.
  intros [Hlen Hb] Hi. rewrite Forall_forall in Hb.
  assert (0 <= entry p 0 i < 256); [| lia].
  apply Hb. unfold entry. apply nth_In. lia.
Qed.

(** Whatever the draw function returns, the table that is built is a
    [Uint8Array] of 512 entries. *)
Lemma set_u8_bytes (p : list Z) (i : Z) (v : option Z) :
  byte_table p -> byte_table (JS.set_u8 p i v).
Proof.
  intros [Hlen Hb]. unfold JS.set_u8.
  destruct ((0 <=? i) && (i <? Z.of_nat (List.length p)));
    [| split; assumption].
  split; [rewrite update_length; exact Hlen |].
  assert (Hv : 0 <= JS.toUint8 v < 256).
  { unfold JS.toUint8. destruct v; [apply Z.mod_pos_bound |]; lia. }
  clear Hlen. revert Hb. generalize (Z.to_nat i) as n.
  induction p as [| c t IH]; intros [| n] Hb; cbn; try assumption.
  - inversion Hb; subst. constructor; assumption.
  - inversion Hb; subst. constructor; [assumption | apply IH; assumption].
Qed.

Lemma for_range_invariant {St : Type} (Inv : St -> Prop) (lo : Z) (n : nat)
    (body : Z -> St -> St) (st : St) :
  Inv st -> (forall i a, Inv a -> Inv (body i a)) ->
  Inv (JS.for_range lo n body st).
Proof.
  intros H0 Hstep. induction n as [| n IH]; [exact H0 |].
  rewrite for_range_succ. apply Hstep, IH.
Qed.

Lemma buildPermutationTable_bytes {St : Type} (random : St -> float * St)
    (s : St) :
  byte_table (fst (buildPermutationTable random s)).
Proof.
  unfold buildPermutationTable. cbv zeta.
  set (filled := JS.for_range 0 _ _ (repeat 0 _)).
  assert (H1 : byte_table filled).
  { apply for_range_invariant.
    - split; [reflexivity |]. apply Forall_forall.
      intros v Hv. apply repeat_spec in Hv. lia.
    - intros i a Ha. apply set_u8_bytes, Ha. }
  assert (H2 : byte_table
                 (fst (JS.for_range 0 (Z.to_nat (512 / 2 - 1))
                         (shuffle_step random) (filled, s)))).
  { apply (for_range_invariant (fun st => byte_table (fst st)));
      [exact H1 |].
    intros i [p s0] Ha. unfold shuffle_step.
    destruct (random s0) as [x s1]. cbn [fst] in *.
    apply set_u8_bytes, set_u8_bytes, Ha. }
  destruct (JS.for_range 0 (Z.to_nat (512 / 2 - 1)) (shuffle_step random)
              (filled, s)) as [p s'].
  cbn [fst] in *. apply for_range_invariant; [exact H2 |].
  intros i a Ha. apply set_u8_bytes, Ha.
Qed.

Lemma gradient_table_length (p : list Z) (c : Z) :
  List.length (gradient_table p c) = List.length p.
Proof. unfold gradient_table. apply length_map. Qed.

Lemma and_255_range (z : Z) : 0 <= JS.and z 255 <= 255.
Proof.
  unfold JS.and. change (JS.toInt32 255) with (Z.ones 8).
  rewrite Z.land_ones by lia.
  pose proof (Z.mod_pos_bound (JS.toInt32 z) (2 ^ 8) ltac:(reflexivity)) as H.
  change (2 ^ 8) with 256 in *. lia.
Qed.

Lemma simplexOrder_bits (a b c : float) :
  let '((i1, j1, k1), (i2, j2, k2)) := simplexOrder a b c in
  (0 <= i1 <= 1 /\ 0 <= j1 <= 1 /\ 0 <= k1 <= 1)
  /\ (0 <= i2 <= 1 /\ 0 <= j2 <= 1 /\ 0 <= k2 <= 1).
Proof.
  unfold simplexOrder.
  destruct (b <=? a)%float, (c <=? b)%float, (c <=? a)%float,
    (b <? c)%float, (a <? c)%float; lia.
Qed.

(** *** One corner *)

Lemma corner_block_returns (p : list Z) (I J K : Z) (dx dy dz : float) :
  byte_table p ->
  0 <= I <= 256 -> 0 <= J <= 256 -> 0 <= K <= 256 ->
  returns (fun n => n = contribution (gradient (tables_of p) I J K) dx dy dz)
          (corner_block (tables_of p) I J K dx dy dz).
Proof.
  intros Hp HI HJ HK. pose proof Hp as (Hlen & _).
  unfold corner_block, contribution, gradient. cbn [perm permGrad3x permGrad3y
    permGrad3z tables_of].
  destruct (0.6 - dx * dx - dy * dy - dz * dz <? 0)%float.
  - apply returns_ret. reflexivity.
  - pose proof (table_entry_byte p K Hp ltac:(lia)) as Bk.
    apply returns_bind with (P := fun v => v = entry p 0 K);
      [apply returns_read; [exact Hlen | lia] |].
    intros pk ->.
    pose proof (table_entry_byte p (J + entry p 0 K) Hp ltac:(lia)) as Bj.
    apply returns_bind with (P := fun v => v = entry p 0 (J + entry p 0 K));
      [apply returns_read; [exact Hlen | lia] |].
    intros pj ->. cbv zeta.
    set (gi := I + entry p 0 (J + entry p 0 K)) in *.
    assert (Hgi : 0 <= gi <= 511) by (subst gi; lia).
    apply returns_bind with (P := fun v => v = entry (gradient_table p 0) nan gi);
      [apply returns_read; [rewrite gradient_table_length; exact Hlen | exact Hgi] |].
    intros gx ->.
    apply returns_bind with (P := fun v => v = entry (gradient_table p 1) nan gi);
      [apply returns_read; [rewrite gradient_table_length; exact Hlen | exact Hgi] |].
    intros gy ->.
    apply returns_bind with (P := fun v => v = entry (gradient_table p 2) nan gi);
      [apply returns_read; [rewrite gradient_table_length; exact Hlen | exact Hgi] |].
    intros gz ->.
    apply returns_ret. reflexivity.
Qed.

(** [noise3D] is its four corner blocks, then the sum. *)
Lemma noise3D_blocks (T : tables) (x y z : float) :
  noise3D T x y z
  = let c := cellOf x y z in
    let '((i1, j1, k1), (i2, j2, k2)) := simplexOrder (x0 c) (y0 c) (z0 c) in
    let ii := JS.and (ci c) 255 in
    let jj := JS.and (cj c) 255 in
    let kk := JS.and (ck c) 255 in
    n0 <- corner_block T ii jj kk (x0 c) (y0 c) (z0 c) ;;
    n1 <- corner_block T (ii + i1) (jj + j1) (kk + k1)
            (x0 c - JS.ofZ i1 + G3) (y0 c - JS.ofZ j1 + G3)
            (z0 c - JS.ofZ k1 + G3) ;;
    n2 <- corner_block T (ii + i2) (jj + j2) (kk + k2)
            (x0 c - JS.ofZ i2 + 2 * G3) (y0 c - JS.ofZ j2 + 2 * G3)
            (z0 c - JS.ofZ k2 + 2 * G3) ;;
    n3 <- corner_block T (ii + 1) (jj + 1) (kk + 1)
            (x0 c - 1 + 3 * G3) (y0 c - 1 + 3 * G3) (z0 c - 1 + 3 * G3) ;;
    ret (32 * (n0 + n1 + n2 + n3))%float.
Proof.
  unfold noise3D, corner_block. cbv zeta.
  destruct (simplexOrder (x0 (cellOf x y z)) (y0 (cellOf x y z))
              (z0 (cellOf x y z))) as [[[i1 j1] k1] [[i2 j2] k2]].
  reflexivity.
Qed.

(** On a table of 512 bytes every read of [noise3D] is inside the
    tables, and the value is the one of the specification. *)
Lemma noise3D_returns (p : list Z) (x y z : float) :
  byte_table p ->
  returns (fun v => v = noise3D_spec (tables_of p) x y z)
          (noise3D (tables_of p) x y z).
Proof.
  intros Hp. rewrite noise3D_blocks. unfold noise3D_spec, corners. cbv zeta.
  set (c := cellOf x y z).
  pose proof (simplexOrder_bits (x0 c) (y0 c) (z0 c)) as Hbits.
  destruct (simplexOrder (x0 c) (y0 c) (z0 c)) as [[[i1 j1] k1] [[i2 j2] k2]].
  destruct Hbits as [(Hi1 & Hj1 & Hk1) (Hi2 & Hj2 & Hk2)].
  pose proof (and_255_range (ci c)) as Hii.
  pose proof (and_255_range (cj c)) as Hjj.
  pose proof (and_255_range (ck c)) as Hkk.
  cbn [List.map corner_value].
  rewrite !Z.add_0_r.
  eapply returns_bind;
    [apply corner_block_returns; [exact Hp | lia | lia | lia] |].
  intros n0 ->.
  eapply returns_bind;
    [apply corner_block_returns; [exact Hp | lia | lia | lia] |].
  intros n1 ->.
  eapply returns_bind;
    [apply corner_block_returns; [exact Hp | lia | lia | lia] |].
  intros n2 ->.
  eapply returns_bind;
    [apply corner_block_returns; [exact Hp | lia | lia | lia] |].
  intros n3 ->.
  apply returns_ret. reflexivity.
Qed.

(** *** Comparisons *)

Lemma SFcompare_lt_gt (x y : spec_float) :
  SFcompare x y = Some Lt -> SFcompare y x = Some Gt.
Proof.
  destruct x as [sx | sx | | sx mx ex], y as [sy | sy | | sy my ey];
    cbn [SFcompare]; intros H; try discriminate;
    try (destruct sx; try discriminate; reflexivity);
    try (destruct sy; try discriminate; reflexivity);
    try (destruct sx, sy; try discriminate; reflexivity).
  assert (Hcc : Pos.compare_cont Eq my mx
                = CompOpp (Pos.compare_cont Eq mx my))
    by (rewrite Pos.compare_cont_antisym; reflexivity).
  rewrite Hcc, (Z.compare_antisym ex ey).
  destruct sx, sy; try discriminate; try reflexivity;
    destruct (ex ?= ey), (Pos.compare_cont Eq mx my); cbn [CompOpp] in *;
    try discriminate; reflexivity.
Qed.

(** [a < b] excludes [a >= b]. *)
Lemma ltb_not_geb (a b : float) :
  (a <? b)%float = true -> (b <=? a)%float = false.
Proof.
  rewrite ltb_spec, leb_spec. unfold SFltb, SFleb.
  destruct (SFcompare (Prim2SF a) (Prim2SF b)) as [[| |] |] eqn:Hc;
    try discriminate.
  intros _. rewrite (SFcompare_lt_gt _ _ Hc). reflexivity.
Qed.

(** *** Claims about the noise *)

(** C4.  The corner offsets that [noise3D] selects from the in-cell
    offsets [(x0, y0, z0)] of a point.  When [x0 >= y0]: with [y0 >= z0]
    they are (1,0,0), (1,1,0); else with [x0 >= z0] they are (1,0,0),
    (1,0,1); else (0,0,1), (1,0,1).  When [x0 < y0]: with [y0 < z0] they
    are (0,0,1), (0,1,1); else with [x0 < z0] they are (0,1,0), (0,1,1);
    else (0,1,0), (1,1,0).  A tie [x0 = y0] goes with [>=].  The last
    part says where [noise3D] uses the offsets: in the lattice indices
    and the point offsets of its second and third corner. *)
Theorem simplexOrder_branches (x y z : float) :
  let c := cellOf x y z in
  let order := simplexOrder (x0 c) (y0 c) (z0 c) in
  ((y0 c <=? x0 c)%float = true ->
     ((z0 c <=? y0 c)%float = true -> order = ((1, 0, 0), (1, 1, 0)))
     /\ ((z0 c <=? y0 c)%float = false -> (z0 c <=? x0 c)%float = true ->
           order = ((1, 0, 0), (1, 0, 1)))
     /\ ((z0 c <=? y0 c)%float = false -> (z0 c <=? x0 c)%float = false ->
           order = ((0, 0, 1), (1, 0, 1))))
  /\ ((x0 c <? y0 c)%float = true ->
        ((y0 c <? z0 c)%float = true -> order = ((0, 0, 1), (0, 1, 1)))
        /\ ((y0 c <? z0 c)%float = false -> (x0 c <? z0 c)%float = true ->
              order = ((0, 1, 0), (0, 1, 1)))
        /\ ((y0 c <? z0 c)%float = false -> (x0 c <? z0 c)%float = false ->
              order = ((0, 1, 0), (1, 1, 0))))
  /\ forall T : tables,
       let '((i1, j1, k1), (i2, j2, k2)) := order in
       let ii := JS.and (ci c) 255 in
       let jj := JS.and (cj c) 255 in
       let kk := JS.and (ck c) 255 in
       noise3D T x y z
       = (n0 <- corner_block T ii jj kk (x0 c) (y0 c) (z0 c) ;;
          n1 <- corner_block T (ii + i1) (jj + j1) (kk + k1)
                  (x0 c - JS.ofZ i1 + G3) (y0 c - JS.ofZ j1 + G3)
                  (z0 c - JS.ofZ k1 + G3) ;;
          n2 <- corner_block T (ii + i2) (jj + j2) (kk + k2)
                  (x0 c - JS.ofZ i2 + 2 * G3) (y0 c - JS.ofZ j2 + 2 * G3)
                  (z0 c - JS.ofZ k2 + 2 * G3) ;;
          n3 <- corner_block T (ii + 1) (jj + 1) (kk + 1)
                  (x0 c - 1 + 3 * G3) (y0 c - 1 + 3 * G3)
                  (z0 c - 1 + 3 * G3) ;;
          ret (32 * (n0 + n1 + n2 + n3))%float).
Proof.
  intros c order. split; [| split].
  - subst order. unfold simplexOrder. intros Hxy. rewrite Hxy. repeat split.
    + intros ->. reflexivity.
    + intros -> ->. reflexivity.
    + intros -> ->. reflexivity.
  - subst order. unfold simplexOrder.
    intros Hxy. rewrite (ltb_not_geb _ _ Hxy). repeat split.
    + intros ->. reflexivity.
    + intros -> ->. reflexivity.
    + intros -> ->. reflexivity.
  - intros T. pose proof (noise3D_blocks T x y z) as Hb.
    cbv zeta in Hb. fold c in Hb. subst order.
    destruct (simplexOrder (x0 c) (y0 c) (z0 c))
      as [[[i1 j1] k1] [[i2 j2] k2]].
    exact Hb.
Qed.


(** C10.  On a table that satisfies the invariant of permutation tables,
    every index at which [noise3D] reads [perm] or a gradient table lies
    in 0..511, and no read leaves the tables. *)
Theorem noise3D_reads_in_bounds (p : list Z) (x y z : float) :
  permutation_table p ->
  Forall (fun i => 0 <= i <= 511) (fst (noise3D (tables_of p) x y z))
  /\ exists v, snd (noise3D (tables_of p) x y z) = Some v.
Proof.
  intros Hp.
  destruct (noise3D_returns p x y z (permutation_table_bytes p Hp))
    as [Hreads (v & Hv & _)].
  split; [exact Hreads | exists v; exact Hv].
Qed.

Lemma noise3D_reads_in_bounds_witness :
  Forall (fun i => 0 <= i <= 511)
    (fst (noise3D (tables_of (List.map Z.of_nat (seq 0 256 ++ seq 0 256)))
            0.3 0.7 1.1))
  /\ exists v,
       snd (noise3D (tables_of (List.map Z.of_nat (seq 0 256 ++ seq 0 256)))
              0.3 0.7 1.1) = Some v.
Proof.
  apply (noise3D_reads_in_bounds
           (List.map Z.of_nat (seq 0 256 ++ seq 0 256)) 0.3 0.7 1.1).
  rewrite map_app. apply doubled_table. apply Permutation_refl.
Defined.

(** ** Curl noise *)

Local Open Scope R_scope.




(** On every kind of number the normalisation is the same division: by
    the norm, or by 1 when the norm is false as a condition (zero, and
    on binary64 numbers NaN). *)
Lemma curlNoise3_divides {num : Type} `{Number num} (p : vec3)
    (noiseVec3 : vec3 -> vec3) (eps outScale : num) :
  curlNoise3 p noiseVec3 eps outScale true
  = let c := rawCurl p noiseVec3 eps in
    let len := if ntruthy (norm c) then norm c else nofZ 1 in
    (vx c / len * outScale, vy c / len * outScale, vz c / len * outScale)%num.
Proof.
  unfold curlNoise3, norm, vx, vy, vz.
  destruct (rawCurl p noiseVec3 eps) as [[cx cy] cz]. reflexivity.
Qed.

(** *** Claims about the curl *)




Local Close Scope R_scope.



(** ** The model on concrete inputs *)

(** Three draws of the generator seeded with "abc". *)
Example draws_of_abc :
  draws 3 (createRandom (JS.utf16 "abc")) (fun _ => 0%float)
  = [0.47583736572414637; 0.24827520176768303; 0.31007725629024208]%float.
Proof. vm_compute. reflexivity. Qed.

(** The head of the table built from the generator seeded with "test". *)
Example table_of_test :
  firstn 8 (fst (buildPermutationTable draw_function
                   (createRandom (JS.utf16 "test"), fun _ => 0%float)))
  = [57; 219; 7; 189; 184; 128; 125; 82].
Proof. vm_compute. reflexivity. Qed.

(** The noise built from the seed "n" at the point (0.3, 0.7, 1.1): the
    indices read, and the value. *)
Example noise_of_n :
  noise3D (fst (createNoise3D draw_function
                  (createRandom (JS.utf16 "n"), fun _ => 0%float)))
    0.3 0.7 1.1
  = ([1; 4; 145; 145; 145; 2; 44; 228; 228; 228; 2; 45; 114; 114; 114; 2;
      45; 115; 115; 115],
     Some 0.56361813333333333%float).
Proof. vm_compute. reflexivity. Qed.

(** ** More facts about binary64 numbers *)

(** *** NaN, the zeros and the infinities *)

Ltac to_spec :=
  apply Prim2SF_inj;
  rewrite ?add_spec, ?sub_spec, ?mul_spec, ?div_spec, ?sqrt_spec, ?opp_spec;
  unfold SF64add, SF64sub, SF64mul, SF64div, SF64sqrt.

Lemma nan_spec : Prim2SF nan = S754_nan.
Proof. reflexivity. Qed.

Lemma add_nan_l (y : float) : (nan + y)%float = nan.
Proof. to_spec. reflexivity. Qed.

Lemma add_nan_r (x : float) : (x + nan)%float = nan.
Proof. to_spec. rewrite nan_spec. destruct (Prim2SF x); reflexivity. Qed.

Lemma sub_nan_l (y : float) : (nan - y)%float = nan.
Proof. to_spec. reflexivity. Qed.

Lemma sub_nan_r (x : float) : (x - nan)%float = nan.
Proof. to_spec. rewrite nan_spec. destruct (Prim2SF x); reflexivity. Qed.

Lemma mul_nan_l (y : float) : (nan * y)%float = nan.
Proof. to_spec. reflexivity. Qed.

Lemma mul_nan_r (x : float) : (x * nan)%float = nan.
Proof. to_spec. rewrite nan_spec. destruct (Prim2SF x); reflexivity. Qed.

Lemma div_nan_r (x : float) : (x / nan)%float = nan.
Proof. to_spec. rewrite nan_spec. destruct (Prim2SF x); reflexivity. Qed.

Lemma SFcompare_refl (X : spec_float) :
  X <> S754_nan -> SFcompare X X = Some Eq.
Proof.
  destruct X as [s | s | | s m e]; intros H; try contradiction; cbn [SFcompare].
  - reflexivity.
  - destruct s; reflexivity.
  - rewrite Z.compare_refl, Pos.compare_cont_refl. destruct s; reflexivity.
Qed.

Lemma is_nan_spec (x : float) : is_nan x = true <-> Prim2SF x = S754_nan.
Proof.
  unfold is_nan. rewrite eqb_spec. unfold SFeqb. split.
  - destruct (Prim2SF x) as [s | s | | s m e] eqn:E; try reflexivity;
      rewrite SFcompare_refl by discriminate; discriminate.
  - intros ->. reflexivity.
Qed.

Lemma is_nan_eq (x : float) : is_nan x = true -> x = nan.
Proof. intros H. apply Prim2SF_inj. apply is_nan_spec. exact H. Qed.

Lemma is_finite_spec (x : float) : is_finite x = finite_form (Prim2SF x).
Proof.
  unfold is_finite, is_nan, is_infinity. rewrite !eqb_spec, abs_spec.
  unfold SFeqb.
  destruct (Prim2SF x) as [s | s | | s m e]; try reflexivity.
  - destruct s; reflexivity.
  - rewrite SFcompare_refl by discriminate. reflexivity.
Qed.

Lemma is_zero_spec (x : float) : (x =? 0)%float = zero_form (Prim2SF x).
Proof.
  rewrite eqb_spec. unfold SFeqb. change (Prim2SF 0) with (S754_zero false).
  destruct (Prim2SF x) as [s | s | | s m e]; try reflexivity;
    destruct s; reflexivity.
Qed.

Lemma finite_not_nan (x : float) : is_finite x = true -> is_nan x = false.
Proof.
  unfold is_finite. destruct (is_nan x); [discriminate | reflexivity].
Qed.

Lemma finite_sub_self (x : float) :
  is_finite x = true -> (x - x)%float = 0%float.
Proof.
  rewrite is_finite_spec. intros H. to_spec.
  destruct (Prim2SF x) as [s | s | | s m e]; try discriminate.
  - destruct s; reflexivity.
  - unfold SFsub. rewrite Z.sub_diag. reflexivity.
Qed.

(** The difference of a number with itself is 0, or NaN. *)
Lemma sub_self_cases (x : float) :
  (x - x)%float = 0%float \/ (x - x)%float = nan.
Proof.
  destruct (is_finite x) eqn:F; [left; apply finite_sub_self, F |].
  right. rewrite is_finite_spec in F. to_spec.
  destruct (Prim2SF x) as [s | s | | s m e]; try discriminate;
    try destruct s; reflexivity.
Qed.

Lemma sub_self_mul_infinity (c : float) : ((c - c) * infinity)%float = nan.
Proof. destruct (sub_self_cases c) as [-> | ->]; reflexivity. Qed.

Lemma sub_zero_r (x : float) : (x - 0)%float = x.
Proof.
  to_spec. change (Prim2SF 0) with (S754_zero false).
  destruct (Prim2SF x) as [s | s | | s m e]; try reflexivity.
  destruct s; reflexivity.
Qed.

Lemma add_zero_r (x : float) :
  is_negative_zero x = false -> (x + 0)%float = x.
Proof.
  unfold is_negative_zero. intros H. to_spec.
  change (Prim2SF 0) with (S754_zero false).
  destruct (Prim2SF x) as [s | s | | s m e]; try reflexivity.
  destruct s; [discriminate | reflexivity].
Qed.

(** A zero times a finite number is a zero. *)
Lemma zero_mul_finite (z y : float) :
  (z =? 0)%float = true -> is_finite y = true ->
  ((z * y)%float =? 0)%float = true /\ ((y * z)%float =? 0)%float = true.
Proof.
  rewrite !is_zero_spec, is_finite_spec, !mul_spec. unfold SF64mul.
  destruct (Prim2SF z) as [sz | | |]; try discriminate.
  destruct (Prim2SF y) as [s | s | | s m e]; try discriminate;
    intros _ _; split; reflexivity.
Qed.

(** The difference of two equal zeros. *)
Lemma zero_product_sub_self (y : float) :
  is_finite y = true -> (0 * y - 0 * y)%float = 0%float.
Proof.
  intros Hy. apply finite_sub_self.
  destruct (zero_mul_finite 0 y eq_refl Hy) as [Hz _].
  rewrite is_zero_spec in Hz. rewrite is_finite_spec.
  destruct (Prim2SF (0 * y)); try discriminate. reflexivity.
Qed.

(** A zero divided by a number that is neither zero nor NaN is a
    zero. *)
Lemma zero_div (z y : float) :
  (z =? 0)%float = true -> (y =? 0)%float = false -> is_nan y = false ->
  ((z / y)%float =? 0)%float = true.
Proof.
  rewrite !is_zero_spec, div_spec. unfold SF64div. intros Hz Hy Hn.
  assert (Hy' : Prim2SF y <> S754_nan).
  { intros E. apply is_nan_spec in E. congruence. }
  destruct (Prim2SF z) as [sz | | |]; try discriminate.
  destruct (Prim2SF y) as [s | s | | s m e]; try discriminate;
    try reflexivity. contradiction.
Qed.

(** Adding a zero to a number leaves it, as a number. *)
Lemma add_zero_eqb (x z : float) :
  is_nan x = false -> (z =? 0)%float = true ->
  ((x + z)%float =? x)%float = true /\ ((z + x)%float =? x)%float = true.
Proof.
  intros Hn Hz. rewrite is_zero_spec in Hz.
  assert (Hx : Prim2SF x <> S754_nan).
  { intros E. apply is_nan_spec in E. congruence. }
  rewrite !eqb_spec, !add_spec. unfold SF64add, SFeqb.
  destruct (Prim2SF z) as [sz | | |]; try discriminate.
  destruct (Prim2SF x) as [s | s | | s m e] eqn:E; try contradiction.
  - destruct s, sz; split; reflexivity.
  - destruct s; split; reflexivity.
  - cbn [SFadd]. rewrite SFcompare_refl by discriminate. split; reflexivity.
Qed.

(** *** Signs *)

Lemma binary_round_aux_opp (s : bool) (m : Z) (e : Z) (l : location) :
  binary_round_aux prec emax (negb s) m e l
  = SFopp (binary_round_aux prec emax s m e l).
Proof.
  unfold binary_round_aux.
  destruct (shr_fexp prec emax m e l) as [r1 e1].
  destruct (shr_fexp prec emax _ e1 loc_Exact) as [r2 e2].
  destruct (shr_m r2); try reflexivity.
  destruct (e2 <=? emax - prec); reflexivity.
Qed.

Lemma binary_normalize_opp (m e : Z) :
  m <> 0 ->
  binary_normalize prec emax (- m) e false
  = SFopp (binary_normalize prec emax m e false).
Proof.
  intros Hm. destruct m as [| p | p]; [contradiction | |];
    cbn [Z.opp binary_normalize]; unfold binary_round;
    destruct (shl_align p e _) as [mz ez].
  - apply (binary_round_aux_opp false).
  - apply (binary_round_aux_opp true).
Qed.

Lemma SFmul_opp_opp (X : spec_float) :
  SFmul prec emax (SFopp X) (SFopp X) = SFmul prec emax X X.
Proof. destruct X as [s | s | | s m e]; try destruct s; reflexivity. Qed.

(** The square of a difference does not depend on the order of the
    two numbers. *)
Lemma square_sub_swap (a b : float) :
  ((a - b) * (a - b))%float = ((b - a) * (b - a))%float.
Proof.
  apply Prim2SF_inj. rewrite !mul_spec, !sub_spec. unfold SF64mul, SF64sub.
  destruct (Prim2SF a) as [sa | sa | | sa ma ea],
           (Prim2SF b) as [sb | sb | | sb mb eb];
    try reflexivity;
    try (destruct sa, sb; reflexivity);
    try (destruct sa; reflexivity); try (destruct sb; reflexivity).
  unfold SFsub. rewrite (Z.min_comm eb ea).
  set (ez := Z.min ea eb).
  set (A := cond_Zopp sa (Zpos (fst (shl_align ma ea ez)))).
  set (B := cond_Zopp sb (Zpos (fst (shl_align mb eb ez)))).
  destruct (Z.eq_dec (A - B) 0) as [E | E].
  - replace (B - A) with 0 by lia. rewrite E. reflexivity.
  - replace (B - A) with (- (A - B)) by lia.
    rewrite binary_normalize_opp by exact E. symmetry. apply SFmul_opp_opp.
Qed.

(** Squares, their sums and the square roots of those are NaN or have
    the sign of a positive number. *)
Lemma binary_round_aux_positive (m e : Z) (l : location) :
  positive_form (binary_round_aux prec emax false m e l) = true.
Proof.
  unfold binary_round_aux.
  destruct (shr_fexp prec emax m e l) as [r1 e1].
  destruct (shr_fexp prec emax _ e1 loc_Exact) as [r2 e2].
  destruct (shr_m r2); try reflexivity.
  destruct (e2 <=? emax - prec); reflexivity.
Qed.

Lemma square_positive (X : spec_float) :
  positive_form (SFmul prec emax X X) = true.
Proof.
  destruct X as [s | s | | s m e]; try (destruct s; reflexivity);
    try reflexivity.
  cbn [SFmul]. rewrite xorb_nilpotent. apply binary_round_aux_positive.
Qed.

Lemma add_positive (X Y : spec_float) :
  positive_form X = true -> positive_form Y = true ->
  positive_form (SFadd prec emax X Y) = true.
Proof.
  destruct X as [sx | sx | | sx mx ex], Y as [sy | sy | | sy my ey];
    cbn [positive_form]; intros HX HY;
    try (apply negb_true_iff in HX; subst sx);
    try (apply negb_true_iff in HY; subst sy);
    try reflexivity.
  unfold SFadd. cbn [cond_Zopp].
  destruct (shl_align mx ex (Z.min ex ey)) as [ax ex'].
  destruct (shl_align my ey (Z.min ex ey)) as [ay ey'].
  cbn [fst Z.add binary_normalize]. unfold binary_round.
  destruct (shl_align (ax + ay) _ _) as [mz ez].
  apply binary_round_aux_positive.
Qed.

Lemma sqrt_positive (X : spec_float) :
  positive_form X = true -> positive_form (SFsqrt prec emax X) = true.
Proof.
  destruct X as [s | s | | s m e]; cbn [positive_form]; intros HX;
    try (apply negb_true_iff in HX; subst s); try reflexivity.
  cbn [SFsqrt].
  destruct (SFsqrt_core_binary prec emax (Zpos m) e) as [[mz ez] lz].
  apply binary_round_aux_positive.
Qed.

(** *** Integers below [2^53] and their sums *)

Module Exact.

Import Binary64.

Lemma shr_iter_zeros (q : positive) (k : nat) :
  Nat.iter k shr_1 (Build_shr_record (Zpos q * 2 ^ Z.of_nat k) false false)
  = Build_shr_record (Zpos q) false false.
Proof.
  revert q. induction k as [| k IH]; intros q.
  - cbn [Nat.iter Z.of_nat]. rewrite Z.pow_0_r, Z.mul_1_r. reflexivity.
  - rewrite Nat.iter_succ.
    replace (Zpos q * 2 ^ Z.of_nat (S k)) with (Zpos q~0 * 2 ^ Z.of_nat k).
    + rewrite IH. reflexivity.
    + rewrite Nat2Z.inj_succ, Z.pow_succ_r by lia. rewrite Pos2Z.inj_xO. ring.
Qed.

(** A mantissa that is a canonical one followed by [n] zero bits is
    shifted back, and there is nothing to round. *)
Lemma binary_round_aux_zeros (s : bool) (M q : positive) (e n : Z) :
  0 <= n -> Zpos M = Zpos q * 2 ^ n ->
  fexp (Zpos (digits2_pos q) + (e + n)) = e + n -> e + n <= 971 ->
  binary_round_aux prec emax s (Zpos M) e loc_Exact = S754_finite s q (e + n).
Proof.
  intros Hn HM Hc He.
  destruct (Z.eq_dec n 0) as [-> | Hn0].
  - change (2 ^ 0) with 1 in HM. assert (M = q) by lia. subst M.
    rewrite Z.add_0_r in *. apply binary_round_aux_canonical; assumption.
  - destruct n as [| k | k]; try lia.
    destruct (digits_shift q k) as [Dg Dv].
    assert (M = Pos.iter xO q k) by lia. subst M.
    unfold binary_round_aux, shr_fexp. cbn [Zdigits2]. rewrite Dg.
    replace (Zpos (digits2_pos q) + Zpos k + e)
      with (Zpos (digits2_pos q) + (e + Zpos k)) by lia.
    rewrite Hc. replace (e + Zpos k - e) with (Zpos k) by lia.
    cbn [shr shr_record_of_loc]. rewrite iter_pos_nat, Dv.
    assert (Hit : Nat.iter (Pos.to_nat k) shr_1
                    (Build_shr_record (Zpos q * 2 ^ Zpos k) false false)
                  = Build_shr_record (Zpos q) false false).
    { rewrite <- (positive_nat_Z k). apply shr_iter_zeros. }
    rewrite !Hit.
    cbn [shr_m loc_of_shr_record round_nearest_even Zdigits2].
    rewrite Hc, Z.sub_diag. cbn [shr shr_record_of_loc shr_m].
    replace (e + Zpos k <=? emax - prec) with true; [reflexivity |].
    symmetry. apply Z.leb_le. unfold emax, prec. lia.
Qed.

Lemma digits_53 (p : positive) :
  Zpos p < 2 ^ 53 -> 0 < Zpos (digits2_pos p) <= 53.
Proof.
  intros Hp. split; [lia |]. apply digits_le; [lia | exact Hp].
Qed.

Lemma ofZ_integer_form (p : positive) :
  Zpos p < 2 ^ 53 -> Prim2SF (JS.ofZ (Zpos p)) = integer_form (Zpos p).
Proof.
  intros Hp. pose proof (digits_53 p Hp) as Hd.
  unfold integer_form. cbn [Zdigits2].
  set (d := Zpos (digits2_pos p)) in *.
  unfold JS.ofZ. cbn [Z.ltb Z.compare].
  rewrite of_uint63_spec, Uint63.of_Z_spec.
  assert (HwB : Uint63Axioms.wB = 2 ^ 63) by reflexivity.
  rewrite Z.mod_small
    by (rewrite HwB; assert (2 ^ 53 < 2 ^ 63) by reflexivity; lia).
  cbn [binary_normalize]. unfold binary_round. fold d.
  assert (Hf : fexp (d + 0) = d - 53).
  { unfold SpecFloat.fexp, SpecFloat.emin, prec, emax. lia. }
  rewrite Hf. unfold shl_align.
  destruct (d - 53 - 0) as [| q | q] eqn:Eq; try lia.
  - assert (Hd53 : d = 53) by lia. rewrite Hd53.
    change (2 ^ (53 - 53)) with 1. rewrite Z.mul_1_r. cbn [Z.to_pos].
    change (53 - 53) with 0.
    apply binary_round_aux_canonical; [| lia].
    fold d. rewrite Hd53. reflexivity.
  - destruct (digits_shift p q) as [Dg Dv].
    replace (Z.to_pos (Zpos p * 2 ^ (53 - d))) with (Pos.iter xO p q).
    + apply binary_round_aux_canonical; [| lia].
      rewrite Dg. fold d. unfold SpecFloat.fexp, SpecFloat.emin, prec, emax. lia.
    + apply Pos2Z.inj. rewrite Dv. replace (53 - d) with (Zpos q) by lia.
      assert (0 < 2 ^ Zpos q) by (apply Z.pow_pos_nonneg; lia).
      rewrite Z2Pos.id by nia. reflexivity.
Qed.

Lemma shl_align_value (m : positive) (e e' : Z) :
  e' <= e -> Zpos (fst (shl_align m e e')) = Zpos m * 2 ^ (e - e').
Proof.
  intros H. unfold shl_align.
  destruct (e' - e) as [| k | k] eqn:E; cbn [fst]; try lia.
  - replace (e - e') with 0 by lia. change (2 ^ 0) with 1. lia.
  - destruct (digits_shift m k) as [_ Dv]. rewrite Dv. f_equal. f_equal. lia.
Qed.

Lemma digits_mul_pow2 (p M : positive) (k : Z) :
  0 <= k -> Zpos M = Zpos p * 2 ^ k ->
  Zpos (digits2_pos M) = Zpos (digits2_pos p) + k.
Proof.
  intros Hk HM. apply digits_unique. rewrite HM.
  pose proof (digits_bounds p) as [Dlo Dhi].
  replace (Zpos (digits2_pos p) + k - 1)
    with ((Zpos (digits2_pos p) - 1) + k) by lia.
  rewrite !Z.pow_add_r by lia.
  assert (0 < 2 ^ k) by (apply Z.pow_pos_nonneg; lia).
  nia.
Qed.

Lemma digits_mono (p q : positive) :
  Zpos p <= Zpos q -> Zpos (digits2_pos p) <= Zpos (digits2_pos q).
Proof.
  intros H. pose proof (digits_bounds p) as [Dlo _].
  pose proof (digits_bounds q) as [_ Dhi].
  destruct (Z.le_gt_cases (Zpos (digits2_pos p)) (Zpos (digits2_pos q)))
    as [| Hgt]; [assumption |].
  assert (2 ^ Zpos (digits2_pos q) <= 2 ^ (Zpos (digits2_pos p) - 1))
    by (apply Z.pow_le_mono_r; lia).
  lia.
Qed.

Lemma integer_form_add (a b : positive) :
  Zpos a + Zpos b < 2 ^ 53 ->
  SFadd prec emax (integer_form (Zpos a)) (integer_form (Zpos b))
  = integer_form (Zpos a + Zpos b).
Proof.
  intros Hab.
  assert (Ha : Zpos a < 2 ^ 53) by lia.
  assert (Hb : Zpos b < 2 ^ 53) by lia.
  pose proof (digits_53 a Ha) as Hda. pose proof (digits_53 b Hb) as Hdb.
  change (Zpos a + Zpos b) with (Zpos (a + b)) in *.
  pose proof (digits_53 (a + b) Hab) as Hdc.
  pose proof (digits_mono a (a + b) ltac:(lia)) as Hac.
  pose proof (digits_mono b (a + b) ltac:(lia)) as Hbc.
  unfold integer_form. cbn [Zdigits2].
  set (da := Zpos (digits2_pos a)) in *.
  set (db := Zpos (digits2_pos b)) in *.
  set (dc := Zpos (digits2_pos (a + b))) in *.
  assert (Pa : 0 < 2 ^ (53 - da)) by (apply Z.pow_pos_nonneg; lia).
  assert (Pb : 0 < 2 ^ (53 - db)) by (apply Z.pow_pos_nonneg; lia).
  assert (Pc : 0 < 2 ^ (53 - dc)) by (apply Z.pow_pos_nonneg; lia).
  set (A := Z.to_pos (Zpos a * 2 ^ (53 - da))).
  set (B := Z.to_pos (Zpos b * 2 ^ (53 - db))).
  set (C := Z.to_pos (Zpos (a + b) * 2 ^ (53 - dc))).
  assert (HA : Zpos A = Zpos a * 2 ^ (53 - da))
    by (subst A; rewrite Z2Pos.id; nia).
  assert (HB : Zpos B = Zpos b * 2 ^ (53 - db))
    by (subst B; rewrite Z2Pos.id; nia).
  assert (HC : Zpos C = Zpos (a + b) * 2 ^ (53 - dc))
    by (subst C; rewrite Z2Pos.id; nia).
  unfold SFadd. cbn [cond_Zopp].
  set (ez := Z.min (da - 53) (db - 53)).
  rewrite !shl_align_value by (subst ez; lia).
  rewrite HA, HB.
  assert (Ea : Zpos a * 2 ^ (53 - da) * 2 ^ (da - 53 - ez)
               = Zpos a * 2 ^ (- ez)).
  { rewrite <- Z.mul_assoc, <- Z.pow_add_r by (subst ez; lia).
    f_equal. f_equal. lia. }
  assert (Eb : Zpos b * 2 ^ (53 - db) * 2 ^ (db - 53 - ez)
               = Zpos b * 2 ^ (- ez)).
  { rewrite <- Z.mul_assoc, <- Z.pow_add_r by (subst ez; lia).
    f_equal. f_equal. lia. }
  rewrite Ea, Eb, <- Z.mul_add_distr_r.
  change (Zpos a + Zpos b) with (Zpos (a + b)).
  assert (Pz : 0 < 2 ^ (- ez)) by (apply Z.pow_pos_nonneg; subst ez; lia).
  assert (PS : 0 < Zpos (a + b) * 2 ^ (- ez))
    by (apply Z.mul_pos_pos; [reflexivity | exact Pz]).
  destruct (Zpos (a + b) * 2 ^ (- ez)) as [| S | S] eqn:ES;
    [discriminate PS | | discriminate PS].
  symmetry in ES.
  cbn [binary_normalize]. unfold binary_round.
  assert (DS : Zpos (digits2_pos S) = dc + - ez)
    by (apply digits_mul_pow2; [subst ez; lia | exact ES]).
  rewrite DS.
  assert (Hf : fexp (dc + - ez + ez) = dc - 53).
  { unfold SpecFloat.fexp, SpecFloat.emin, prec, emax. lia. }
  rewrite Hf. unfold shl_align.
  assert (DC : Zpos (digits2_pos C) = 53).
  { rewrite (digits_mul_pow2 (a + b) C (53 - dc)); [fold dc | | exact HC]; lia. }
  destruct (dc - 53 - ez) as [| k | k] eqn:Ek; try (subst ez; lia).
  - replace (dc - 53) with (ez + 0) by lia.
    apply binary_round_aux_zeros; try lia.
    + rewrite ES, HC. change (2 ^ 0) with 1. rewrite Z.mul_1_r.
      f_equal. f_equal. lia.
    + rewrite DC. unfold SpecFloat.fexp, SpecFloat.emin, prec, emax. lia.
  - replace (dc - 53) with (ez + Zpos k) by lia.
    apply binary_round_aux_zeros; try lia.
    + rewrite ES, HC. rewrite <- Z.mul_assoc, <- Z.pow_add_r by lia.
      f_equal. f_equal. lia.
    + rewrite DC. unfold SpecFloat.fexp, SpecFloat.emin, prec, emax. lia.
Qed.

(** The sum of two integers is exact below [2^53]. *)
Lemma ofZ_add (a b : Z) :
  0 <= a -> 0 <= b -> a + b < 2 ^ 53 ->
  (JS.ofZ a + JS.ofZ b)%float = JS.ofZ (a + b).
Proof.
  intros Ha Hb Hab. apply Prim2SF_inj. rewrite add_spec. unfold SF64add.
  destruct a as [| a | a]; [| | lia].
  - change (Prim2SF (JS.ofZ 0)) with (S754_zero false).
    rewrite Z.add_0_l. destruct b as [| b | b]; [reflexivity | | lia].
    rewrite (ofZ_integer_form b) by lia. reflexivity.
  - destruct b as [| b | b]; [| | lia].
    + change (Prim2SF (JS.ofZ 0)) with (S754_zero false).
      rewrite Z.add_0_r, (ofZ_integer_form a) by lia. reflexivity.
    + rewrite (ofZ_integer_form a), (ofZ_integer_form b) by lia.
      change (Zpos a + Zpos b) with (Zpos (a + b)).
      rewrite (ofZ_integer_form (a + b)) by exact Hab.
      apply integer_form_add. exact Hab.
Qed.

Lemma truncate_ofZ (z : Z) : 0 <= z < 2 ^ 53 -> JS.truncate (JS.ofZ z) = z.
Proof.
  intros [Hlo Hhi]. destruct z as [| p | p]; [reflexivity | | lia].
  unfold JS.truncate. rewrite (ofZ_integer_form p Hhi).
  unfold integer_form. cbn [Zdigits2 cond_Zopp].
  pose proof (digits_53 p Hhi) as Hd.
  set (d := Zpos (digits2_pos p)) in *.
  assert (P : 0 < 2 ^ (53 - d)) by (apply Z.pow_pos_nonneg; lia).
  rewrite Z2Pos.id by nia.
  rewrite Z.shiftl_div_pow2 by lia.
  replace (- (d - 53)) with (53 - d) by lia.
  apply Z.div_mul. lia.
Qed.

(** *** Differences that are not zero *)

(** A shift to the target exponent never loses a whole positive
    mantissa, when the exponent is not below the least one. *)
Lemma shr_fexp_positive (m e : Z) :
  1 <= m -> -1074 <= e ->
  1 <= shr_m (fst (shr_fexp prec emax m e loc_Exact))
  /\ -1074 <= snd (shr_fexp prec emax m e loc_Exact).
Proof.
  intros Hm He.
  pose proof (shr_fexp_exact m e ltac:(lia)) as H. cbv zeta in H.
  destruct H as [Hle Hgt].
  destruct (Z.le_gt_cases (fexp (Zdigits2 m + e) - e) 0) as [Hn | Hn].
  - destruct (Hle Hn) as [-> ->]. cbn [shr_m]. lia.
  - destruct (Hgt Hn) as (-> & -> & _). split; [| lia].
    destruct m as [| p | p]; try lia. cbn [Zdigits2] in *.
    pose proof (digits_bounds p) as [Dlo _].
    set (d := Zpos (digits2_pos p)) in *.
    assert (Hf : fexp (d + e) = d + e - 53).
    { unfold SpecFloat.fexp, SpecFloat.emin, prec, emax in *. lia. }
    rewrite Hf in *.
    replace (d + e - 53 - e) with (d - 53) in * by lia.
    assert (P : 0 < 2 ^ (d - 53)) by (apply Z.pow_pos_nonneg; lia).
    assert (Hle2 : 2 ^ (d - 53) <= 2 ^ (d - 1))
      by (apply Z.pow_le_mono_r; lia).
    apply Z.div_le_lower_bound; lia.
Qed.

Lemma round_nearest_even_ge (m : Z) (l : location) :
  m <= round_nearest_even m l.
Proof.
  destruct l as [| [| |]]; cbn [round_nearest_even]; try lia.
  destruct (Z.even m); lia.
Qed.

(** The rounding of a positive mantissa at an exponent of the format is
    a non-zero number of the given sign, or the infinity of that sign. *)
Lemma binary_round_aux_nonzero (s : bool) (M : positive) (e : Z) :
  -1074 <= e ->
  binary_round_aux prec emax s (Zpos M) e loc_Exact = S754_infinity s
  \/ exists m' e', binary_round_aux prec emax s (Zpos M) e loc_Exact
                   = S754_finite s m' e'.
Proof.
  intros He. unfold binary_round_aux.
  pose proof (shr_fexp_positive (Zpos M) e ltac:(lia) He) as [H1 H1e].
  destruct (shr_fexp prec emax (Zpos M) e loc_Exact) as [r1 e1].
  cbn [fst snd] in *.
  pose proof (round_nearest_even_ge (shr_m r1) (loc_of_shr_record r1)) as Hr.
  set (mr := round_nearest_even (shr_m r1) (loc_of_shr_record r1)) in *.
  pose proof (shr_fexp_positive mr e1 ltac:(lia) H1e) as [H2 _].
  destruct (shr_fexp prec emax mr e1 loc_Exact) as [r2 e2].
  cbn [fst snd] in *.
  destruct (shr_m r2) as [| m' | m']; try lia.
  destruct (e2 <=? emax - prec); [right; eauto | left; reflexivity].
Qed.

Lemma binary_normalize_nonzero (D e : Z) :
  D <> 0 -> -1074 <= e ->
  zero_form (binary_normalize prec emax D e false) = false
  /\ binary_normalize prec emax D e false <> S754_nan.
Proof.
  intros HD He.
  assert (H : forall s P,
            zero_form (binary_round prec emax s P e) = false
            /\ binary_round prec emax s P e <> S754_nan).
  { intros s P. unfold binary_round.
    assert (He1 : -1074
                  <= snd (shl_align P e (fexp (Zpos (digits2_pos P) + e)))).
    { unfold shl_align.
      destruct (fexp (Zpos (digits2_pos P) + e) - e) eqn:E; cbn [snd]; try lia.
      unfold SpecFloat.fexp, SpecFloat.emin, prec, emax in *. lia. }
    destruct (shl_align P e (fexp (Zpos (digits2_pos P) + e))) as [mz ez].
    cbn [snd] in He1.
    destruct (binary_round_aux_nonzero s mz ez He1) as [-> | (m' & e' & ->)];
      split; try reflexivity; discriminate. }
  destruct D as [| P | P]; [contradiction | apply H | apply H].
Qed.

Lemma valid_canonical (x : float) (s : bool) (m : positive) (e : Z) :
  Prim2SF x = S754_finite s m e ->
  fexp (Zpos (digits2_pos m) + e) = e.
Proof.
  intros Hx. pose proof (Prim2SF_valid x) as Hv. rewrite Hx in Hv.
  cbn [SpecFloat.valid_binary] in Hv. unfold bounded, canonical_mantissa in Hv.
  apply andb_prop in Hv. destruct Hv as [Hc _].
  apply Z.eqb_eq in Hc. exact Hc.
Qed.

(** Two numbers with the same aligned mantissa are the same number. *)
Lemma aligned_equal (x y : float) (sx sy : bool) (mx my : positive)
    (ex ey : Z) :
  Prim2SF x = S754_finite sx mx ex -> Prim2SF y = S754_finite sy my ey ->
  Zpos mx * 2 ^ (ex - Z.min ex ey) = Zpos my * 2 ^ (ey - Z.min ex ey) ->
  ex = ey /\ mx = my.
Proof.
  intros Hx Hy H.
  pose proof (valid_canonical x sx mx ex Hx) as Cx.
  pose proof (valid_canonical y sy my ey Hy) as Cy.
  set (ez := Z.min ex ey) in *.
  assert (Px : 0 < 2 ^ (ex - ez)) by (apply Z.pow_pos_nonneg; lia).
  assert (Py : 0 < 2 ^ (ey - ez)) by (apply Z.pow_pos_nonneg; lia).
  destruct (Zpos mx * 2 ^ (ex - ez)) as [| A | A] eqn:EA; try nia.
  symmetry in EA.
  pose proof (digits_mul_pow2 mx A (ex - ez) ltac:(lia) EA) as Dx.
  pose proof (digits_mul_pow2 my A (ey - ez) ltac:(lia) H) as Dy.
  assert (Hd : Zpos (digits2_pos mx) + ex = Zpos (digits2_pos my) + ey) by lia.
  assert (He : ex = ey) by (rewrite <- Cx, <- Cy, Hd; reflexivity).
  split; [exact He |]. subst ey.
  apply Pos2Z.inj. nia.
Qed.

End Exact.

(** The difference of two finite numbers that are not equal is neither
    zero nor NaN. *)
Lemma sub_nonzero (x y : float) :
  is_finite x = true -> is_finite y = true -> (x =? y)%float = false ->
  ((y - x)%float =? 0)%float = false /\ is_nan (y - x) = false.
Proof.
  rewrite !is_finite_spec, is_zero_spec, eqb_spec. intros Fx Fy Hne.
  assert (Hgoal : zero_form (Prim2SF (y - x)) = false
                  /\ Prim2SF (y - x) <> S754_nan).
  { rewrite sub_spec. unfold SF64sub, SFeqb in *.
    destruct (Prim2SF x) as [sx | sx | | sx mx ex] eqn:Ex; try discriminate;
      destruct (Prim2SF y) as [sy | sy | | sy my ey] eqn:Ey; try discriminate.
    - split; [reflexivity | discriminate].
    - split; [reflexivity | discriminate].
    - unfold SFsub. apply Exact.binary_normalize_nonzero.
      + intros HD.
        rewrite !Exact.shl_align_value in HD by lia.
        assert (Px : 0 < 2 ^ (ex - Z.min ey ex))
          by (apply Z.pow_pos_nonneg; lia).
        assert (Py : 0 < 2 ^ (ey - Z.min ey ex))
          by (apply Z.pow_pos_nonneg; lia).
        assert (Hs : sx = sy)
          by (destruct sx, sy; cbn [cond_Zopp] in HD; nia || reflexivity).
        subst sy.
        assert (Hm : Zpos mx * 2 ^ (ex - Z.min ex ey)
                     = Zpos my * 2 ^ (ey - Z.min ex ey)).
        { rewrite (Z.min_comm ex ey). destruct sx; cbn [cond_Zopp] in HD; lia. }
        destruct (Exact.aligned_equal x y sx sx mx my ex ey Ex Ey Hm)
          as [-> ->].
        cbn [SFcompare] in Hne.
        rewrite Z.compare_refl, Pos.compare_cont_refl in Hne.
        destruct sx; discriminate.
      + destruct (Binary64.valid_finite x sx mx ex Ex) as (_ & Hex & _).
        destruct (Binary64.valid_finite y sy my ey Ey) as (_ & Hey & _). lia. }
  destruct Hgoal as [Hz Hn]. split; [exact Hz |].
  destruct (is_nan (y - x)) eqn:E; [| reflexivity].
  apply is_nan_spec in E. contradiction.
Qed.

(** ** Overflow of a square *)

Module Overflow.

Import Binary64.

(** The rounding of a mantissa that is not negative is never NaN. *)
Lemma binary_round_aux_not_nan (s : bool) (M : positive) (e : Z) :
  binary_round_aux prec emax s (Zpos M) e loc_Exact <> S754_nan.
Proof.
  unfold binary_round_aux.
  pose proof (shr_fexp_exact (Zpos M) e ltac:(lia)) as H1. cbv zeta in H1.
  destruct (shr_fexp prec emax (Zpos M) e loc_Exact) as [r1 e1].
  cbn [fst snd] in H1.
  assert (Hr1 : 0 <= shr_m r1).
  { destruct H1 as [Hle Hgt].
    destruct (Z.le_gt_cases (fexp (Zdigits2 (Zpos M) + e) - e) 0) as [Hn | Hn].
    - destruct (Hle Hn) as [-> _]. cbn [shr_m]. lia.
    - destruct (Hgt Hn) as (_ & -> & _). apply Z.div_pos; [lia |].
      apply Z.pow_pos_nonneg; lia. }
  pose proof (Exact.round_nearest_even_ge (shr_m r1) (loc_of_shr_record r1)) as Hr.
  set (mr := round_nearest_even (shr_m r1) (loc_of_shr_record r1)) in *.
  pose proof (shr_fexp_exact mr e1 ltac:(lia)) as H2. cbv zeta in H2.
  destruct (shr_fexp prec emax mr e1 loc_Exact) as [r2 e2].
  cbn [fst snd] in H2.
  assert (Hr2 : 0 <= shr_m r2).
  { destruct H2 as [Hle Hgt].
    destruct (Z.le_gt_cases (fexp (Zdigits2 mr + e1) - e1) 0) as [Hn | Hn].
    - destruct (Hle Hn) as [-> _]. cbn [shr_m]. lia.
    - destruct (Hgt Hn) as (_ & -> & _). apply Z.div_pos; [lia |].
      apply Z.pow_pos_nonneg; lia. }
  destruct (shr_m r2) as [| m' | m']; try lia; try discriminate.
  destruct (e2 <=? emax - prec); discriminate.
Qed.

(** The square of a number of size [2^512] or more is infinite. *)
Lemma square_overflow (s : bool) (m : positive) (e : Z) :
  2 ^ 52 <= Zpos m -> 460 <= e ->
  SFmul prec emax (S754_finite s m e) (S754_finite s m e)
  = S754_infinity false.
Proof.
  intros Hm He. cbn [SFmul]. rewrite xorb_nilpotent.
  unfold binary_round_aux.
  assert (HM : 2 ^ 104 <= Zpos (m * m)).
  { rewrite Pos2Z.inj_mul. change (2 ^ 104) with (2 ^ 52 * 2 ^ 52).
    apply Z.mul_le_mono_nonneg; lia. }
  pose proof (digits_bounds (m * m)) as [Dlo Dhi].
  set (d := Zpos (digits2_pos (m * m))) in *.
  assert (Hd : 105 <= d).
  { destruct (Z.le_gt_cases 105 d) as [| Hlt]; [assumption |].
    assert (2 ^ d <= 2 ^ 104) by (apply Z.pow_le_mono_r; lia). lia. }
  pose proof (shr_fexp_exact (Zpos (m * m)) (e + e) ltac:(lia)) as H1.
  cbv zeta in H1. cbn [Zdigits2] in H1. fold d in H1.
  pose proof (Exact.shr_fexp_positive (Zpos (m * m)) (e + e) ltac:(lia) ltac:(lia))
    as [P1 _].
  assert (Hn : fexp (d + (e + e)) - (e + e) = d - 53).
  { unfold SpecFloat.fexp, SpecFloat.emin, prec, emax. lia. }
  rewrite Hn in H1.
  destruct (shr_fexp prec emax (Zpos (m * m)) (e + e) loc_Exact) as [r1 e1].
  cbn [fst snd] in *.
  destruct H1 as [_ H1]. destruct (H1 ltac:(lia)) as (He1 & _ & _).
  pose proof (Exact.round_nearest_even_ge (shr_m r1) (loc_of_shr_record r1)) as Hr.
  set (mr := round_nearest_even (shr_m r1) (loc_of_shr_record r1)) in *.
  pose proof (shr_fexp_exact mr e1 ltac:(lia)) as H2. cbv zeta in H2.
  pose proof (Exact.shr_fexp_positive mr e1 ltac:(lia) ltac:(lia)) as [P2 _].
  destruct (shr_fexp prec emax mr e1 loc_Exact) as [r2 e2].
  cbn [fst snd] in *.
  assert (He2 : e1 <= e2).
  { destruct H2 as [Hle Hgt].
    destruct (Z.le_gt_cases (fexp (Zdigits2 mr + e1) - e1) 0) as [Hn2 | Hn2].
    - destruct (Hle Hn2) as [_ ->]. lia.
    - destruct (Hgt Hn2) as (-> & _). lia. }
  destruct (shr_m r2) as [| m' | m']; try lia.
  replace (e2 <=? emax - prec) with false; [reflexivity |].
  symmetry. apply Z.leb_gt. unfold emax, prec. lia.
Qed.

Lemma square_not_nan (X : spec_float) :
  X <> S754_nan -> SFmul prec emax X X <> S754_nan.
Proof.
  destruct X as [s | s | | s m e]; intros H; try contradiction;
    try (destruct s; discriminate).
  cbn [SFmul]. apply binary_round_aux_not_nan.
Qed.

Lemma large_square (x : float) :
  (0x1p512 <=? abs x)%float = true ->
  Prim2SF (x * x) = S754_infinity false.
Proof.
  rewrite leb_spec, abs_spec, mul_spec. unfold SFleb, SF64mul.
  change (Prim2SF 0x1p512) with (S754_finite false 4503599627370496 460).
  destruct (Prim2SF x) as [s | s | | s m e] eqn:E; cbn [SFabs SFcompare];
    try discriminate.
  - intros _. destruct s; reflexivity.
  - intros H.
    assert (He : 460 <= e).
    { revert H. destruct (Z.compare_spec 460 e) as [C | C | C]; intros H;
        [lia | lia | discriminate]. }
    destruct (valid_finite x s m e E) as (_ & _ & Hm).
    apply square_overflow; [apply Hm; lia | exact He].
Qed.

Lemma infinity_add_square (Y : spec_float) :
  Y <> S754_nan ->
  SFadd prec emax (S754_infinity false) (SFmul prec emax Y Y)
  = S754_infinity false
  /\ SFadd prec emax (SFmul prec emax Y Y) (S754_infinity false)
     = S754_infinity false.
Proof.
  intros HY. pose proof (square_positive Y) as Hp.
  pose proof (square_not_nan Y HY) as Hn.
  destruct (SFmul prec emax Y Y) as [s | s | | s m e]; try contradiction;
    cbn [positive_form] in Hp; apply negb_true_iff in Hp; subst s;
    split; reflexivity.
Qed.

End Overflow.

(** ** Further properties of the generator *)

Lemma toUint32_toInt32 (a : Z) : JS.toUint32 (JS.toInt32 a) = JS.toUint32 a.
Proof.
  unfold JS.toUint32, JS.toInt32.
  rewrite Zminus_mod_idemp_l. f_equal. lia.
Qed.

Lemma toUint32_lxor (a b : Z) :
  JS.toUint32 (Z.lxor a b) = Z.lxor (JS.toUint32 a) (JS.toUint32 b).
Proof.
  unfold JS.toUint32. rewrite <- !Z.land_ones by lia.
  apply Z.bits_inj'. intros n Hn.
  rewrite !Z.lxor_spec, !Z.land_spec, !Z.lxor_spec.
  destruct (Z.testbit (Z.ones 32) n);
    rewrite ?andb_true_r, ?andb_false_r; reflexivity.
Qed.

Lemma toUint32_xor (a b : Z) :
  JS.toUint32 (JS.xor a b) = Z.lxor (JS.toUint32 a) (JS.toUint32 b).
Proof.
  unfold JS.xor. rewrite toUint32_lxor, !toUint32_toInt32. reflexivity.
Qed.

Lemma ushr_0 (a : Z) : JS.ushr a 0 = JS.toUint32 a.
Proof. unfold JS.ushr. apply Z.shiftr_0_r. Qed.

Lemma toUint32_idem (a : Z) : JS.toUint32 (JS.toUint32 a) = JS.toUint32 a.
Proof. unfold JS.toUint32. apply Z.mod_mod. discriminate. Qed.

Lemma toInt32_mod (t : Z) : JS.toInt32 (t mod 2 ^ 32) = JS.toInt32 t.
Proof.
  unfold JS.toInt32. rewrite Zplus_mod_idemp_l. reflexivity.
Qed.

Lemma toUint32_mod (t : Z) : JS.toUint32 (t mod 2 ^ 32) = JS.toUint32 t.
Proof. unfold JS.toUint32. apply Z.mod_mod. discriminate. Qed.

(** X1.  [cyrb128] returns four words of 32 bits, whatever the string,
    and the first is the exclusive or of the three others: in
    JavaScript, [(h[1] ^ h[2] ^ h[3]) >>> 0 === h[0]]. *)
Theorem cyrb128_lanes (str : JS.jsstring) :
  exists o0 o1 o2 o3,
    cyrb128 str = [o0; o1; o2; o3]
    /\ Forall (fun o => 0 <= o < 2 ^ 32) (cyrb128 str)
    /\ o0 = JS.ushr (JS.xor (JS.xor o1 o2) o3) 0.
Proof.
  unfold cyrb128. cbv zeta.
  set (h := fold_left cyrb128_step str _).
  set (H1 := JS.imul (JS.xor (h3 h) (JS.ushr (h1 h) 18)) 597399067).
  set (H2 := JS.imul (JS.xor (h4 h) (JS.ushr (h2 h) 22)) 2869860233).
  set (H3 := JS.imul (JS.xor H1 (JS.ushr (h3 h) 17)) 951274213).
  set (H4 := JS.imul (JS.xor H2 (JS.ushr (h4 h) 19)) 2716044179).
  do 4 eexists. split; [reflexivity |]. split.
  - repeat constructor; apply ushr_range.
  - rewrite !ushr_0, !toUint32_xor, !toUint32_lxor, !toUint32_idem.
    set (u1 := JS.toUint32 H1). set (u2 := JS.toUint32 H2).
    set (u3 := JS.toUint32 H3). set (u4 := JS.toUint32 H4).
    apply Z.bits_inj'. intros n _. rewrite !Z.lxor_spec.
    destruct (Z.testbit u1 n), (Z.testbit u2 n), (Z.testbit u3 n),
      (Z.testbit u4 n); reflexivity.
Qed.

Lemma draws_seeded_fractions (n : nat) (a : float) (w : world) :
  Forall (fun x => exists u, 0 <= u < 2 ^ 32
                             /\ x = (JS.ofZ u / 4294967296)%float)
         (draws n (Seeded a) w).
Proof.
  revert a. induction n as [| n IH]; intros a; [constructor |].
  cbn [draws next draw]. unfold mulberry32. constructor; [| apply IH].
  eexists. split; [apply mulberry32_word_range | reflexivity].
Qed.

(** X2.  Every value that a zero-argument call of a seeded generator
    returns is [u / 2^32] for a 32-bit word [u]: a binary64 number of
    [0, 1), however many values have been drawn. *)
Theorem seeded_draws_are_fractions (seed : JS.jsstring) (n : nat)
    (w : world) :
  seed <> [] ->
  Forall (fun x => unit_interval x
                   /\ exists u, 0 <= u < 2 ^ 32
                                /\ x = (JS.ofZ u / 4294967296)%float)
         (draws n (createRandom seed) w).
Proof.
  intros Hne. destruct (createRandom_seeded seed Hne) as [a ->].
  pose proof (draws_seeded_fractions n a w) as Hf.
  induction Hf as [| x l (u & Hu & ->) _ IH]; constructor; [| exact IH].
  split; [apply fraction_unit, Hu | exists u; split; [exact Hu | reflexivity]].
Qed.

Lemma seeded_draws_are_fractions_witness :
  Forall (fun x => unit_interval x
                   /\ exists u, 0 <= u < 2 ^ 32
                                /\ x = (JS.ofZ u / 4294967296)%float)
         (draws 3 (createRandom (JS.utf16 "abc")) (fun _ => 0%float)).
Proof.
  apply (seeded_draws_are_fractions (JS.utf16 "abc") 3 (fun _ => 0%float)).
  discriminate.
Defined.

(** The word of a draw depends on the accumulator through its low 32
    bits only. *)
Lemma mulberry32_word_mod (t : Z) :
  0 <= t < 2 ^ 53 ->
  mulberry32_word (JS.ofZ t) = mulberry32_word (JS.ofZ (t mod 2 ^ 32)).
Proof.
  intros Ht.
  assert (Hm : 0 <= t mod 2 ^ 32 < 2 ^ 53).
  { pose proof (Z.mod_pos_bound t (2 ^ 32) ltac:(reflexivity)).
    assert (2 ^ 32 < 2 ^ 53) by reflexivity. lia. }
  unfold mulberry32_word. rewrite !Exact.truncate_ofZ by assumption.
  cbv zeta. unfold JS.xor, JS.ushr, JS.or.
  rewrite !toInt32_mod, !toUint32_mod. reflexivity.
Qed.

(** The accumulator of [mulberry32] is a number, and [a += 0x6d2b79f5]
    adds without wrapping: below [2^53] the sum is exact. *)
Lemma mulberry32_next (z : Z) :
  0 <= z -> z + 1831565813 < 2 ^ 53 ->
  mulberry32 (JS.ofZ z)
  = ((JS.ofZ (mulberry32_word (JS.ofZ (z + 1831565813))) / 4294967296)%float,
     JS.ofZ (z + 1831565813)).
Proof.
  intros Hz Hb. unfold mulberry32.
  change 1831565813%float with (JS.ofZ 1831565813).
  rewrite Exact.ofZ_add by lia. reflexivity.
Qed.

Lemma draws_closed_form (n : nat) (z : Z) (w : world) :
  0 <= z -> z + Z.of_nat n * 1831565813 < 2 ^ 53 ->
  draws n (Seeded (JS.ofZ z)) w
  = List.map
      (fun k => (JS.ofZ (mulberry32_word
                   (JS.ofZ ((z + (Z.of_nat k + 1) * 1831565813) mod 2 ^ 32)))
                 / 4294967296)%float)
      (seq 0 n).
Proof.
  revert z. induction n as [| n IH]; intros z Hz Hb; [reflexivity |].
  cbn [draws next draw]. rewrite mulberry32_next by lia.
  rewrite IH by lia.
  rewrite <- cons_seq, <- seq_shift. cbn [List.map]. rewrite map_map.
  f_equal.
  - rewrite <- mulberry32_word_mod by lia. reflexivity.
  - apply map_ext. intros k.
    replace (z + 1831565813 + (Z.of_nat k + 1) * 1831565813)
      with (z + (Z.of_nat (S k) + 1) * 1831565813) by lia.
    reflexivity.
Qed.

(** X3.  The first 4917756 values of a seeded generator in closed form.
    With [h = cyrb128(seed)[0]], the value number [k] (from 0) is the
    word that [mulberry32] makes of the 32-bit state
    [(h + (k + 1) * 0x6d2b79f5) mod 2^32], divided by [2^32]: the
    accumulator grows without wrapping, its sums are exact as long as
    they stay below [2^53], and a draw reads its low 32 bits only.  So a
    value can be computed without the values before it, and the sequence
    is the one of a [mulberry32] whose state is kept on 32 bits. *)
Theorem seeded_draws_closed_form (seed : JS.jsstring) (w : world) (n : nat) :
  seed <> [] -> Z.of_nat n <= 4917756 ->
  let h := nth 0 (cyrb128 seed) 0 in
  draws n (createRandom seed) w
  = List.map
      (fun k => (JS.ofZ (mulberry32_word
                   (JS.ofZ ((h + (Z.of_nat k + 1) * 1831565813) mod 2 ^ 32)))
                 / 4294967296)%float)
      (seq 0 n).
Proof.
  intros Hne Hn h. destruct seed as [| k seed]; [contradiction |].
  unfold createRandom, _createRandom. fold h.
  assert (Hh : 0 <= h < 2 ^ 32).
  { subst h. unfold cyrb128. cbv zeta. cbn [nth]. apply ushr_range. }
  apply draws_closed_form; [lia |].
  assert (E32 : 2 ^ 32 = 4294967296) by reflexivity.
  assert (E53 : 2 ^ 53 = 9007199254740992) by reflexivity.
  rewrite E32 in Hh. rewrite E53. lia.
Qed.

Lemma seeded_draws_closed_form_witness :
  let h := nth 0 (cyrb128 (JS.utf16 "abc")) 0 in
  draws 3 (createRandom (JS.utf16 "abc")) (fun _ => 0%float)
  = List.map
      (fun k => (JS.ofZ (mulberry32_word
                   (JS.ofZ ((h + (Z.of_nat k + 1) * 1831565813) mod 2 ^ 32)))
                 / 4294967296)%float)
      (seq 0 3).
Proof.
  apply (seeded_draws_closed_form (JS.utf16 "abc") (fun _ => 0%float) 3).
  - discriminate.
  - cbn. lia.
Defined.

(** X4.  With the empty seed, the default, the generator is
    [Math.random] itself: its zero-argument calls return the values of
    [Math.random], in their order, one per call. *)
Theorem unseeded_draws_follow_the_platform (n : nat) (w : world) :
  draws n (createRandom []) w = List.map w (seq 0 n).
Proof.
  change (createRandom []) with Platform.
  revert w. induction n as [| n IH]; intros w; [reflexivity |].
  cbn [draws next draw Math_random]. rewrite IH.
  rewrite <- cons_seq, <- seq_shift. cbn [List.map]. rewrite map_map.
  reflexivity.
Qed.

(** X5.  A call with an argument missing: when one of the two argument
    slots holds [undefined] (as in [random(5)]) the call returns NaN,
    and still takes a value from the generator. *)
Theorem next_missing_bound (args : list JS.value) (r : rng) (w : world) :
  args <> [] ->
  nth 0 args JS.Undefined = JS.Undefined
  \/ nth 1 args JS.Undefined = JS.Undefined ->
  next args r w = let '(x, r', w') := draw r w in (nan, r', w').
Proof.
  intros Hne Hu. destruct args as [| v1 rest]; [contradiction |].
  cbn [next]. destruct (draw r w) as [[x r'] w'].
  unfold scale. cbn [nadd nsub nmul binary64].
  destruct Hu as [-> | ->]; cbn [JS.toNumber].
  - rewrite add_nan_r. reflexivity.
  - rewrite sub_nan_l, mul_nan_r, add_nan_l. reflexivity.
Qed.

Lemma next_missing_bound_witness :
  next [JS.Num 5] (createRandom (JS.utf16 "abc")) (fun _ => 0%float)
  = let '(x, r', w') :=
      draw (createRandom (JS.utf16 "abc")) (fun _ => 0%float) in
    (nan, r', w').
Proof.
  apply (next_missing_bound [JS.Num 5]).
  - discriminate.
  - right. reflexivity.
Defined.

(** X6.  An empty range: [random(a, a)] returns [a], for a finite [a]
    and a generator whose draw is finite. *)
Theorem next_empty_range (a : float) (r : rng) (w : world) :
  is_finite a = true -> is_finite (fst (fst (draw r w))) = true ->
  (fst (fst (next [JS.Num a; JS.Num a] r w)) =? a)%float = true.
Proof.
  intros Ha Hx. cbn [next nth JS.toNumber].
  destruct (draw r w) as [[x r'] w']. cbn [fst] in *.
  unfold scale. cbn [nadd nsub nmul binary64].
  rewrite (finite_sub_self a Ha).
  apply add_zero_eqb; [apply finite_not_nan, Ha |].
  apply (zero_mul_finite 0 x); [reflexivity | exact Hx].
Qed.

Lemma next_empty_range_witness :
  (fst (fst (next [JS.Num 7; JS.Num 7] (createRandom (JS.utf16 "abc"))
               (fun _ => 0%float))) =? 7)%float = true.
Proof.
  apply (next_empty_range 7 (createRandom (JS.utf16 "abc")) (fun _ => 0%float));
    reflexivity.
Defined.

(** ** Further properties of the permutation table and of the noise *)

Lemma state_before_succ {St : Type} (random : St -> float * St) (s : St)
    (n : nat) :
  state_before random s (S n) = snd (random (state_before random s n)).
Proof. reflexivity. Qed.

Lemma shuffle_loop_state {St : Type} (random : St -> float * St)
    (p : list Z) (s : St) (n : nat) :
  snd (JS.for_range 0 n (shuffle_step random) (p, s))
  = state_before random s n.
Proof.
  induction n as [| n IH]; [reflexivity |].
  rewrite for_range_succ, state_before_succ, <- IH.
  destruct (JS.for_range 0 n (shuffle_step random) (p, s)) as [q s'].
  unfold shuffle_step. cbn [snd]. destruct (random s') as [x s'']. reflexivity.
Qed.

(** X7.  [buildPermutationTable], and so [createNoise3D], calls the
    draw function exactly 255 times, whatever it returns: it leaves the
    draw function in the state that 255 calls lead to. *)
Theorem buildPermutationTable_draws {St : Type} (random : St -> float * St)
    (s : St) :
  snd (buildPermutationTable random s) = state_before random s 255
  /\ snd (createNoise3D random s) = state_before random s 255.
Proof.
  assert (H : snd (buildPermutationTable random s) = state_before random s 255).
  { unfold buildPermutationTable. cbv zeta.
    set (filled := JS.for_range 0 _ _ (repeat 0 _)).
    pose proof (shuffle_loop_state random filled s 255) as Hs.
    change (Z.to_nat (512 / 2 - 1)) with 255%nat.
    destruct (JS.for_range 0 255 (shuffle_step random) (filled, s)) as [p s'].
    exact Hs. }
  split; [exact H |].
  unfold createNoise3D.
  destruct (buildPermutationTable random s) as [p s']. exact H.
Qed.

(** The loop that copies the first half behind itself, on any table of
    512 bytes. *)
Lemma mirror_loop_any (p : list Z) :
  byte_table p ->
  JS.for_range 256 256 (fun i p => JS.set_u8 p i (JS.get p (i - 256))) p
  = firstn 256 p ++ firstn 256 p.
Proof.
  intros [Hlen Hbytes].
  set (q := firstn 256 p). set (t := skipn 256 p).
  assert (Hp : p = q ++ t) by (symmetry; apply firstn_skipn).
  assert (Hq : List.length q = 256%nat)
    by (subst q; rewrite length_firstn; lia).
  assert (Ht : List.length t = 256%nat)
    by (subst t; rewrite length_skipn; lia).
  assert (Hqb : Forall (fun v => 0 <= v < 256) q).
  { rewrite Hp in Hbytes. apply Forall_app in Hbytes. apply Hbytes. }
  assert (Hk : forall k, (k <= 256)%nat ->
            JS.for_range 256 k
              (fun i p => JS.set_u8 p i (JS.get p (i - 256))) p
            = q ++ firstn k q ++ skipn k t).
  { induction k as [| k IH]; intros Hle; [exact Hp |].
    rewrite for_range_succ, IH by lia.
    replace (256 + Z.of_nat k - 256) with (Z.of_nat k) by lia.
    rewrite get_app_l by lia. rewrite get_nth_error.
    destruct (nth_error q k) as [v |] eqn:Hv;
      [| apply nth_error_None in Hv; lia].
    assert (Hvb : 0 <= v < 256).
    { rewrite Forall_forall in Hqb. apply Hqb.
      apply nth_error_In with k. exact Hv. }
    rewrite set_u8_in; [| | exact Hvb].
    - replace (Z.to_nat (256 + Z.of_nat k)) with (List.length q + k)%nat
        by lia.
      rewrite update_app_r.
      pose proof (update_app_r (firstn k q) (skipn k t) 0 v) as Hu.
      rewrite length_firstn in Hu.
      replace (Nat.min k (List.length q) + 0)%nat with k in Hu by lia.
      rewrite Hu.
      destruct (skipn k t) as [| c rest] eqn:Hs.
      { apply (f_equal (@List.length Z)) in Hs.
        rewrite length_skipn, Ht in Hs. cbn [List.length] in Hs. lia. }
      assert (Hrest : skipn (S k) t = rest).
      { replace (S k) with (1 + k)%nat by lia.
        rewrite <- skipn_skipn, Hs. reflexivity. }
      rewrite Hrest. cbn [JS.update].
      rewrite (firstn_succ_nth_error q k v Hv), <- app_assoc. reflexivity.
    - rewrite !length_app, length_firstn, length_skipn. lia. }
  rewrite (Hk 256%nat) by lia.
  rewrite skipn_all2 by lia. rewrite <- Hq, firstn_all, app_nil_r.
  reflexivity.
Qed.

Lemma shuffled_bytes {St : Type} (random : St -> float * St) (s : St)
    (n : nat) (p : list Z) :
  byte_table p ->
  byte_table (fst (JS.for_range 0 n (shuffle_step random) (p, s))).
Proof.
  intros Hp.
  apply (for_range_invariant (fun st => byte_table (fst st))); [exact Hp |].
  intros i [q s0] Ha. unfold shuffle_step.
  destruct (random s0) as [x s1]. cbn [fst] in *.
  apply set_u8_bytes, set_u8_bytes, Ha.
Qed.

Lemma buildPermutationTable_doubled {St : Type} (random : St -> float * St)
    (s : St) :
  exists q, fst (buildPermutationTable random s) = q ++ q
            /\ List.length q = 256%nat
            /\ Forall (fun v => 0 <= v < 256) q.
Proof.
  unfold buildPermutationTable. cbv zeta.
  set (filled := JS.for_range 0 _ _ (repeat 0 _)).
  assert (H1 : byte_table filled).
  { apply for_range_invariant.
    - split; [reflexivity |]. apply Forall_forall.
      intros v Hv. apply repeat_spec in Hv. lia.
    - intros i a Ha. apply set_u8_bytes, Ha. }
  pose proof (shuffled_bytes random s (Z.to_nat (512 / 2 - 1)) filled H1) as H2.
  destruct (JS.for_range 0 (Z.to_nat (512 / 2 - 1)) (shuffle_step random)
              (filled, s)) as [p s'].
  cbn [fst] in *. change (Z.to_nat (512 - 256)) with 256%nat.
  rewrite (mirror_loop_any p H2). destruct H2 as [Hlen Hb].
  exists (firstn 256 p). split; [reflexivity | split].
  - rewrite length_firstn. lia.
  - rewrite <- (firstn_skipn 256 p) in Hb. apply Forall_app in Hb. apply Hb.
Qed.

(** X8.  What the table is for any draw function, also one that
    returns numbers outside [0, 1), infinities or NaN: 512 entries, each
    a byte, the entry [i] of 256..511 equal to the entry [i - 256].  (The
    first half is then no longer a permutation in general.) *)
Theorem buildPermutationTable_shape {St : Type} (random : St -> float * St)
    (s : St) :
  let p := fst (buildPermutationTable random s) in
  List.length p = 512%nat
  /\ Forall (fun v => 0 <= v < 256) p
  /\ forall i, 256 <= i < 512 -> JS.get p i = JS.get p (i - 256).
Proof.
  intros p. subst p.
  destruct (buildPermutationTable_doubled random s) as (q & -> & Hlen & Hb).
  split; [rewrite length_app; lia | split].
  - apply Forall_app. split; exact Hb.
  - intros i Hi.
    rewrite (get_app_l q q (i - 256)) by lia.
    rewrite get_in_range by (rewrite length_app; lia).
    rewrite get_in_range by lia.
    rewrite nth_error_app2 by lia. f_equal. lia.
Qed.

(** X9.  The noise function that [createNoise3D] builds from any draw
    function reads its tables at indices of 0..511 only, at every
    point: no read of [perm] or of a gradient table leaves the array,
    whatever the draw function returned and whatever the coordinates
    are. *)
Theorem createNoise3D_reads_in_bounds {St : Type}
    (random : St -> float * St) (s : St) (x y z : float) :
  let T := fst (createNoise3D random s) in
  Forall (fun i => 0 <= i <= 511) (fst (noise3D T x y z)).
Proof.
  intros T. subst T. unfold createNoise3D.
  pose proof (buildPermutationTable_bytes random s) as Hb.
  destruct (buildPermutationTable random s) as [p s']. cbn [fst] in *.
  destruct (noise3D_returns p x y z Hb) as [Hreads _]. exact Hreads.
Qed.

Lemma gradient_table_entry (p : list Z) (c i : Z) :
  0 <= i < Z.of_nat (List.length p) ->
  entry (gradient_table p c) nan i
  = nth (Z.to_nat ((entry p 0 i mod 12) * 3 + c)) grad3 nan.
Proof.
  intros Hi. unfold entry, gradient_table.
  set (f := fun v => nth (Z.to_nat (v mod 12 * 3 + c)) grad3 nan).
  rewrite (nth_indep _ nan (f 0)) by (rewrite length_map; lia).
  apply map_nth.
Qed.

(** X10.  The gradient tables that [createNoise3D] builds hold, at
    every index of 0..511, one of the twelve vectors of [grad3]: the
    reads [grad3[(v % 12) * 3 + c]] stay inside [grad3], so that no
    gradient component is [undefined], for any draw function. *)
Theorem gradients_are_edges {St : Type} (random : St -> float * St) (s : St)
    (i : Z) :
  0 <= i <= 511 ->
  let T := fst (createNoise3D random s) in
  In (entry (permGrad3x T) nan i, entry (permGrad3y T) nan i,
      entry (permGrad3z T) nan i)
     (triples grad3).
Proof.
  intros Hi T. subst T. unfold createNoise3D.
  pose proof (buildPermutationTable_bytes random s) as Hb.
  destruct (buildPermutationTable random s) as [p s']. cbn [fst] in *.
  pose proof Hb as [Hlen _].
  cbn [tables_of permGrad3x permGrad3y permGrad3z].
  rewrite !gradient_table_entry by lia.
  pose proof (Z.mod_pos_bound (entry p 0 i) 12 ltac:(lia)) as Hm.
  set (k := entry p 0 i mod 12) in *.
  assert (Hk : k = 0 \/ k = 1 \/ k = 2 \/ k = 3 \/ k = 4 \/ k = 5 \/ k = 6
               \/ k = 7 \/ k = 8 \/ k = 9 \/ k = 10 \/ k = 11) by lia.
  clearbody k.
  repeat (destruct Hk as [-> | Hk]); try subst k; cbn; tauto.
Qed.

Lemma gradients_are_edges_witness :
  let T := fst (createNoise3D draw_function
                  (createRandom (JS.utf16 "n"), fun _ => 0%float)) in
  In (entry (permGrad3x T) nan 300, entry (permGrad3y T) nan 300,
      entry (permGrad3z T) nan 300)
     (triples grad3).
Proof.
  apply (gradients_are_edges draw_function
           (createRandom (JS.utf16 "n"), fun _ => 0%float) 300).
  lia.
Defined.

Lemma falloff_nan (dx dy dz : float) :
  is_nan dx = true \/ is_nan dy = true \/ is_nan dz = true ->
  (0.6 - dx * dx - dy * dy - dz * dz)%float = nan.
Proof.
  intros [H | [H | H]]; apply is_nan_eq in H; subst.
  - rewrite mul_nan_l, sub_nan_r, !sub_nan_l. reflexivity.
  - rewrite mul_nan_l, sub_nan_r, !sub_nan_l. reflexivity.
  - rewrite mul_nan_l, sub_nan_r. reflexivity.
Qed.

Lemma contribution_nan (g : float * float * float) (dx dy dz : float) :
  is_nan dx = true \/ is_nan dy = true \/ is_nan dz = true ->
  contribution g dx dy dz = nan.
Proof.
  intros H. unfold contribution. destruct g as [[gx gy] gz].
  rewrite (falloff_nan dx dy dz H).
  change (nan <? 0)%float with false. cbv iota.
  change (nan * nan)%float with nan. rewrite !mul_nan_l. reflexivity.
Qed.

Lemma cell_offsets_nan (x y z : float) :
  is_nan x = true \/ is_nan y = true \/ is_nan z = true ->
  let c := cellOf x y z in
  is_nan (x0 c) = true \/ is_nan (y0 c) = true \/ is_nan (z0 c) = true.
Proof.
  intros H c. subst c. unfold cellOf. cbv zeta. cbn [x0 y0 z0].
  destruct H as [H | [H | H]]; apply is_nan_eq in H; subst;
    rewrite sub_nan_l; [left | right; left | right; right]; reflexivity.
Qed.

Lemma noise3D_spec_nan (T : tables) (x y z : float) :
  is_nan x = true \/ is_nan y = true \/ is_nan z = true ->
  noise3D_spec T x y z = nan.
Proof.
  intros H. unfold noise3D_spec. cbv zeta.
  pose proof (cell_offsets_nan x y z H) as Hc. cbv zeta in Hc.
  set (c := cellOf x y z) in *. unfold corners.
  destruct (simplexOrder (x0 c) (y0 c) (z0 c)) as [[[i1 j1] k1] [[i2 j2] k2]].
  cbn [List.map corner_value].
  rewrite (contribution_nan _ _ _ _ Hc).
  rewrite !add_nan_l, mul_nan_r. reflexivity.
Qed.

(** X11.  NaN in, NaN out: when a coordinate is NaN the noise is NaN.
    [fastFloor] turns NaN into the cell 0, but the offsets of the point
    stay NaN, the falloff of the first corner is NaN, which is not
    [< 0], and its contribution is NaN. *)
Theorem noise3D_nan {St : Type} (random : St -> float * St) (s : St)
    (x y z : float) :
  is_nan x = true \/ is_nan y = true \/ is_nan z = true ->
  snd (noise3D (fst (createNoise3D random s)) x y z) = Some nan.
Proof.
  intros H. unfold createNoise3D.
  pose proof (buildPermutationTable_bytes random s) as Hb.
  destruct (buildPermutationTable random s) as [p s']. cbn [fst] in *.
  destruct (noise3D_returns p x y z Hb) as [_ (v & Hv & ->)].
  rewrite Hv, noise3D_spec_nan by exact H. reflexivity.
Qed.

Lemma noise3D_nan_witness :
  snd (noise3D (fst (createNoise3D draw_function
                       (createRandom (JS.utf16 "n"), fun _ => 0%float)))
         0.5 nan 2)
  = Some nan.
Proof.
  apply (noise3D_nan draw_function
           (createRandom (JS.utf16 "n"), fun _ => 0%float) 0.5 nan 2).
  right. left. reflexivity.
Defined.

(** An invariant that knows the number of the turn. *)
Lemma for_range_indexed {St : Type} (Inv : nat -> St -> Prop) (lo : Z)
    (n : nat) (body : Z -> St -> St) (st : St) :
  Inv O st ->
  (forall k a, (k < n)%nat -> Inv k a -> Inv (S k) (body (lo + Z.of_nat k) a)) ->
  Inv n (JS.for_range lo n body st).
Proof.
  intros H0 Hstep. induction n as [| n IH]; [exact H0 |].
  rewrite for_range_succ. apply Hstep; [lia |].
  apply IH. intros k a Hk. apply Hstep. lia.
Qed.

Lemma truncate_nan_or_zero (x : float) (m : Z) :
  1 <= m <= 256 ->
  is_nan x = true \/ (x =? 0)%float = true ->
  JS.int32 (x * JS.ofZ m) = 0.
Proof.
  intros Hm Hx.
  destruct (Binary64.small_int_spec m Hm) as (my & ey & Hy & _).
  unfold JS.int32, JS.truncate. rewrite mul_spec, Hy. unfold SF64mul.
  destruct Hx as [Hx | Hx].
  - apply is_nan_spec in Hx. rewrite Hx. reflexivity.
  - rewrite is_zero_spec in Hx.
    destruct (Prim2SF x) as [s | | |]; try discriminate. reflexivity.
Qed.

Lemma set_u8_same (p : list Z) (i : Z) :
  Forall (fun v => 0 <= v < 256) p ->
  JS.set_u8 p i (JS.get p i) = p.
Proof.
  intros Hb. unfold JS.set_u8, JS.get.
  destruct ((0 <=? i) && (i <? Z.of_nat (List.length p))) eqn:E;
    [| reflexivity].
  destruct (nth_error p (Z.to_nat i)) as [v |] eqn:Hv.
  - cbn [JS.toUint8]. rewrite Z.mod_small.
    + apply update_same. exact Hv.
    + rewrite Forall_forall in Hb. apply Hb. apply nth_error_In with (Z.to_nat i).
      exact Hv.
  - apply nth_error_None in Hv.
    apply andb_prop in E. destruct E as [E1 E2].
    apply Z.leb_le in E1. apply Z.ltb_lt in E2. lia.
Qed.

(** X23.  A draw function that only returns NaN or zeros leaves the
    table as it was filled: every swap is of an entry with itself,
    because [~~(NaN * n)] and [~~(0 * n)] are 0, and the table is the
    identity on 0..255, twice. *)
Theorem degenerate_draws_give_identity {St : Type}
    (random : St -> float * St) (s : St) :
  (forall n, is_nan (output random s n) = true
             \/ (output random s n =? 0)%float = true) ->
  fst (buildPermutationTable random s)
  = List.map Z.of_nat (seq 0 256 ++ seq 0 256).
Proof.
  intros Hout. unfold buildPermutationTable. cbv zeta. rewrite initial_table.
  change (Z.to_nat (512 / 2 - 1)) with 255%nat.
  change (Z.to_nat (512 - 256)) with 256%nat.
  set (id256 := List.map Z.of_nat (seq 0 256)).
  pose proof (for_range_indexed
    (fun k st => fst st = id256 ++ repeat 0 256
                 /\ snd st = state_before random s k)
    0 255 (shuffle_step random) (id256 ++ repeat 0 256, s)) as Hloop.
  destruct Hloop as [Hp _].
  - split; reflexivity.
  - intros k [p s'] Hk [Hp Hs]. cbn [fst snd] in *. subst p.
    unfold shuffle_step.
    pose proof (Hout k) as Hx. unfold output in Hx. rewrite <- Hs in Hx.
    change (state_before random s (S k)) with (snd (random (state_before random s k))). rewrite <- Hs.
    destruct (random s') as [x s'']. cbn [fst snd] in *.
    rewrite (truncate_nan_or_zero x (256 - (0 + Z.of_nat k))) by (lia || exact Hx).
    rewrite Z.add_0_r.
    assert (Hb : Forall (fun v => 0 <= v < 256) (id256 ++ repeat 0 256)).
    { apply Forall_app. split; [apply identity_bytes |].
      apply Forall_forall. intros v Hv. apply repeat_spec in Hv. lia. }
    rewrite (set_u8_same _ _ Hb), (set_u8_same _ _ Hb). split; reflexivity.
  - destruct (JS.for_range 0 255 (shuffle_step random) (id256 ++ repeat 0 256, s))
      as [p s'].
    cbn [fst] in *. subst p.
    rewrite mirror_loop; [| reflexivity | apply identity_bytes].
    subst id256. rewrite map_app. reflexivity.
Qed.

Lemma degenerate_draws_give_identity_witness :
  fst (buildPermutationTable (fun s : unit => (nan, s)) tt)
  = List.map Z.of_nat (seq 0 256 ++ seq 0 256).
Proof.
  apply (degenerate_draws_give_identity (fun s : unit => (nan, s)) tt).
  intros n. left. reflexivity.
Defined.

Lemma direction_counts_identity (k : Z) :
  0 <= k < 12 ->
  count_occ Z.eq_dec
    (List.map (fun v => v mod 12) (List.map Z.of_nat (seq 0 256))) k
  = (if (k <? 4)%Z then 22%nat else 21%nat).
Proof.
  intros Hk.
  assert (H : k = 0 \/ k = 1 \/ k = 2 \/ k = 3 \/ k = 4 \/ k = 5 \/ k = 6
              \/ k = 7 \/ k = 8 \/ k = 9 \/ k = 10 \/ k = 11) by lia.
  repeat (destruct H as [-> | H]); try subst k; vm_compute; reflexivity.
Qed.

(** X24.  The gradients are not used evenly.  [createNoise3D] gives the
    table entry [v] the gradient number [v % 12]; as the first 256
    entries are the values 0..255 in some order, the numbers 0..3 are
    each given to 22 entries and the numbers 4..11 to 21, for any draw
    function with values in [0, 1). *)
Theorem gradient_directions_count {St : Type} (random : St -> float * St)
    (s : St) (k : Z) :
  (forall n, unit_interval (output random s n)) -> 0 <= k < 12 ->
  let T := fst (createNoise3D random s) in
  count_occ Z.eq_dec (List.map (fun v => v mod 12) (firstn 256 (perm T))) k
  = (if (k <? 4)%Z then 22%nat else 21%nat).
Proof.
  intros Hu Hk T. subst T. unfold createNoise3D.
  destruct (buildPermutationTable_refines random s Hu) as [_ (q & Hq & Hp)].
  destruct (buildPermutationTable random s) as [p s']. cbn [fst] in *.
  subst p. cbn [tables_of perm].
  assert (Hlen : List.length q = 256%nat)
    by (rewrite (Permutation_length Hp); reflexivity).
  rewrite firstn_app, Hlen, Nat.sub_diag, firstn_all2 by lia.
  cbn [firstn]. rewrite app_nil_r.
  rewrite (Permutation_count_occ Z.eq_dec) in Hp.
  rewrite <- (direction_counts_identity k Hk).
  apply (Permutation_count_occ Z.eq_dec).
  apply Permutation_map. apply (Permutation_count_occ Z.eq_dec). exact Hp.
Qed.

Lemma gradient_directions_count_witness :
  let T := fst (createNoise3D draw_function
                  (createRandom (JS.utf16 "n"), fun _ => 0%float)) in
  count_occ Z.eq_dec (List.map (fun v => v mod 12) (firstn 256 (perm T))) 7
  = 21%nat.
Proof.
  apply (gradient_directions_count draw_function
           (createRandom (JS.utf16 "n"), fun _ => 0%float) 7).
  - intros n. apply draw_function_unit. discriminate.
  - lia.
Defined.

(** ** Further properties of the curl *)

Lemma curlNoise3_zero_step_any (x y z : float)
    (noiseVec3 : @vec3 float -> @vec3 float) (outScale : float)
    (normalize : bool) :
  is_negative_zero x = false -> is_negative_zero y = false ->
  is_negative_zero z = false ->
  curlNoise3 (x, y, z) noiseVec3 0%float outScale normalize = (nan, nan, nan).
Proof.
  intros Hx Hy Hz. unfold curlNoise3, rawCurl.
  cbn [nadd nsub nmul ndiv nofZ binary64].
  rewrite !sub_zero_r, !add_zero_r by assumption.
  change (JS.ofZ 1 / (JS.ofZ 2 * 0))%float with infinity.
  rewrite !sub_self_mul_infinity.
  change (nan - nan)%float with nan.
  destruct normalize.
  - cbn -[PrimFloat.mul]. rewrite !mul_nan_l. reflexivity.
  - rewrite !mul_nan_l. reflexivity.
Qed.

(** X12.  A step of zero: [curlNoise3] with [eps = 0] returns
    [(NaN, NaN, NaN)] for every field, every scale, with or without
    normalisation, and so does the function that [curlNoise3D] returns.
    The six sample points are then the point itself, every difference is
    [0] (or NaN), and [inv2e] is [Infinity].  (The point must have no
    coordinate [-0]: [-0 + 0] is [+0], and a field may tell them
    apart.) *)
Theorem curlNoise3_zero_step (x y z : float) (outScale : float)
    (normalize : bool) :
  is_negative_zero x = false -> is_negative_zero y = false ->
  is_negative_zero z = false ->
  (forall noiseVec3,
     curlNoise3 (x, y, z) noiseVec3 0%float outScale normalize
     = (nan, nan, nan))
  /\ (forall noise,
        curlNoise3D noise 0%float outScale normalize (x, y, z)
        = (nan, nan, nan)).
Proof.
  intros Hx Hy Hz. split.
  - intros noiseVec3. apply curlNoise3_zero_step_any; assumption.
  - intros noise. unfold curlNoise3D.
    apply curlNoise3_zero_step_any; assumption.
Qed.

Lemma curlNoise3_zero_step_witness :
  (forall noiseVec3,
     curlNoise3 (1, 2, 3)%float noiseVec3 0%float 1%float true
     = (nan, nan, nan))
  /\ (forall noise,
        curlNoise3D noise 0%float 1%float true (1, 2, 3)%float
        = (nan, nan, nan)).
Proof.
  apply (curlNoise3_zero_step 1 2 3 1 true); reflexivity.
Defined.

(** X13.  A field that is constant has the curl zero, on binary64
    numbers too: when the field returns the same finite vector
    everywhere and [1 / (2 * eps)] is finite, [curlNoise3] returns
    [(0 * outScale, 0 * outScale, 0 * outScale)], with normalisation as
    without: the norm of the raw curl is then 0, which is false as a
    condition, and the division is by 1. *)
Theorem curlNoise3_constant_field (p : @vec3 float)
    (noiseVec3 : @vec3 float -> @vec3 float) (c : @vec3 float)
    (eps outScale : float) (normalize : bool) :
  (forall q, noiseVec3 q = c) ->
  is_finite (vx c) = true -> is_finite (vy c) = true ->
  is_finite (vz c) = true ->
  is_finite (1 / (2 * eps))%float = true ->
  curlNoise3 p noiseVec3 eps outScale normalize
  = (0 * outScale, 0 * outScale, 0 * outScale)%float.
Proof.
  intros HF Hx Hy Hz He. destruct p as [[x y] z].
  unfold curlNoise3, rawCurl. rewrite !HF.
  cbn [nadd nsub nmul ndiv nofZ binary64].
  change (JS.ofZ 1) with 1%float. change (JS.ofZ 2) with 2%float.
  rewrite (finite_sub_self _ Hx), (finite_sub_self _ Hy),
    (finite_sub_self _ Hz).
  rewrite (zero_product_sub_self _ He).
  destruct normalize; reflexivity.
Qed.

Lemma curlNoise3_constant_field_witness :
  curlNoise3 (0.1, 0.2, 0.3)%float (fun _ => (1, -2, 0.5)%float)
    0.0005%float 1%float true
  = (0 * 1, 0 * 1, 0 * 1)%float.
Proof.
  apply (curlNoise3_constant_field (0.1, 0.2, 0.3)%float
           (fun _ => (1, -2, 0.5)%float) (1, -2, 0.5)%float
           0.0005%float 1%float true);
    reflexivity.
Defined.

(** ** The number helpers and the colours *)

(** X14.  [mapValue] maps the start of the source range on the start of
    the target range: for finite ends [f1] and [f2] that differ, and a
    target range whose width [t2 - t1] is finite,
    [mapValue(f1, f1, f2, t1, t2)] is [t1]. *)
Theorem mapValue_start (f1 f2 t1 t2 : float) :
  is_finite f1 = true -> is_finite f2 = true -> (f1 =? f2)%float = false ->
  is_finite (t2 - t1) = true ->
  (mapValue f1 f1 f2 t1 t2 =? t1)%float = true.
Proof.
  intros F1 F2 Hne Ft. unfold mapValue.
  rewrite (finite_sub_self f1 F1).
  destruct (sub_nonzero f1 f2 F1 F2 Hne) as [Hz Hn].
  destruct (zero_mul_finite 0 (t2 - t1) eq_refl Ft) as [_ Hm].
  pose proof (zero_div _ _ Hm Hz Hn) as Hq.
  apply add_zero_eqb; [| exact Hq].
  destruct (is_nan t1) eqn:E; [| reflexivity].
  apply is_nan_eq in E. subst t1. rewrite sub_nan_r in Ft. discriminate.
Qed.

Lemma mapValue_start_witness :
  (mapValue 0.1 0.1 0.7 (-3) 12.5 =? -3)%float = true.
Proof.
  apply (mapValue_start 0.1 0.7 (-3) 12.5); reflexivity.
Defined.

(** The difference of two numbers that are equal is a zero, or NaN. *)
Lemma sub_equal (x y : float) :
  (x =? y)%float = true ->
  zero_form (Prim2SF (y - x)) = true \/ Prim2SF (y - x) = S754_nan.
Proof.
  intros He. rewrite eqb_spec in He. unfold SFeqb in He. rewrite sub_spec.
  unfold SF64sub.
  destruct (Prim2SF x) as [s1 | s1 | | s1 m1 e1],
           (Prim2SF y) as [s2 | s2 | | s2 m2 e2];
    cbn [SFcompare] in He; try discriminate;
    try (destruct s1; discriminate); try (destruct s2; discriminate).
  - left. destruct s1, s2; reflexivity.
  - right. destruct s1, s2; try discriminate; reflexivity.
  - assert (H : s1 = s2 /\ e1 = e2 /\ m1 = m2).
    { destruct s1, s2; try discriminate;
        destruct (Z.compare_spec e1 e2) as [-> | |]; try discriminate;
        rewrite Pos.compare_cont_spec in He; cbn [Pos.switch_Eq] in He;
        destruct (Pos.compare_spec m1 m2) as [-> | |]; try discriminate;
        repeat split; reflexivity. }
    destruct H as (-> & -> & ->). left.
    unfold SFsub. rewrite Z.sub_diag. reflexivity.
Qed.

(** X15.  An empty source range: when [f1] and [f2] are equal,
    [mapValue] returns no finite number, for any value and any target
    range; the result is an infinity or NaN. *)
Theorem mapValue_empty_source (v f1 f2 t1 t2 : float) :
  (f1 =? f2)%float = true ->
  is_finite (mapValue v f1 f2 t1 t2) = false.
Proof.
  intros He. unfold mapValue.
  pose proof (sub_equal f1 f2 He) as Hd.
  set (n := ((t2 - t1) * (v - f1))%float).
  rewrite is_finite_spec, add_spec, div_spec. unfold SF64add, SF64div.
  destruct Hd as [Hd | Hd].
  - destruct (Prim2SF (f2 - f1)) as [sd | | |]; try discriminate.
    destruct (Prim2SF n) as [sn | sn | | sn mn en],
             (Prim2SF t1) as [st | st | | st mt et]; try reflexivity;
      cbn; destruct st, sn, sd; reflexivity.
  - rewrite Hd.
    destruct (Prim2SF n) as [sn | sn | | sn mn en],
             (Prim2SF t1) as [st | st | | st mt et]; reflexivity.
Qed.

Lemma mapValue_empty_source_witness :
  is_finite (mapValue 3 5 5 0 100) = false.
Proof.
  apply (mapValue_empty_source 3 5 5 0 100). reflexivity.
Defined.

(** X16.  A grid of size zero: [snapValue(v, 0)] is NaN for every [v]
    (and so is [snapValue(v, -0)]).  The quotient [v / 0] is an infinity
    or NaN, [Math.round] returns it unchanged, and its product with 0 is
    NaN. *)
Theorem snapValue_zero_grid (v s : float) :
  (s =? 0)%float = true -> snapValue v s = nan.
Proof.
  rewrite is_zero_spec. intros Hs. unfold snapValue.
  assert (Hq : Prim2SF (v / s) = S754_nan
               \/ exists b, Prim2SF (v / s) = S754_infinity b).
  { rewrite div_spec. unfold SF64div.
    destruct (Prim2SF s) as [ss | | |]; try discriminate.
    destruct (Prim2SF v) as [sv | sv | | sv mv ev]; cbn [SFdiv];
      [left | right; eexists | left | right; eexists]; reflexivity. }
  assert (Hr : Math_round (v / s) = (v / s)%float).
  { unfold Math_round. destruct Hq as [-> | [b ->]]; reflexivity. }
  rewrite Hr. apply Prim2SF_inj. rewrite mul_spec. unfold SF64mul.
  destruct (Prim2SF s) as [ss | | |]; try discriminate.
  destruct Hq as [-> | [b ->]]; reflexivity.
Qed.

Lemma snapValue_zero_grid_witness : snapValue 12.5 0 = nan.
Proof.
  apply (snapValue_zero_grid 12.5 0). reflexivity.
Defined.

(** [Math.round] on some numbers: ties go up, and a zero result keeps
    the sign. *)
Example Math_round_values :
  List.map Math_round [2.5; -2.5; 0.5; -0.5; 0.49999999999999994; 1.4; -1.6;
                       4503599627370495.5; infinity]%float
  = [3; -2; 1; -0; 0; 1; -2; 4503599627370496; infinity]%float.
Proof. vm_compute. reflexivity. Qed.

(** X17.  [distance] is symmetric: the distance from the first point to
    the second is, bit for bit, the distance from the second to the
    first, for all numbers. *)
Theorem distance_symmetric (x1 y1 x2 y2 : float) :
  distance x1 y1 x2 y2 = distance x2 y2 x1 y1.
Proof.
  unfold distance. cbv zeta.
  rewrite (square_sub_swap x2 x1), (square_sub_swap y2 y1). reflexivity.
Qed.

Lemma positive_form_leb (x : float) :
  positive_form (Prim2SF x) = true ->
  is_nan x = true \/ (0 <=? x)%float = true.
Proof.
  intros H. rewrite leb_spec. change (Prim2SF 0) with (S754_zero false).
  destruct (Prim2SF x) as [s | s | | s m e] eqn:E; cbn [positive_form] in H;
    try (apply negb_true_iff in H; subst s).
  - right. reflexivity.
  - right. reflexivity.
  - left. apply is_nan_spec. exact E.
  - right. reflexivity.
Qed.

(** X18.  [distance] never returns a negative number: its result is NaN
    or a number [>= 0] (possibly [Infinity]), and it is never [-0].  From
    a point with finite coordinates to itself it is 0. *)
Theorem distance_not_negative (x1 y1 x2 y2 : float) :
  let d := distance x1 y1 x2 y2 in
  (is_nan d = true \/ (0 <=? d)%float = true)
  /\ (d <? 0)%float = false
  /\ is_negative_zero d = false
  /\ (is_finite x1 = true -> is_finite y1 = true ->
      distance x1 y1 x1 y1 = 0%float).
Proof.
  intros d.
  assert (H : positive_form (Prim2SF d) = true).
  { subst d. unfold distance. cbv zeta.
    rewrite sqrt_spec, add_spec, !mul_spec.
    apply sqrt_positive, add_positive; apply square_positive. }
  split; [apply positive_form_leb, H | split; [| split]].
  - rewrite ltb_spec. change (Prim2SF 0) with (S754_zero false).
    destruct (Prim2SF d) as [s | s | | s m e]; cbn [positive_form] in H;
      try (apply negb_true_iff in H; subst s); reflexivity.
  - unfold is_negative_zero.
    destruct (Prim2SF d) as [s | s | | s m e]; cbn [positive_form] in H;
      try (apply negb_true_iff in H; subst s); reflexivity.
  - intros Hx Hy. unfold distance. cbv zeta.
    rewrite (finite_sub_self x1 Hx), (finite_sub_self y1 Hy). reflexivity.
Qed.

(** X19.  A grey is the RGB colour with three equal channels: for every
    grey value and alpha, missing ones and [null] included,
    [color('BW', t, a)] is the string [color('RGB', t, t, t, a)]. *)
Theorem color_grey_is_rgb (numberToString : float -> string)
    (c : list jsvalue) :
  is_string (nth 0 c JSUndefined) "BW" = true ->
  color numberToString c
  = color numberToString
      [JSString "RGB"; nth 1 c JSUndefined; nth 1 c JSUndefined;
       nth 1 c JSUndefined; nth 2 c JSUndefined].
Proof.
  intros Hm. unfold color.
  assert (Hr : is_string (nth 0 c JSUndefined) "RGB" = false).
  { destruct (nth 0 c JSUndefined) as [| | x | m]; try discriminate.
    cbn [is_string] in *. apply String.eqb_eq in Hm. subst m. reflexivity. }
  rewrite Hr, Hm. cbn [nth is_string String.eqb Ascii.eqb Bool.eqb].
  unfold colorBW, colorRGB.
  destruct (nth 1 c JSUndefined), (nth 2 c JSUndefined); reflexivity.
Qed.

Lemma color_grey_is_rgb_witness :
  color (fun _ => "?"%string) [JSString "BW"; JSNumber 128]
  = color (fun _ => "?"%string)
      [JSString "RGB"; JSNumber 128; JSNumber 128; JSNumber 128; JSUndefined].
Proof.
  apply (color_grey_is_rgb (fun _ => "?"%string) [JSString "BW"; JSNumber 128]).
  reflexivity.
Defined.

(** X20.  The modes of [color]: it returns a string exactly when its
    first argument is one of the strings 'RGB', 'BW' and 'HSLA', in
    capitals; on any other first argument ('rgb', 'HSB', a number,
    nothing) it returns [undefined]. *)
Theorem color_modes (numberToString : float -> string) (c : list jsvalue) :
  let mode := nth 0 c JSUndefined in
  (color numberToString c = JSUndefined
   <-> (is_string mode "RGB" || is_string mode "BW" || is_string mode "HSLA")
       = false)
  /\ (color numberToString c <> JSUndefined
      -> exists s, color numberToString c = JSString s).
Proof.
  intros mode. unfold color. fold mode.
  destruct (is_string mode "RGB"); [cbn [orb] |];
    [| destruct (is_string mode "BW"); [cbn [orb] |];
       [| destruct (is_string mode "HSLA"); cbn [orb] ]].
  - split; [split; discriminate | eauto].
  - split; [split; discriminate | eauto].
  - split; [split; discriminate | eauto].
  - split; [split; reflexivity | intros H; contradiction].
Qed.

(** X25.  [distance] squares the differences before it adds them, so
    it overflows where the distance itself is a number: when one of the
    differences is [2^512] or more in size, and the other is not NaN,
    the result is [Infinity]. *)
Theorem distance_overflow (x1 y1 x2 y2 : float) :
  ((0x1p512 <=? abs (x2 - x1))%float = true /\ is_nan (y2 - y1) = false)
  \/ ((0x1p512 <=? abs (y2 - y1))%float = true /\ is_nan (x2 - x1) = false) ->
  distance x1 y1 x2 y2 = infinity.
Proof.
  intros H. unfold distance. cbv zeta. apply Prim2SF_inj.
  rewrite sqrt_spec, add_spec. unfold SF64sqrt, SF64add.
  destruct H as [[Hbig Hn] | [Hbig Hn]].
  - rewrite (Overflow.large_square _ Hbig), mul_spec. unfold SF64mul.
    assert (HY : Prim2SF (y2 - y1) <> S754_nan).
    { intros E. apply is_nan_spec in E. congruence. }
    destruct (Overflow.infinity_add_square _ HY) as [-> _]. reflexivity.
  - rewrite (Overflow.large_square _ Hbig), mul_spec. unfold SF64mul.
    assert (HX : Prim2SF (x2 - x1) <> S754_nan).
    { intros E. apply is_nan_spec in E. congruence. }
    destruct (Overflow.infinity_add_square _ HX) as [_ ->]. reflexivity.
Qed.

Lemma distance_overflow_witness : distance 0 0 0x1p600 3 = infinity.
Proof.
  apply (distance_overflow 0 0 0x1p600 3). left. split; reflexivity.
Defined.

(** ** The animation loop *)

Lemma frames_length (times : list JS.value) (st : loop_state) :
  List.length (frames times st) = List.length times.
Proof.
  revert st. induction times as [| t ts IH]; intros st; [reflexivity |].
  cbn [frames frame List.length]. rewrite IH. reflexivity.
Qed.

(** The call number [n] of the frame function, from the state [st]. *)
Lemma frames_nth (times : list JS.value) (st : loop_state) (n : nat)
    (a : draw_args) :
  nth_error (frames times st) n = Some a ->
  arg_time a = nth n times JS.Undefined
  /\ arg_deltaRatio a
     = (1000 / 60
        / (JS.toNumber (nth n times JS.Undefined)
           - JS.toNumber (nth n (lastTime st :: times) JS.Undefined)))%float
  /\ arg_frameCount a = Nat.iter n (fun c => (c + 1)%float) (frameCount st).
Proof.
  revert st n. induction times as [| t ts IH]; intros st n H.
  - destruct n; discriminate.
  - cbn [frames frame] in H. destruct n as [| n].
    + cbn [nth_error] in H. injection H as <-. cbn. repeat split.
    + cbn [nth_error] in H. destruct (IH _ _ H) as (H1 & H2 & H3).
      cbn [lastTime frameCount] in H2, H3.
      repeat split; [exact H1 | exact H2 |].
      rewrite H3. rewrite Nat.iter_succ_r. reflexivity.
Qed.

Lemma count_from (z : Z) (n : nat) :
  0 <= z -> z + Z.of_nat n < 2 ^ 53 ->
  Nat.iter n (fun c => (c + 1)%float) (JS.ofZ z) = JS.ofZ (z + Z.of_nat n).
Proof.
  revert z. induction n as [| n IH]; intros z Hz Hb.
  - cbn [Nat.iter Z.of_nat]. rewrite Z.add_0_r. reflexivity.
  - rewrite Nat.iter_succ_r. change 1%float with (JS.ofZ 1).
    rewrite Exact.ofZ_add by lia. change (JS.ofZ 1) with 1%float.
    rewrite IH by lia.
    replace (z + 1 + Z.of_nat n) with (z + Z.of_nat (S n)) by lia.
    reflexivity.
Qed.

(** X21.  The first two calls of [draw] receive [deltaRatio = NaN],
    whatever the clock says: the first call of the frame function has no
    time stamp, so that [time - lastTime] is NaN and [lastTime] becomes
    [undefined]; the second call subtracts that [undefined].  From the
    third call on, [deltaRatio] is [(1000 / 60) / (t1 - t0)] for the time
    stamps [t0] and [t1] of the previous and of the current frame. *)
Theorem first_frames_have_no_ratio (now : float) (stamps : list float)
    (n : nat) (a : draw_args) :
  nth_error (ascanvas2d now stamps) n = Some a ->
  ((n <= 1)%nat -> arg_deltaRatio a = nan)
  /\ ((2 <= n)%nat ->
        exists t0 t1,
          nth_error stamps (n - 2) = Some t0
          /\ nth_error stamps (n - 1) = Some t1
          /\ arg_deltaRatio a = (1000 / 60 / (t1 - t0))%float).
Proof.
  intros H. unfold ascanvas2d in H.
  pose proof (nth_error_Some (frames (JS.Undefined :: List.map JS.Num stamps)
                (LoopState (JS.Num now) 0)) n) as Hlen.
  rewrite H, frames_length in Hlen. cbn [List.length] in Hlen.
  rewrite length_map in Hlen.
  assert (Hn : (n < S (List.length stamps))%nat) by (apply Hlen; discriminate).
  destruct (frames_nth _ _ _ _ H) as (_ & Hd & _). cbn [lastTime] in Hd.
  split.
  - intros Hle. rewrite Hd. destruct n as [| [| n]]; [| | lia].
    + cbn [nth JS.toNumber]. rewrite sub_nan_l, div_nan_r. reflexivity.
    + cbn [nth JS.toNumber]. rewrite sub_nan_r, div_nan_r. reflexivity.
  - intros Hge. destruct n as [| [| n]]; try lia.
    cbn [nth] in Hd. replace (S (S n) - 2)%nat with n by lia.
    replace (S (S n) - 1)%nat with (S n) by lia.
    destruct (nth_error stamps n) as [t0 |] eqn:E0;
      [| apply nth_error_None in E0; lia].
    destruct (nth_error stamps (S n)) as [t1 |] eqn:E1;
      [| apply nth_error_None in E1; lia].
    exists t0, t1. repeat split. rewrite Hd.
    rewrite (nth_error_nth _ _ JS.Undefined (map_nth_error JS.Num _ _ E0)).
    rewrite (nth_error_nth _ _ JS.Undefined (map_nth_error JS.Num _ _ E1)).
    reflexivity.
Qed.

Lemma first_frames_have_no_ratio_witness :
  ((1 <= 1)%nat
   -> arg_deltaRatio (DrawArgs (JS.Num 16.5) nan 1) = nan)
  /\ ((2 <= 1)%nat ->
        exists t0 t1,
          nth_error [16.5; 33.25; 50]%float (1 - 2) = Some t0
          /\ nth_error [16.5; 33.25; 50]%float (1 - 1) = Some t1
          /\ arg_deltaRatio (DrawArgs (JS.Num 16.5) nan 1)
             = (1000 / 60 / (t1 - t0))%float).
Proof.
  apply (first_frames_have_no_ratio 1700000000000 [16.5; 33.25; 50]%float 1
           (DrawArgs (JS.Num 16.5) nan 1)).
  reflexivity.
Defined.

(** X22.  [frameCount] counts the calls: the call number [n] of [draw]
    (from 0) receives [frameCount = n], for every [n] below [2^53]. *)
Theorem frameCount_counts_calls (now : float) (stamps : list float)
    (n : nat) (a : draw_args) :
  nth_error (ascanvas2d now stamps) n = Some a ->
  Z.of_nat n < 2 ^ 53 ->
  arg_frameCount a = JS.ofZ (Z.of_nat n).
Proof.
  intros H Hn. destruct (frames_nth _ _ _ _ H) as (_ & _ & Hc).
  rewrite Hc. cbn [frameCount]. change 0%float with (JS.ofZ 0).
  rewrite count_from by lia. reflexivity.
Qed.

Lemma frameCount_counts_calls_witness :
  arg_frameCount (DrawArgs (JS.Num 33.25) (1000 / 60 / (33.25 - 16.5)) 2)
  = JS.ofZ (Z.of_nat 2).
Proof.
  apply (frameCount_counts_calls 1700000000000 [16.5; 33.25; 50]%float 2
           (DrawArgs (JS.Num 33.25) (1000 / 60 / (33.25 - 16.5)) 2)).
  - reflexivity.
  - reflexivity.
Defined.
